(** * nesify: palette reduction to NES subpalettes

    A shallow embedding of the subpalette discovery and tile assignment code
    of nesify (src/sort.js, nesPalette.js and nesify.js) together with the
    properties its specification states about it (Part II) and further
    properties of the code itself (Part III).

    Conventions of the embedding:
    - JavaScript numbers that the code only uses as counts, sizes and indices
      are [nat]; colour channels and integers that go through bit operations
      are [Z]; distances, which come out of [Math.sqrt], are IEEE binary64
      values ([float], the kernel's primitive floats).
    - A JavaScript object used as a dictionary is an association list in
      property order; string keys of the form [#rrggbb...] are never array
      indices, so property order is insertion order.
    - [Array.prototype.sort] is the stable sort ECMAScript prescribes.
    - A thrown exception is the [Throw] branch of [result]. *)

From Stdlib Require Import String Ascii ZArith Lia Bool Arith.
From Stdlib Require Import Uint63 PrimFloat FloatOps FloatAxioms SpecFloat.
From Stdlib Require Import List Permutation Sorted.
From Stdlib Require HexString.
Import ListNotations.

Set Implicit Arguments.
Open Scope string_scope.
Open Scope nat_scope.
Open Scope list_scope.

(* ================================================================== *)
(** * Part I: the embedding                                            *)
(* ================================================================== *)

(** ** Exceptions *)

Inductive result (A : Type) : Type :=
| Ok (value : A)
| Throw (message : string).

Arguments Ok {A} value.
Arguments Throw {A} message.

Definition bind {A B} (r : result A) (k : A -> result B) : result B :=
  match r with
  | Ok a => k a
  | Throw m => Throw m
  end.

Notation "x <- r ;; k" := (bind r (fun x => k))
  (at level 61, r at next level, right associativity).
Notation "' pat <- r ;; k" := (bind r (fun pat => k))
  (at level 61, pat pattern, r at next level, right associativity).

(** ** src/sort.js *)

Definition SORT_A_B_EQUAL : Z := 0%Z.
Definition SORT_A_FIRST : Z := (-1)%Z.
Definition SORT_B_FIRST : Z := 1%Z.

(** The values the comparators are applied to: [===] and [<] of JavaScript
    on numbers, strings and booleans. *)
Class JsOrd (A : Type) : Type := {
  strictEq : A -> A -> bool;
  lessThan : A -> A -> bool
}.

#[export] Instance JsOrd_nat : JsOrd nat :=
  {| strictEq := Nat.eqb; lessThan := Nat.ltb |}.

#[export] Instance JsOrd_Z : JsOrd Z :=
  {| strictEq := Z.eqb; lessThan := Z.ltb |}.

#[export] Instance JsOrd_bool : JsOrd bool :=
  {| strictEq := Bool.eqb; lessThan := fun a b => negb a && b |}.

#[export] Instance JsOrd_string : JsOrd string :=
  {| strictEq := String.eqb; lessThan := String.ltb |}.

#[export] Instance JsOrd_float : JsOrd float :=
  {| strictEq := PrimFloat.eqb; lessThan := PrimFloat.ltb |}.

Definition comparatorAscending {A} `{JsOrd A} (a b : A) : Z :=
  if strictEq a b then SORT_A_B_EQUAL
  else if lessThan a b then SORT_A_FIRST else SORT_B_FIRST.

Definition comparatorDescending {A} `{JsOrd A} (a b : A) : Z :=
  if strictEq a b then SORT_A_B_EQUAL
  else if lessThan b a then SORT_A_FIRST else SORT_B_FIRST.

(** ** Array.prototype.sort

    A stable sort: [x] is put in front of the first element it does not
    compare greater than, so elements that compare equal keep their order. *)

Fixpoint insertBy {A} (cmp : A -> A -> Z) (x : A) (l : list A) : list A :=
  match l with
  | [] => [x]
  | y :: l' => if (0 <? cmp x y)%Z then y :: insertBy cmp x l' else x :: l
  end.

Definition sortBy {A} (cmp : A -> A -> Z) (l : list A) : list A :=
  fold_right (insertBy cmp) [] l.

(** [array.reduce((acc, x, i) => ...)] passes the index along. *)
Definition indexed {A} (l : list A) : list (A * nat) :=
  combine l (seq 0 (length l)).

(** [array.slice(from)] and [array.slice(0, to)] on in-range arguments. *)
Definition sliceFrom {A} (from : nat) (l : list A) : list A := skipn from l.
Definition sliceTo {A} (to : nat) (l : list A) : list A := firstn to l.

(** ** nesify.js: enumeratePaletteOptions *)

Fixpoint enumeratePaletteOptions {A} (palette : list A) (maxColors : nat)
  : list (list A) :=
  match maxColors with
  | 0 => []
  | S restMax =>
    match restMax with
    | 0 => map (fun color => [color]) palette
    | S _ =>
      if length palette <=? maxColors then [palette]
      else
        fold_left
          (fun subpalettes '(firstColor, i) =>
             let restPalette := sliceFrom (i + 1) palette in
             let restPaletteOptions := enumeratePaletteOptions restPalette restMax in
             subpalettes ++ map (fun restColors => firstColor :: restColors)
                                restPaletteOptions)
          (indexed (sliceTo ((length palette + 1) - maxColors) palette))
          []
    end
  end.

(** The number of [k]-element subsets of an [n]-element set (Pascal's rule). *)
Fixpoint binomial (n k : nat) : nat :=
  match k, n with
  | 0, _ => 1
  | S _, 0 => 0
  | S k', S n' => binomial n' k' + binomial n' k
  end.

(** [Subseq s l]: [s] is [l] with some elements left out, the others in
    their order. *)
Inductive Subseq {A} : list A -> list A -> Prop :=
| Subseq_nil : Subseq [] []
| Subseq_skip x s l : Subseq s l -> Subseq s (x :: l)
| Subseq_take x s l : Subseq s l -> Subseq (x :: s) (x :: l).

(** All [k]-element subsequences of a list, first element first. *)
Fixpoint combinations {A} (l : list A) (k : nat) : list (list A) :=
  match k, l with
  | 0, _ => [[]]
  | S _, [] => []
  | S k', x :: t => map (cons x) (combinations t k') ++ combinations t k
  end.

(** ** JavaScript values for colours

    A colour is passed around as an array [[r, g, b]], an object with
    channel fields, a hex string or a number; [undefined] turns up for
    palette indices that are not in the table.  Arrays and objects carry the
    identity of the object ([ref]): [===], [indexOf] and the memoization
    cache tell two arrays with equal content apart.  The program never
    mutates a colour array once it is built, so a model value is an object
    together with its content. *)

Inductive ref : Type :=
| RPixel (call pixel : nat)  (* sliced out of pixel [pixel] by the [call]-th getLocalPalette *)
| RCaller (id : nat)         (* built by the caller, e.g. options.backgroundColor *)
| RFresh.                    (* built by normalizeColor or for a comparison only *)

Inductive anyColor : Type :=
| ColorArray (id : ref) (channels : list Z)
| ColorObject (id : ref) (r red g green b blue : option Z)
| ColorString (s : string)
| ColorNumber (n : Z)        (* an integer-valued number *)
| ColorUndefined.

Definition ref_eq_dec (a b : ref) : {a = b} + {a <> b}.
Proof. decide equality; apply Nat.eq_dec. Defined.

Definition anyColor_eq_dec (a b : anyColor) : {a = b} + {a <> b}.
Proof.
  decide equality;
    try apply ref_eq_dec;
    try apply (list_eq_dec Z.eq_dec);
    try apply String.string_dec;
    try apply Z.eq_dec;
    decide equality; apply Z.eq_dec.
Defined.

(** [a === b] *)
Definition strictEqColor (a b : anyColor) : bool :=
  if anyColor_eq_dec a b then true else false.

(** [x || y || 0] on channel fields: [undefined] and [0] are falsy. *)
Definition orElse (x y : option Z) : Z :=
  match x with
  | Some v => if (v =? 0)%Z then match y with Some w => w | None => 0%Z end else v
  | None => match y with Some w => w | None => 0%Z end
  end.

(** *** Hex digits *)

Definition isHexDigit (c : ascii) : bool :=
  let n := nat_of_ascii c in
  ((48 <=? n) && (n <=? 57)) || ((97 <=? n) && (n <=? 102)).

Definition hexDigitValue (c : ascii) : Z :=
  let n := nat_of_ascii c in
  if n <=? 57 then Z.of_nat (n - 48) else Z.of_nat (n - 87).

Definition hexDigit (v : Z) : ascii :=
  if (v <? 10)%Z then ascii_of_nat (48 + Z.to_nat v)
  else ascii_of_nat (87 + Z.to_nat v).

Definition toLowerCaseAscii (c : ascii) : ascii :=
  let n := nat_of_ascii c in
  if (65 <=? n) && (n <=? 90) then ascii_of_nat (n + 32) else c.

Fixpoint mapString (f : ascii -> ascii) (s : string) : string :=
  match s with
  | EmptyString => EmptyString
  | String c s' => String (f c) (mapString f s')
  end.

Fixpoint filterString (f : ascii -> bool) (s : string) : string :=
  match s with
  | EmptyString => EmptyString
  | String c s' => if f c then String c (filterString f s') else filterString f s'
  end.

(** [s.split('').map(v => v + v).join('')] *)
Fixpoint doubleChars (s : string) : string :=
  match s with
  | EmptyString => EmptyString
  | String c s' => String c (String c (doubleChars s'))
  end.

(** The integer a string of hex digits denotes, most significant first. *)
Fixpoint hexValueFrom (acc : Z) (s : string) : Z :=
  match s with
  | EmptyString => acc
  | String c s' => hexValueFrom (16 * acc + hexDigitValue c)%Z s'
  end.

(** A JavaScript number as far as the colour code needs it: an integer
    value, or one of [NaN] and the infinities, which the bit operators all
    read as [0]. *)
Inductive number : Type :=
| Int (value : Z)
| NotInt.

(** The binary64 value nearest to a non-negative integer (ties to even). *)
Definition roundToDouble (v : Z) : number :=
  if (v <? 2 ^ 53)%Z then Int v
  else
    let e := (Z.log2 v - 52)%Z in
    let q := Z.shiftr v e in
    let r := (v mod 2 ^ e)%Z in
    let half := (2 ^ (e - 1))%Z in
    let q' := if (half <? r)%Z || ((r =? half)%Z && Z.odd q) then (q + 1)%Z else q in
    let v' := (q' * 2 ^ e)%Z in
    if (v' <? 2 ^ 1024)%Z then Int v' else NotInt.

(** The integers that are numbers: binary64 holds [n] exactly.  A
    [ColorNumber n] stands for a JavaScript number only when [n] is one of
    them; numbers with a fraction are outside the model. *)
Definition isDouble (n : Z) : Prop := roundToDouble (Z.abs n) = Int (Z.abs n).

(** [parseInt(s, 16)] on a string of hex digits only. *)
Definition parseIntHex (s : string) : number :=
  match s with
  | EmptyString => NotInt
  | _ => roundToDouble (hexValueFrom 0 s)
  end.

(** [[(n >> 16) & 0xff, (n >> 8) & 0xff, n & 0xff]]: the bits of [ToInt32 n]
    that are read are those of [n] itself. *)
Definition channelsOfNumber (n : number) : list Z :=
  match n with
  | Int v => [Z.land (Z.shiftr v 16) 255; Z.land (Z.shiftr v 8) 255; Z.land v 255]
  | NotInt => [0; 0; 0]%Z
  end.

(** ** nesPalette.js *)

Definition COLORS_PER_SUBPALETTE : nat := 4.
Definition SUBPALETTES_PER_IMAGE : nat := 4.
Definition CANONICAL_BLACK : string := "0f".

(** The table as written, in source order. *)
Definition nesPaletteSource : list (string * string) :=
  [ ("00", "#7c7c7c"); ("01", "#0923f8"); ("02", "#0417b9"); ("03", "#4430b9");
    ("04", "#920f82"); ("05", "#a60424"); ("06", "#a6120d"); ("07", "#861508");
    ("08", "#4f2f04"); ("09", "#0c770f"); ("0a", "#09670b"); ("0b", "#065707");
    ("0c", "#034057"); ("0d", "#000000"); ("0e", "#000000"); ("0f", "#000000");
    ("10", "#bcbcbc"); ("11", "#147cf5"); ("12", "#0f5ef4"); ("13", "#684df8");
    ("14", "#d61eca"); ("15", "#e20e5a"); ("16", "#f53a1b"); ("17", "#e25c22");
    ("18", "#ab7b19"); ("19", "#1ab61e"); ("1a", "#17a61a"); ("1b", "#17a749");
    ("1c", "#128887"); ("1d", "#000000"); ("1e", "#000000"); ("1f", "#000000");
    ("20", "#f8f8f8"); ("21", "#44bdfa"); ("22", "#6a8bf9"); ("23", "#987cf5");
    ("24", "#f67df6"); ("25", "#f65b98"); ("26", "#f6785d"); ("27", "#fa9f4e");
    ("28", "#f7b72a"); ("29", "#baf638"); ("2a", "#5dd65b"); ("2b", "#60f69b");
    ("2c", "#27e7d8"); ("2d", "#787878"); ("2e", "#000000"); ("2f", "#000000");
    ("30", "#fcfcfc"); ("31", "#a6e4fb"); ("32", "#b8b9f6"); ("33", "#d8baf6");
    ("34", "#f7baf7"); ("35", "#f7a5c0"); ("36", "#efd0b2"); ("37", "#fbdfab");
    ("38", "#f7d77e"); ("39", "#d9f680"); ("3a", "#baf7ba"); ("3b", "#baf7d9");
    ("3c", "#2cfcfb"); ("3d", "#d8d8d8"); ("3e", "#000000"); ("3f", "#000000") ].

(** ** Objects used as dictionaries

    A dictionary is the list of its properties in property order.  Setting
    a property that exists keeps its place, a new one goes last. *)

Definition dict (V : Type) : Type := list (string * V).

Fixpoint lookup {V} (key : string) (o : dict V) : option V :=
  match o with
  | [] => None
  | (k, v) :: o' => if String.eqb k key then Some v else lookup key o'
  end.

(** [key in o] *)
Definition hasKey {V} (key : string) (o : dict V) : bool :=
  match lookup key o with Some _ => true | None => false end.

(** [o[key] = v] *)
Fixpoint assign {V} (key : string) (v : V) (o : dict V) : dict V :=
  match o with
  | [] => [(key, v)]
  | (k, w) :: o' =>
    if String.eqb k key then (k, v) :: o' else (k, w) :: assign key v o'
  end.

(** [delete o[key]] *)
Definition delete {V} (key : string) (o : dict V) : dict V :=
  filter (fun kv => negb (String.eqb (fst kv) key)) o.

(** [Object.keys(o)] and [Object.keys(o).map(key => o[key])] *)
Definition keys {V} (o : dict V) : list string := map fst o.
Definition values {V} (o : dict V) : list V := map snd o.

(** Property order of an object literal: keys that are canonical array
    indices come first, in numeric order, the others follow as written. *)
Definition isDigit (c : ascii) : bool :=
  let n := nat_of_ascii c in (48 <=? n) && (n <=? 57).

Fixpoint allDigits (s : string) : bool :=
  match s with
  | EmptyString => true
  | String c s' => isDigit c && allDigits s'
  end.

Definition isArrayIndex (k : string) : bool :=
  match k with
  | EmptyString => false
  | String c EmptyString => isDigit c
  | String c s' => isDigit c && negb (Ascii.eqb c "0") && allDigits s'
  end.

Fixpoint decimalValueFrom (acc : Z) (s : string) : Z :=
  match s with
  | EmptyString => acc
  | String c s' => decimalValueFrom (10 * acc + Z.of_nat (nat_of_ascii c - 48))%Z s'
  end.

Definition objectLiteral {V} (properties : list (string * V)) : dict V :=
  sortBy (fun a b => comparatorAscending (decimalValueFrom 0 (fst a))
                                         (decimalValueFrom 0 (fst b)))
         (filter (fun kv => isArrayIndex (fst kv)) properties)
  ++ filter (fun kv => negb (isArrayIndex (fst kv))) properties.

(** ** nesPalette.js, continued *)

Definition nesPalette : dict string := objectLiteral nesPaletteSource.

(** lodash [invert]: every value becomes a key holding the last key that
    had it. *)
Definition invert (o : dict string) : dict string :=
  fold_left (fun inverted '(key, value) => assign value key inverted) o [].

(** [nesPaletteInverted[nesPalette[CANONICAL_BLACK]] = CANONICAL_BLACK] *)
Definition nesPaletteInverted : dict string :=
  let black := match lookup CANONICAL_BLACK nesPalette with
               | Some hex => hex
               | None => "undefined"
               end in
  assign black CANONICAL_BLACK (invert nesPalette).

Definition normalizeColor (color : anyColor) : anyColor :=
  match color with
  | ColorArray _ _ => color
  | ColorObject _ r red g green b blue =>
    ColorArray RFresh [orElse r red; orElse g green; orElse b blue]
  | ColorString s =>
    let stripped := filterString isHexDigit (mapString toLowerCaseAscii s) in
    let digits := if String.length stripped =? 3 then doubleChars stripped
                  else stripped in
    ColorArray RFresh (channelsOfNumber (parseIntHex digits))
  | ColorNumber n => ColorArray RFresh (channelsOfNumber (Int n))
  | ColorUndefined => ColorArray RFresh (channelsOfNumber NotInt)
  end.

(** The elements of the array normalizeColor returns. *)
Definition channels (color : anyColor) : list Z :=
  match normalizeColor color with
  | ColorArray _ elements => elements
  | _ => []
  end.

Definition normalizeDitherPalette (palette : list anyColor) : list anyColor :=
  map normalizeColor palette.

(** [v.toString(16)] of an integer: lower-case hex digits, most
    significant first, behind a minus sign for a negative one. *)
Definition toString16 (v : Z) : string :=
  match v with
  | Z0 => "0"
  | Zpos p => HexString.Raw.of_pos p ""
  | Zneg p => String "-" (HexString.Raw.of_pos p "")
  end.

(** rgb2hex of the color-functions package, which is not part of the
    sources.  It writes each of its three arguments with [toString(16)],
    puts a 0 in front of a single digit, and concatenates the three.  For
    channels in 0-255 this is the spec's canonical hex key, the six
    lower-case hex digits rrggbb that the table's own keys use; a channel
    outside that range is written with its sign and all its digits. *)
Definition hexByte (v : Z) : string :=
  let hex := toString16 v in
  if String.length hex =? 1 then String "0" hex else hex.

Definition rgb2hex (r g b : Z) : string :=
  (hexByte r ++ hexByte g ++ hexByte b)%string.

(** The colours that have a hex string.  The channels are spread into the
    arguments of rgb2hex; an array shorter than three leaves an argument
    [undefined], and rgb2hex throws a TypeError on it.  normalizeColorHex
    below is the function on the colours with three channels: it is total,
    and what it returns for a shorter array stands for nothing the program
    computes. *)
Definition threeChannels (color : anyColor) : Prop := 3 <= length (channels color).

(** [`#${rgb2hex(...normalizeColor(anyColor))}`] *)
Definition normalizeColorHex (color : anyColor) : string :=
  let rgb := channels color in
  ("#" ++ rgb2hex (nth 0 rgb 0%Z) (nth 1 rgb 0%Z) (nth 2 rgb 0%Z))%string.

(** *** Numbers that come out of Math.sqrt *)

(** The binary64 value of an integer ([|z| < 2^53] is exact). *)
Definition numberOfZ (z : Z) : float :=
  if (z <? 0)%Z then PrimFloat.opp (PrimFloat.of_uint63 (Uint63.of_Z (- z)))
  else PrimFloat.of_uint63 (Uint63.of_Z z).

(** [array[i]] as a number operand: a missing element is [undefined],
    which arithmetic turns into [NaN]. *)
Definition operand (array : list Z) (i : nat) : float :=
  match nth_error array i with
  | Some v => numberOfZ v
  | None => PrimFloat.nan
  end.

(** [x ** 2] *)
Definition square (x : float) : float := PrimFloat.mul x x.

Definition colorDistance (a b : anyColor) : float :=
  let colorA := channels a in
  let colorB := channels b in
  PrimFloat.sqrt
    (PrimFloat.add
       (PrimFloat.add
          (square (PrimFloat.sub (operand colorA 0) (operand colorB 0)))
          (square (PrimFloat.sub (operand colorA 1) (operand colorB 1))))
       (square (PrimFloat.sub (operand colorB 2) (operand colorB 2)))).

(** ** nesPalette.js: nesColorMatch *)

(** The function that memoize wraps.  An entry of [nesPaletteInverted] is a
    key of the object together with the value stored under it, so the
    [map] over [Object.keys] is a map over the entries; [{key, distance}]
    is a pair. *)
Definition nesColorMatchSearch (findColor : anyColor) : result string :=
  let hex := normalizeColorHex findColor in
  match lookup hex nesPaletteInverted with
  | Some index => Ok index
  | None =>
    let distances :=
      sortBy (fun a b => comparatorAscending (snd a) (snd b))
             (map (fun '(nesHex, index) =>
                     (index, colorDistance (ColorString hex) (ColorString nesHex)))
                  nesPaletteInverted) in
    match distances with
    | nearest :: _ => Ok (fst nearest)
    | [] => Throw "TypeError"
    end
  end.

(** lodash [memoize]: the cache is keyed by the argument itself. *)
Definition MemoCache : Type := list (anyColor * string).

Definition nesColorMatch (cache : MemoCache) (findColor : anyColor)
  : result string * MemoCache :=
  match find (fun entry => strictEqColor (fst entry) findColor) cache with
  | Some entry => (Ok (snd entry), cache)
  | None =>
    match nesColorMatchSearch findColor with
    | Ok index => (Ok index, cache ++ [(findColor, index)])
    | Throw message => (Throw message, cache)
    end
  end.

(** A run of calls, the cache going from each call to the next. *)
Fixpoint nesColorMatchCalls (cache : MemoCache) (calls : list anyColor)
  : list (result string) * MemoCache :=
  match calls with
  | [] => ([], cache)
  | findColor :: calls' =>
    let '(index, cache') := nesColorMatch cache findColor in
    let '(indices, cache'') := nesColorMatchCalls cache' calls' in
    (index :: indices, cache'')
  end.

(** ** nesify.js: image data *)

Definition RGBA_BYTES : nat := 4.
Definition rgbaOffset (offset : nat) : nat := offset * RGBA_BYTES.

Definition colorKey (color : anyColor) : string := normalizeColorHex color.

(** [array.join(',')] *)
Definition join (parts : list string) : string := String.concat "," parts.

Definition paletteKey (palette : list anyColor) : string :=
  join (sortBy comparatorAscending (map normalizeColorHex palette)).

(** An [ImageData]: the bytes of its pixels, four per pixel, row by row. *)
Record ImageData : Type := {
  width : nat;
  height : nat;
  data : list Z
}.

(** [new ImageData(sw, sh)]: every byte is zero. *)
Definition newImageData (sw sh : nat) : ImageData :=
  {| width := sw; height := sh; data := repeat 0%Z (rgbaOffset (sw * sh)) |}.

(** [array.slice(start, end)]: both ends are clamped to the array. *)
Definition slice {A} (start stop : nat) (array : list A) : list A :=
  firstn (stop - start) (skipn start array).

(** [target.set(source, offset)], for a source that fits. *)
Definition setAt {A} (source : list A) (offset : nat) (target : list A) : list A :=
  firstn offset target ++ source ++ skipn (offset + length source) target.

Definition getImageDataSubsection (imgData : ImageData) (sx sy sw sh : nat)
  : ImageData :=
  let subImgData := newImageData sw sh in
  {| width := sw;
     height := sh;
     data :=
       fold_left
         (fun subData y =>
            let start := rgbaOffset (sx + (sy + y) * width imgData) in
            let length := rgbaOffset sw in
            let offset := rgbaOffset (y * sw) in
            setAt (slice start (start + length) (data imgData)) offset subData)
         (seq 0 sh)
         (data subImgData) |}.

(** The offsets [0, 4, 8, ...] below [dataLength] that the pixel loops visit. *)
Definition pixelCount (dataLength : nat) : nat :=
  (dataLength + (RGBA_BYTES - 1)) / RGBA_BYTES.

Definition pixelOffsets (dataLength : nat) : list nat :=
  map rgbaOffset (seq 0 (pixelCount dataLength)).

Definition imageDataDistance (imgDataA imgDataB : ImageData) : float :=
  fold_left
    (fun distance i =>
       PrimFloat.add distance
         (colorDistance (ColorArray RFresh (slice i (i + 3) (data imgDataA)))
                        (ColorArray RFresh (slice i (i + 3) (data imgDataB)))))
    (pixelOffsets (length (data imgDataA)))
    PrimFloat.zero.

(** [Math.ceil(a / b)] for positive [b]; the loops of splitIntoTiles do not
    end for a tile size of zero. *)
Definition ceilDiv (a b : nat) : nat := (a + (b - 1)) / b.

Record Tile : Type := {
  x : nat;
  y : nat;
  srcPosition : nat * nat * nat * nat;
  srcImgData : ImageData
}.

Definition splitIntoTiles (imgData : ImageData) (tileWidth tileHeight : nat)
  : list Tile :=
  let tilesX := ceilDiv (width imgData) tileWidth in
  let tilesY := ceilDiv (height imgData) tileHeight in
  flat_map
    (fun y =>
       map (fun x =>
              {| x := x;
                 y := y;
                 srcPosition := (x * tileWidth, y * tileHeight, tileWidth, tileHeight);
                 srcImgData :=
                   getImageDataSubsection imgData (x * tileWidth) (y * tileHeight)
                                          tileWidth tileHeight |})
           (seq 0 tilesX))
    (seq 0 tilesY).

(** ** nesify.js: getLocalPalette *)

Record ColorUsed : Type := {
  key : string;
  color : anyColor;
  pixelsUsing : nat
}.

(** [colorUsed.pixelsUsing += 1] *)
Definition countPixel (colorUsed : ColorUsed) : ColorUsed :=
  {| key := key colorUsed;
     color := color colorUsed;
     pixelsUsing := pixelsUsing colorUsed + 1 |}.

(** [call] numbers the call: it names the arrays the call slices out of the
    pixel data, which are new objects in every call. *)
Definition getLocalPalette (call : nat) (imgData : ImageData) : list ColorUsed :=
  let colorsUsedByKey :=
    fold_left
      (fun (colorsUsedByKey : dict ColorUsed) i =>
         let color := ColorArray (RPixel call (i / RGBA_BYTES))
                                 (slice i (i + 3) (data imgData)) in
         let key := colorKey color in
         let colorUsed :=
           match lookup key colorsUsedByKey with
           | Some used => used
           | None => {| key := key; color := color; pixelsUsing := 0 |}
           end in
         assign key (countPixel colorUsed) colorsUsedByKey)
      (pixelOffsets (length (data imgData)))
      [] in
  sortBy (fun a b => comparatorDescending (pixelsUsing a) (pixelsUsing b))
         (values colorsUsedByKey).

(** ** nesify.js: nesify, from the sample tiles to the candidate pool *)

(** A colour of the whole image in [colorsUsedByKey]; [ranking] is set
    once the colours are sorted. *)
Module ColorUsage.
Record t : Type := {
  key : string;
  color : anyColor;
  tilesUsing : nat;
  pixelsUsing : nat;
  ranking : option nat
}.
End ColorUsage.

(** A candidate subpalette in [subpalettesByKey]. *)
Module Subpalette.
Record t : Type := {
  key : string;
  palette : list anyColor;
  tilesUsing : nat
}.
End Subpalette.

(** The options of nesify that decide the candidates; [None] is the
    default [false]. *)
Record Options : Type := {
  backgroundColor : option anyColor;
  customPalette : option string
}.

(** Truthiness of a colour value and of a string. *)
Definition truthy (value : anyColor) : bool :=
  match value with
  | ColorString EmptyString => false
  | ColorNumber 0%Z => false
  | ColorUndefined => false
  | _ => true
  end.

Definition truthyOption (value : option anyColor) : bool :=
  match value with
  | Some v => truthy v
  | None => false
  end.

Definition truthyString (value : option string) : bool :=
  match value with
  | Some EmptyString => false
  | Some _ => true
  | None => false
  end.

(** [string.match(/(.{2})/g)]: the pairs of characters from the left; the
    stripped palette string has no line breaks. *)
Fixpoint pairsOf (s : string) : list string :=
  match s with
  | String a (String b rest) => String a (String b EmptyString) :: pairsOf rest
  | _ => []
  end.

(** [nesPalette[key]] as a colour value. *)
Definition nesPaletteColor (index : string) : anyColor :=
  match lookup index nesPalette with
  | Some hex => ColorString hex
  | None => ColorUndefined
  end.

(** The start offsets [0, chunkSize, 2 * chunkSize, ...] below [total]. *)
Definition chunkOffsets (total chunkSize : nat) : list nat :=
  map (fun n => n * chunkSize) (seq 0 (ceilDiv total chunkSize)).

(** The custom palette branch: the first colour, the colours used and the
    subpalettes, or the TypeError of a palette string without a pair. *)
Definition processCustomPalette (options : Options) (paletteString : string)
  : result (anyColor * dict ColorUsage.t * dict Subpalette.t) :=
  let chunkSize := if truthyOption (backgroundColor options) then 3 else 4 in
  match pairsOf (filterString isHexDigit paletteString) with
  | [] => Throw "TypeError"
  | pairs =>
    let customPaletteColors := map nesPaletteColor pairs in
    let customPaletteLength := length customPaletteColors in
    let sharedBackgroundColor := nth 0 customPaletteColors ColorUndefined in
    let colorsUsedByKey :=
      fold_left
        (fun colorsUsedByKey color =>
           let key := colorKey color in
           assign key
                  {| ColorUsage.key := key; ColorUsage.color := color;
                     ColorUsage.tilesUsing := 0; ColorUsage.pixelsUsing := 0;
                     ColorUsage.ranking := None |}
                  colorsUsedByKey)
        customPaletteColors [] in
    let subpalettesByKey :=
      fold_left
        (fun subpalettesByKey i =>
           let palette := slice i (i + chunkSize) customPaletteColors in
           let palette :=
             match backgroundColor options with
             | Some background =>
               if truthy background then background :: palette else palette
             | None => palette
             end in
           let key := paletteKey palette in
           assign key
                  {| Subpalette.key := key; Subpalette.palette := palette;
                     Subpalette.tilesUsing := 0 |}
                  subpalettesByKey)
        (chunkOffsets customPaletteLength chunkSize) [] in
    Ok (sharedBackgroundColor, colorsUsedByKey, subpalettesByKey)
  end.

(** [colorUsed.tilesUsing += 1; colorUsed.pixelsUsing += paletteColor.pixelsUsing] *)
Definition countTile (colorUsed : ColorUsage.t) (pixels : nat) : ColorUsage.t :=
  {| ColorUsage.key := ColorUsage.key colorUsed;
     ColorUsage.color := ColorUsage.color colorUsed;
     ColorUsage.tilesUsing := ColorUsage.tilesUsing colorUsed + 1;
     ColorUsage.pixelsUsing := ColorUsage.pixelsUsing colorUsed + pixels;
     ColorUsage.ranking := ColorUsage.ranking colorUsed |}.

Definition aggregateColors (localPalette : list ColorUsed)
           (colorsUsedByKey : dict ColorUsage.t) : dict ColorUsage.t :=
  fold_left
    (fun colorsUsedByKey paletteColor =>
       let colorUsed :=
         match lookup (key paletteColor) colorsUsedByKey with
         | Some used => used
         | None =>
           {| ColorUsage.key := key paletteColor;
              ColorUsage.color := color paletteColor;
              ColorUsage.tilesUsing := 0; ColorUsage.pixelsUsing := 0;
              ColorUsage.ranking := None |}
         end in
       assign (key paletteColor) (countTile colorUsed (pixelsUsing paletteColor))
              colorsUsedByKey)
    localPalette colorsUsedByKey.

(** [subpalette.tilesUsing += n] *)
Definition addTiles (subpalette : Subpalette.t) (n : nat) : Subpalette.t :=
  {| Subpalette.key := Subpalette.key subpalette;
     Subpalette.palette := Subpalette.palette subpalette;
     Subpalette.tilesUsing := Subpalette.tilesUsing subpalette + n |}.

Definition aggregateOptions (paletteOptions : list (list anyColor))
           (subpalettesByKey : dict Subpalette.t) : dict Subpalette.t :=
  fold_left
    (fun subpalettesByKey paletteOption =>
       let key := paletteKey paletteOption in
       let subpalette :=
         match lookup key subpalettesByKey with
         | Some found => found
         | None =>
           {| Subpalette.key := key; Subpalette.palette := paletteOption;
              Subpalette.tilesUsing := 0 |}
         end in
       assign key (addTiles subpalette 1) subpalettesByKey)
    paletteOptions subpalettesByKey.

(** The sample tile branch.  [sampleTiles] are the pieces of the dithered
    canvas that [ctx.getImageData(...tile.srcPosition)] hands out, one for
    each tile of [splitIntoTiles(srcImgData, tileSampleWidth,
    tileSampleHeight)] and in that order. *)
Definition processSampleTiles (sampleTiles : list ImageData)
  : dict ColorUsage.t * dict Subpalette.t :=
  fold_left
    (fun '(colorsUsedByKey, subpalettesByKey) '(ditheredImgData, call) =>
       let localPalette := getLocalPalette call ditheredImgData in
       let palette := map color localPalette in
       let paletteOptions := enumeratePaletteOptions palette COLORS_PER_SUBPALETTE in
       (aggregateColors localPalette colorsUsedByKey,
        aggregateOptions paletteOptions subpalettesByKey))
    (indexed sampleTiles) ([], []).

(** [comparatorDescending(...) || comparatorDescending(...)] *)
Definition orElseCompare (first second : Z) : Z :=
  if (first =? 0)%Z then second else first.

(** The colours sorted by use, each with its rank. *)
Definition rankColors (colorsUsedByKey : dict ColorUsage.t) : list ColorUsage.t :=
  map (fun '(colorUsed, ranking) =>
         {| ColorUsage.key := ColorUsage.key colorUsed;
            ColorUsage.color := ColorUsage.color colorUsed;
            ColorUsage.tilesUsing := ColorUsage.tilesUsing colorUsed;
            ColorUsage.pixelsUsing := ColorUsage.pixelsUsing colorUsed;
            ColorUsage.ranking := Some ranking |})
      (indexed
         (sortBy (fun a b =>
                    orElseCompare
                      (comparatorDescending (ColorUsage.pixelsUsing a)
                                            (ColorUsage.pixelsUsing b))
                      (comparatorDescending (ColorUsage.tilesUsing a)
                                            (ColorUsage.tilesUsing b)))
                 (values colorsUsedByKey))).

(** "Pick a background color" *)
Definition selectBackground (options : Options) (sharedBackgroundColor : anyColor)
           (colorsUsed : list ColorUsage.t) : result anyColor :=
  match backgroundColor options with
  | Some background => Ok (normalizeColor background)
  | None =>
    if negb (truthy sharedBackgroundColor) then
      match colorsUsed with
      | mostUsed :: _ => Ok (ColorUsage.color mostUsed)
      | [] => Throw "TypeError"
      end
    else Ok sharedBackgroundColor
  end.

(** [array.indexOf(value) < 0] *)
Definition lacks (array : list anyColor) (value : anyColor) : bool :=
  negb (existsb (fun element => strictEqColor element value) array).

(** [a.color] of a colour array: arrays have no such property. *)
Definition colorProperty (value : anyColor) : unit := tt.

#[export] Instance JsOrd_undefined : JsOrd unit :=
  {| strictEq := fun _ _ => true; lessThan := fun _ _ => false |}.

(** One round of "Ensure that all subpalettes contain the background
    color", for the key [key] of the snapshot [Object.keys] took. *)
Definition repairSubpalette (sharedBackgroundColor : anyColor)
           (subpalettesByKey : dict Subpalette.t) (key : string)
  : result (dict Subpalette.t) :=
  match lookup key subpalettesByKey with
  | None => Throw "TypeError"
  | Some subpalette =>
    if (length (Subpalette.palette subpalette) <? COLORS_PER_SUBPALETTE)
       && lacks (Subpalette.palette subpalette) sharedBackgroundColor
    then
      let palette :=
        sortBy (fun a b => comparatorAscending (colorProperty a) (colorProperty b))
               (Subpalette.palette subpalette ++ [sharedBackgroundColor]) in
      let subpalette :=
        {| Subpalette.key := Subpalette.key subpalette;
           Subpalette.palette := palette;
           Subpalette.tilesUsing := Subpalette.tilesUsing subpalette |} in
      let newKey := paletteKey palette in
      let subpalettesByKey :=
        match lookup newKey subpalettesByKey with
        | Some existing =>
          assign newKey (addTiles existing (Subpalette.tilesUsing subpalette))
                 subpalettesByKey
        | None => assign newKey subpalette subpalettesByKey
        end in
      Ok (delete key subpalettesByKey)
    else Ok subpalettesByKey
  end.

Definition repairSubpalettes (sharedBackgroundColor : anyColor)
           (subpalettesByKey : dict Subpalette.t) : result (dict Subpalette.t) :=
  fold_left
    (fun repaired key =>
       subpalettesByKey <- repaired ;;
       repairSubpalette sharedBackgroundColor subpalettesByKey key)
    (keys subpalettesByKey)
    (Ok subpalettesByKey).

(** The test of the filter: some colour of the palette has the hex of the
    background colour. *)
Definition hasBackgroundColor (sharedBackgroundColor : anyColor)
           (subpalette : Subpalette.t) : bool :=
  fold_left
    (fun hasBackgroundColor color =>
       hasBackgroundColor
       || String.eqb (normalizeColorHex sharedBackgroundColor) (normalizeColorHex color))
    (Subpalette.palette subpalette) false.

(** The run up to the background colour. *)
Definition resolveBackground (options : Options) (sampleTiles : list ImageData)
  : result (anyColor * dict Subpalette.t) :=
  '(sharedBackgroundColor, colorsUsedByKey, subpalettesByKey) <-
    (match customPalette options with
     | Some paletteString =>
       if truthyString (customPalette options)
       then processCustomPalette options paletteString
       else let '(colors, subpalettes) := processSampleTiles sampleTiles in
            Ok (ColorUndefined, colors, subpalettes)
     | None => let '(colors, subpalettes) := processSampleTiles sampleTiles in
               Ok (ColorUndefined, colors, subpalettes)
     end) ;;
  let colorsUsed := rankColors colorsUsedByKey in
  sharedBackgroundColor <- selectBackground options sharedBackgroundColor colorsUsed ;;
  Ok (sharedBackgroundColor, subpalettesByKey).

(** The run up to the subpalettes that pass the filter. *)
Definition candidateSubpalettes (options : Options) (sampleTiles : list ImageData)
  : result (anyColor * list Subpalette.t) :=
  '(sharedBackgroundColor, subpalettesByKey) <- resolveBackground options sampleTiles ;;
  subpalettesByKey <-
    (if negb (truthyString (customPalette options))
     then repairSubpalettes sharedBackgroundColor subpalettesByKey
     else Ok subpalettesByKey) ;;
  let subpalettes := values subpalettesByKey in
  let subpalettes := filter (hasBackgroundColor sharedBackgroundColor) subpalettes in
  if length subpalettes =? 0
  then Throw "No color palettes have the background color!"
  else Ok (sharedBackgroundColor, subpalettes).

(** ** nesify.js: nesify, from the candidate pool to the tiles

    Three things are outside the program: DitherJS, the order in which
    [sort] leaves an array under the random comparator of "Rank and filter
    subpalettes", and the order in which it leaves a palette under
    [paletteSorter], which puts the background colour first whichever side
    it is on and so is no consistent comparator.  They are parameters. *)

Section Assignment.

(** [ditherjs.ditherImageData]: what it leaves in the image data it is
    handed, for the fixed [ditherOptions] of the run. *)
Variable ditherjs : ImageData -> list anyColor -> ImageData.

(** [subpalettes.sort(() => Math.round(Math.random() * 2) - 1)] *)
Variable shuffle : list Subpalette.t -> list Subpalette.t.

(** [palette.sort(createPaletteSorter(sharedBackgroundColor))] *)
Variable sortPalette : anyColor -> list anyColor -> list anyColor.

(** The image is copied into a fresh buffer of its dimensions and dithered
    there. *)
Definition ditherImageData (imgData : ImageData) (palette : list anyColor)
  : ImageData :=
  let ditheredImgData := newImageData (width imgData) (height imgData) in
  ditherjs {| width := width ditheredImgData; height := height ditheredImgData;
              data := setAt (data imgData) 0 (data ditheredImgData) |}
           (normalizeDitherPalette palette).

(** The subpalettes the tiles choose from. *)
Definition candidatePool (options : Options) (sampleTiles : list ImageData)
  : result (anyColor * list Subpalette.t) :=
  '(sharedBackgroundColor, subpalettes) <- candidateSubpalettes options sampleTiles ;;
  Ok (sharedBackgroundColor,
      sliceTo (SUBPALETTES_PER_IMAGE * 8) (shuffle subpalettes)).

(** An element of [tileImgDataOptions]; [index] is the place of the
    subpalette object in [subpalettes]. *)
Record TileOption : Type := {
  distance : float;
  index : nat;
  subpalette : Subpalette.t;
  subpaletteImgData : ImageData
}.

Definition tileImgDataOptions (globalPalette : list anyColor)
           (subpalettes : list Subpalette.t) (tile : Tile) : list TileOption :=
  let tileImgData := ditherImageData (srcImgData tile) globalPalette in
  sortBy (fun a b => comparatorAscending (distance a) (distance b))
         (map (fun '(subpalette, index) =>
                 let subpaletteImgData :=
                   ditherImageData (srcImgData tile) (Subpalette.palette subpalette) in
                 {| distance := imageDataDistance tileImgData subpaletteImgData;
                    index := index;
                    subpalette := subpalette;
                    subpaletteImgData := subpaletteImgData |})
              (indexed subpalettes)).

(** [array[i] = value] for [i] in range. *)
Fixpoint setNth {A} (i : nat) (value : A) (array : list A) : list A :=
  match array, i with
  | [], _ => []
  | _ :: rest, 0 => value :: rest
  | first :: rest, S i' => first :: setNth i' value rest
  end.

(** What the loop does for one tile: the option chosen, and the
    subpalettes afterwards, the palette of the chosen one sorted in
    place. *)
Definition assignTile (sharedBackgroundColor : anyColor)
           (globalPalette : list anyColor)
           (subpalettes : list Subpalette.t) (tile : Tile)
  : result (TileOption * list Subpalette.t) :=
  match tileImgDataOptions globalPalette subpalettes tile with
  | [] => Throw "TypeError"
  | best :: _ =>
    let sorted :=
      {| Subpalette.key := Subpalette.key (subpalette best);
         Subpalette.palette :=
           sortPalette sharedBackgroundColor (Subpalette.palette (subpalette best));
         Subpalette.tilesUsing := Subpalette.tilesUsing (subpalette best) |} in
    Ok (best, setNth (index best) sorted subpalettes)
  end.

(** [tiles.forEach(...)]: for every tile, the subpalettes as the tile found
    them and the option it chose. *)
Fixpoint assignTiles (sharedBackgroundColor : anyColor)
         (globalPalette : list anyColor)
         (subpalettes : list Subpalette.t) (tiles : list Tile)
  : result (list (Tile * list Subpalette.t * TileOption)) :=
  match tiles with
  | [] => Ok []
  | tile :: tiles' =>
    '(best, subpalettes') <-
      assignTile sharedBackgroundColor globalPalette subpalettes tile ;;
    assigned <- assignTiles sharedBackgroundColor globalPalette subpalettes' tiles' ;;
    Ok ((tile, subpalettes, best) :: assigned)
  end.

End Assignment.

(** The distance the specification describes: the Euclidean distance of
    two colours in RGB space, all three channels taking part. *)
Definition euclideanDistance (a b : anyColor) : float :=
  let colorA := channels a in
  let colorB := channels b in
  PrimFloat.sqrt
    (PrimFloat.add
       (PrimFloat.add
          (square (PrimFloat.sub (operand colorA 0) (operand colorB 0)))
          (square (PrimFloat.sub (operand colorA 1) (operand colorB 1))))
       (square (PrimFloat.sub (operand colorA 2) (operand colorB 2)))).

(** ** nesPalette.js: nesColors *)

(** [Object.keys(nesPaletteInverted).sort(...)]: the comparator looks at
    [a !== '#000000'] only, which puts black in front. *)
Definition nesColors : list string :=
  sortBy (fun a b => comparatorAscending (negb (String.eqb a "#000000"))
                                         (negb (String.eqb b "#000000")))
         (keys nesPaletteInverted).

(** ** nesify.js: createPaletteSorter *)

(** [===] and [<] on what [parseInt] returns.  [NotInt] compares as [NaN]
    does: the strings parsed here are palette indices of two digits, which
    are far from an infinity. *)
#[export] Instance JsOrd_number : JsOrd number :=
  {| strictEq := fun a b => match a, b with
                            | Int v, Int w => Z.eqb v w
                            | _, _ => false
                            end;
     lessThan := fun a b => match a, b with
                            | Int v, Int w => Z.ltb v w
                            | _, _ => false
                            end |}.

(** The comparator createPaletteSorter returns, applied to [a] and [b];
    nesColorMatch is memoized, so the cache goes in and comes out. *)
Definition createPaletteSorter (backgroundColor : anyColor) (cache : MemoCache)
           (a b : anyColor) : result Z * MemoCache :=
  if strictEqColor a backgroundColor then (Ok SORT_A_FIRST, cache)
  else if strictEqColor b backgroundColor then (Ok SORT_B_FIRST, cache)
  else
    match nesColorMatch cache a with
    | (Throw message, cache) => (Throw message, cache)
    | (Ok indexA, cache) =>
      match nesColorMatch cache b with
      | (Throw message, cache) => (Throw message, cache)
      | (Ok indexB, cache) =>
        (Ok (comparatorAscending (parseIntHex indexA) (parseIntHex indexB)), cache)
      end
    end.

(** ** nesify.js: canvasImage *)




(* ================================================================== *)
(** * Part II: properties                                              *)
(* ================================================================== *)

(** ** Lists *)

Lemma fold_left_push {A B} (g : list B -> A -> list B) (f : A -> list B)
      (l : list A) (acc : list B) :
  (forall acc x, g acc x = acc ++ f x) ->
  fold_left g l acc = acc ++ flat_map f l.
Proof.
  intros Hg. revert acc; induction l as [|x l IH]; intros acc; simpl.
  - now rewrite app_nil_r.
  - rewrite IH, Hg. now rewrite app_assoc.
Qed.

Lemma indexed_from {A} (l : list A) (start : nat) :
  combine l (seq start (length l))
  = map (fun '(x, i) => (x, i + start)) (indexed l).
Proof.
  unfold indexed. revert start; induction l as [|x l IH]; intros start; simpl.
  - reflexivity.
  - f_equal. rewrite (IH (S start)), (IH 1), map_map.
    apply map_ext. intros [y i]. f_equal. lia.
Qed.

(** ** Binomial coefficients *)

Lemma binomial_gt n k : n < k -> binomial n k = 0.
Proof.
  revert k; induction n as [|n IH]; intros [|k] H; simpl; try lia.
  rewrite !IH by lia. reflexivity.
Qed.

Lemma binomial_diag n : binomial n n = 1.
Proof.
  induction n as [|n IH]; simpl; [reflexivity|].
  rewrite IH, binomial_gt by lia. reflexivity.
Qed.

Lemma binomial_one n : binomial n 1 = n.
Proof. induction n as [|n IH]; simpl; [reflexivity|]. rewrite IH. destruct n; reflexivity. Qed.

Lemma pascal_fact a b fk fm fn k m :
  a * (fk * (S m * fm)) = fn -> b * (S k * fk * fm) = fn ->
  (a + b) * (S k * fk * (S m * fm)) = (S k + S m) * fn.
Proof.
  intros H1 H2.
  replace ((a + b) * (S k * fk * (S m * fm)))
    with (S k * (a * (fk * (S m * fm))) + S m * (b * (S k * fk * fm))) by ring.
  rewrite H1, H2. ring.
Qed.

(** The closed form: [C(n,k) * k! * (n-k)! = n!]. *)
Lemma binomial_fact n k :
  k <= n -> binomial n k * (fact k * fact (n - k)) = fact n.
Proof.
  revert k; induction n as [|n IH]; intros [|k] H; try lia.
  - reflexivity.
  - cbn [binomial]. rewrite Nat.sub_0_r. cbn [fact]. lia.
  - cbn [binomial]. replace (S n - S k) with (n - k) by lia.
    destruct (Nat.eq_dec k n) as [->|Hne].
    + rewrite binomial_diag, binomial_gt, Nat.sub_diag by lia. cbn [fact]. lia.
    + assert (H1 := IH k ltac:(lia)). assert (H2 := IH (S k) ltac:(lia)).
      remember (n - S k) as m eqn:Hm.
      replace (n - k) with (S m) in * by lia.
      change (fact (S n)) with (S n * fact n).
      replace (S n) with (S k + S m) by lia.
      change (fact (S k)) with (S k * fact k) in *.
      change (fact (S m)) with (S m * fact m) in *.
      now apply pascal_fact.
Qed.

(** ** Subsequences and combinations *)

Lemma Subseq_nil_l {A} (l : list A) : Subseq [] l.
Proof. induction l; constructor; assumption. Qed.

Lemma Subseq_refl {A} (l : list A) : Subseq l l.
Proof. induction l; constructor; assumption. Qed.

Lemma Subseq_In {A} (s l : list A) x : Subseq s l -> In x s -> In x l.
Proof.
  induction 1 as [|y s l _ IH|y s l _ IH]; simpl; intros Hin; auto.
  destruct Hin; auto.
Qed.

Lemma Subseq_length {A} (s l : list A) : Subseq s l -> length s <= length l.
Proof. induction 1; simpl; lia. Qed.

Lemma Subseq_length_eq {A} (s l : list A) :
  Subseq s l -> length s = length l -> s = l.
Proof.
  induction 1 as [|y s l Hs IH|y s l Hs IH]; simpl; intros Hlen.
  - reflexivity.
  - apply Subseq_length in Hs. lia.
  - f_equal. apply IH. lia.
Qed.

Lemma combinations_short {A} (l : list A) k :
  length l < k -> combinations l k = [].
Proof.
  revert k; induction l as [|x t IH]; intros [|k] H; simpl in *; try lia.
  - reflexivity.
  - rewrite !IH by lia. reflexivity.
Qed.

Lemma combinations_all {A} (l : list A) : combinations l (length l) = [l].
Proof.
  induction l as [|x t IH]; simpl; [reflexivity|].
  rewrite IH, combinations_short by lia. reflexivity.
Qed.

Lemma combinations_one {A} (l : list A) :
  combinations l 1 = map (fun color => [color]) l.
Proof.
  induction l as [|x t IH]; [reflexivity|].
  change (combinations (x :: t) 1)
    with (map (cons x) (combinations t 0) ++ combinations t 1).
  rewrite IH. destruct t; reflexivity.
Qed.

Lemma combinations_length {A} (l : list A) k :
  length (combinations l k) = binomial (length l) k.
Proof.
  revert k; induction l as [|x t IH]; intros [|k]; simpl; try reflexivity.
  rewrite length_app, length_map, !IH. reflexivity.
Qed.

Lemma combinations_sound {A} (l : list A) k o :
  In o (combinations l k) -> Subseq o l /\ length o = k.
Proof.
  revert k o; induction l as [|x t IH]; intros [|k] o; simpl.
  - intros [<-|[]]. split; [constructor|reflexivity].
  - intros [].
  - intros [<-|[]]. split; [apply Subseq_nil_l|reflexivity].
  - rewrite in_app_iff, in_map_iff. intros [[o' [<- Hin]]|Hin].
    + apply IH in Hin as [Hs Hl]. split; [now constructor|simpl; lia].
    + apply IH in Hin as [Hs Hl]. split; [now constructor|assumption].
Qed.

Lemma combinations_complete {A} (l : list A) o :
  Subseq o l -> In o (combinations l (length o)).
Proof.
  induction 1 as [|x s l Hs IH|x s l Hs IH]; simpl.
  - now left.
  - destruct s as [|y s]; simpl in *; [now left|].
    apply in_or_app. now right.
  - apply in_or_app. left. now apply in_map.
Qed.

Lemma NoDup_map_injective {A B} (f : A -> B) (l : list A) :
  (forall a b, f a = f b -> a = b) -> NoDup l -> NoDup (map f l).
Proof.
  intros Hinj; induction 1 as [|x l Hx _ IH]; simpl; constructor; auto.
  intros Hin. apply in_map_iff in Hin as [y [Heq Hy]].
  apply Hinj in Heq. now subst.
Qed.

Lemma combinations_NoDup {A} (l : list A) k :
  NoDup l -> NoDup (combinations l k).
Proof.
  intros Hnd; revert k; induction Hnd as [|x t Hx Hnd IH]; intros [|k]; simpl.
  - repeat constructor; intros [].
  - constructor.
  - repeat constructor; intros [].
  - apply NoDup_app.
    + apply NoDup_map_injective; [|apply IH].
      intros a b Heq. now inversion Heq.
    + apply IH.
    + intros o Hin1 Hin2. apply in_map_iff in Hin1 as [o' [<- _]].
      apply combinations_sound in Hin2 as [Hs _].
      apply Hx. eapply Subseq_In; [exact Hs|now left].
Qed.

(** ** enumeratePaletteOptions produces the combinations *)

(** The [reduce] of the general case, unrolled along the palette. *)
Lemma enumerate_reduce {A} (f : list A -> list (list A)) (palette : list A) (take : nat) :
  fold_left
    (fun subpalettes '(firstColor, i) =>
       subpalettes ++ map (fun restColors => firstColor :: restColors)
                          (f (sliceFrom (i + 1) palette)))
    (indexed (sliceTo take palette)) []
  = flat_map (fun '(firstColor, i) =>
                map (cons firstColor) (f (sliceFrom (i + 1) palette)))
             (indexed (sliceTo take palette)).
Proof.
  rewrite fold_left_push
    with (f := fun '(firstColor, i) =>
                 map (cons firstColor) (f (sliceFrom (i + 1) palette))).
  - reflexivity.
  - intros acc [firstColor i]. reflexivity.
Qed.

Lemma flat_map_ext_In {A B} (f g : A -> list B) (l : list A) :
  (forall x, In x l -> f x = g x) -> flat_map f l = flat_map g l.
Proof.
  induction l as [|x l IH]; simpl; intros H; [reflexivity|].
  rewrite H by now left. f_equal. apply IH. intros y Hy. apply H. now right.
Qed.

Lemma in_indexed {A} (l : list A) x i :
  In (x, i) (indexed l) -> i < length l.
Proof.
  unfold indexed. intros Hin. apply in_combine_r in Hin.
  apply in_seq in Hin. lia.
Qed.

Lemma in_indexed_l {A} (l : list A) x i : In (x, i) (indexed l) -> In x l.
Proof. unfold indexed. apply in_combine_l. Qed.

Lemma indexed_cons {A} (x : A) (l : list A) :
  indexed (x :: l) = (x, 0) :: map (fun '(y, i) => (y, i + 1)) (indexed l).
Proof.
  unfold indexed at 1. simpl. f_equal. apply indexed_from.
Qed.

(** Choosing the first colour among the first [n - k'] positions and the
    other [k'] colours after it yields every [S k']-combination once. *)
Lemma first_color_split {A} (l : list A) (k' : nat) :
  flat_map (fun '(firstColor, i) =>
              map (cons firstColor) (combinations (sliceFrom (i + 1) l) k'))
           (indexed (sliceTo (length l - k') l))
  = combinations l (S k').
Proof.
  induction l as [|x t IH].
  - reflexivity.
  - destruct (Nat.le_gt_cases (length (x :: t)) k') as [Hle|Hgt].
    + replace (length (x :: t) - k') with 0 by lia.
      rewrite combinations_short by lia. reflexivity.
    + simpl length in *. replace (S (length t) - k') with (S (length t - k')) by lia.
      unfold sliceTo in *. cbn [firstn]. rewrite indexed_cons. cbn [flat_map].
      change (combinations (x :: t) (S k'))
        with (map (cons x) (combinations t k') ++ combinations t (S k')).
      f_equal. rewrite <- IH, flat_map_concat_map, map_map, <- flat_map_concat_map.
      apply flat_map_ext. intros [y i]. unfold sliceFrom.
      replace (i + 1 + 1) with (S (i + 1)) by lia. reflexivity.
Qed.

Lemma enumeratePaletteOptions_general {A} (palette : list A) (k'' : nat) :
  enumeratePaletteOptions palette (S (S k''))
  = if length palette <=? S (S k'') then [palette]
    else
      fold_left
        (fun subpalettes '(firstColor, i) =>
           subpalettes ++ map (fun restColors => firstColor :: restColors)
                              (enumeratePaletteOptions (sliceFrom (i + 1) palette) (S k'')))
        (indexed (sliceTo ((length palette + 1) - S (S k'')) palette)) [].
Proof. reflexivity. Qed.

Lemma enumeratePaletteOptions_combinations {A} (k : nat) (palette : list A) :
  1 <= k <= length palette ->
  enumeratePaletteOptions palette k = combinations palette k.
Proof.
  revert palette; induction k as [|k' IH]; intros palette Hk; [lia|].
  destruct k' as [|k''].
  - symmetry. apply combinations_one.
  - rewrite enumeratePaletteOptions_general.
    destruct (length palette <=? S (S k'')) eqn:Hlen.
    + apply Nat.leb_le in Hlen.
      replace (S (S k'')) with (length palette) by lia.
      symmetry. apply combinations_all.
    + apply Nat.leb_gt in Hlen.
      rewrite (enumerate_reduce (fun rest => enumeratePaletteOptions rest (S k''))).
      replace (length palette + 1 - S (S k'')) with (length palette - S k'') by lia.
      rewrite <- first_color_split.
      apply flat_map_ext_In. intros [firstColor i] Hin.
      apply in_indexed in Hin. unfold sliceTo in Hin.
      rewrite length_firstn in Hin.
      rewrite IH; [reflexivity|].
      unfold sliceFrom. rewrite length_skipn. lia.
Qed.

(** ** C3: what enumeratePaletteOptions produces *)

(** The second clause of C3 read for every target size: a palette with
    fewer colours than the target yields the full palette as only option. *)
Definition short_palette_yields_full_set : Prop :=
  forall (palette : list nat) (k : nat),
    length palette < k -> enumeratePaletteOptions palette k = [palette].

(** C3, counterexample: with target size 1 the [maxColors === 1] branch is
    taken before the length test, so the empty palette yields no option at
    all rather than the (empty) full set. *)
Lemma enumeratePaletteOptions_empty_palette_one :
  enumeratePaletteOptions (@nil nat) 1 = [] /\ ~ short_palette_yields_full_set.
Proof.
  split; [reflexivity|].
  intros H. specialize (H [] 1 ltac:(simpl; lia)). discriminate H.
Qed.

(** C3, amended: for a palette of [n] distinct colours and [1 <= k <= n],
    enumeratePaletteOptions yields exactly [C(n,k)] options, pairwise
    distinct, which are exactly the [k]-element subsequences of the palette
    (so each keeps the palette's order); for a palette with fewer than [k]
    colours and [k >= 2] the full palette is the only option. *)
Theorem enumeratePaletteOptions_spec {A} (palette : list A) (k : nat) :
  NoDup palette ->
  (1 <= k <= length palette ->
     length (enumeratePaletteOptions palette k) = binomial (length palette) k
     /\ NoDup (enumeratePaletteOptions palette k)
     /\ (forall option,
           In option (enumeratePaletteOptions palette k)
           <-> Subseq option palette /\ length option = k))
  /\ (length palette < k -> 2 <= k ->
        enumeratePaletteOptions palette k = [palette]).
Proof.
  intros Hnd. split.
  - intros Hk. rewrite enumeratePaletteOptions_combinations by assumption.
    split; [apply combinations_length|].
    split; [now apply combinations_NoDup|].
    intros option. split.
    + apply combinations_sound.
    + intros [Hs <-]. now apply combinations_complete.
  - intros Hlt Hk. destruct k as [|[|k'']]; try lia.
    rewrite enumeratePaletteOptions_general.
    destruct (length palette <=? S (S k'')) eqn:Hlen; [reflexivity|].
    apply Nat.leb_gt in Hlen. lia.
Qed.

Lemma NoDup_five : NoDup [1; 2; 3; 4; 5].
Proof. repeat constructor; simpl; intuition discriminate. Qed.

(** The scenario of the specification: five colours, four per subpalette. *)
Lemma enumeratePaletteOptions_spec_witness :
  length (enumeratePaletteOptions [1; 2; 3; 4; 5] 4) = binomial 5 4
  /\ enumeratePaletteOptions [1; 2] 4 = [[1; 2]].
Proof.
  split.
  - destruct (@enumeratePaletteOptions_spec nat [1; 2; 3; 4; 5] 4 NoDup_five)
      as [H _].
    destruct (H ltac:(simpl; lia)) as [Hlen _]. exact Hlen.
  - assert (Hnd : NoDup [1; 2]) by (repeat constructor; simpl; intuition discriminate).
    destruct (@enumeratePaletteOptions_spec nat [1; 2] 4 Hnd) as [_ H].
    apply H; simpl; lia.
Defined.

(** ** Sorting keeps the elements *)

Lemma insertBy_Permutation {A} (cmp : A -> A -> Z) (a : A) (l : list A) :
  Permutation (insertBy cmp a l) (a :: l).
Proof.
  induction l as [|b l IH]; simpl; [reflexivity|].
  destruct (0 <? cmp a b)%Z; [|reflexivity].
  rewrite IH. apply perm_swap.
Qed.

Lemma sortBy_Permutation {A} (cmp : A -> A -> Z) (l : list A) :
  Permutation (sortBy cmp l) l.
Proof.
  induction l as [|a l IH]; simpl; [reflexivity|].
  rewrite insertBy_Permutation. now constructor.
Qed.

Lemma sortBy_length {A} (cmp : A -> A -> Z) (l : list A) :
  length (sortBy cmp l) = length l.
Proof. apply Permutation_length, sortBy_Permutation. Qed.

Lemma list_sum_Permutation (l l' : list nat) :
  Permutation l l' -> list_sum l = list_sum l'.
Proof. induction 1; simpl; lia. Qed.

(** ** Dictionaries *)

Section Dict.
Context {V : Type}.
Implicit Types (o : dict V) (k : string) (v : V).

Lemma lookup_In k v o : lookup k o = Some v -> In (k, v) o.
Proof.
  induction o as [|[k' w] o IH]; simpl; [discriminate|].
  destruct (String.eqb_spec k' k) as [->|Hne].
  - intros [= ->]. now left.
  - intros H. right. now apply IH.
Qed.

Lemma lookup_None k o : lookup k o = None <-> ~ In k (keys o).
Proof.
  induction o as [|[k' w] o IH]; simpl; [tauto|].
  destruct (String.eqb_spec k' k) as [->|Hne].
  - split; [discriminate|]. intros H. exfalso. apply H. now left.
  - rewrite IH. tauto.
Qed.

Lemma In_lookup k v o : NoDup (keys o) -> In (k, v) o -> lookup k o = Some v.
Proof.
  induction o as [|[k' w] o IH]; simpl; [tauto|].
  intros Hnd [Heq|Hin].
  - inversion Heq; subst. now rewrite String.eqb_refl.
  - inversion Hnd as [|? ? Hk' Hnd']; subst.
    destruct (String.eqb_spec k' k) as [->|Hne].
    + exfalso. apply Hk'. change k with (fst (k, v)). now apply in_map.
    + now apply IH.
Qed.

Lemma keys_assign k v o :
  keys (assign k v o) = if hasKey k o then keys o else keys o ++ [k].
Proof.
  unfold hasKey. induction o as [|[k' w] o IH]; simpl; [reflexivity|].
  destruct (String.eqb_spec k' k) as [->|Hne]; simpl; [reflexivity|].
  rewrite IH. now destruct (lookup k o).
Qed.

Lemma assign_NoDup k v o : NoDup (keys o) -> NoDup (keys (assign k v o)).
Proof.
  intros Hnd. rewrite keys_assign. unfold hasKey.
  destruct (lookup k o) eqn:Hl; [assumption|].
  apply lookup_None in Hl.
  apply NoDup_app; [assumption|repeat constructor; intros []|].
  intros a Ha [<-|[]]. contradiction.
Qed.

Lemma lookup_assign k k' v o :
  lookup k' (assign k v o) = if String.eqb k k' then Some v else lookup k' o.
Proof.
  induction o as [|[k0 w] o IH]; simpl.
  - reflexivity.
  - destruct (String.eqb_spec k0 k) as [->|Hne]; simpl.
    + destruct (String.eqb_spec k k'); reflexivity.
    + rewrite IH. destruct (String.eqb_spec k0 k') as [->|Hne'].
      * destruct (String.eqb_spec k k'); [congruence|reflexivity].
      * reflexivity.
Qed.

(** Summing a measure over the values: [assign] swaps one summand. *)
Lemma sum_assign (f : V -> nat) k v o :
  list_sum (map f (values (assign k v o))) + match lookup k o with
                                              | Some w => f w
                                              | None => 0
                                              end
  = list_sum (map f (values o)) + f v.
Proof.
  induction o as [|[k0 w] o IH]; simpl; [lia|].
  destruct (String.eqb_spec k0 k) as [->|Hne]; simpl; lia.
Qed.
End Dict.

(** ** C10: getLocalPalette *)

Lemma pixelCount_exact n : pixelCount (rgbaOffset n) = n.
Proof.
  unfold pixelCount, rgbaOffset, RGBA_BYTES.
  replace (n * 4 + (4 - 1)) with (3 + n * 4) by lia.
  rewrite Nat.div_add by lia. reflexivity.
Qed.

(** What the pixel loop maintains: the keys are distinct, every record sits
    under its own key, and the counts add up to the pixels seen so far. *)
Definition countsPixels (colorsUsedByKey : dict ColorUsed) (seen : nat) : Prop :=
  NoDup (keys colorsUsedByKey)
  /\ Forall (fun kv => key (snd kv) = fst kv) colorsUsedByKey
  /\ list_sum (map pixelsUsing (values colorsUsedByKey)) = seen.

Lemma Forall_assign {V} (P : string * V -> Prop) k v (o : dict V) :
  P (k, v) -> Forall P o -> Forall P (assign k v o).
Proof.
  intros Hk. induction 1 as [|[k0 w] o Hw Ho IH]; simpl.
  - now constructor.
  - destruct (String.eqb_spec k0 k) as [->|Hne]; constructor; auto.
Qed.

Lemma countsPixels_step m seen (newColor : anyColor) :
  countsPixels m seen ->
  let k := colorKey newColor in
  let colorUsed := match lookup k m with
                   | Some used => used
                   | None => {| key := k; color := newColor; pixelsUsing := 0 |}
                   end in
  countsPixels (assign k (countPixel colorUsed) m) (seen + 1).
Proof.
  intros (Hnd & Hkeys & Hsum) k colorUsed. split; [|split].
  - now apply assign_NoDup.
  - apply Forall_assign; [|assumption]. simpl. subst colorUsed.
    destruct (lookup k m) as [used|] eqn:Hl; [|reflexivity].
    apply lookup_In in Hl. rewrite Forall_forall in Hkeys.
    apply (Hkeys _ Hl).
  - pose proof (sum_assign pixelsUsing k (countPixel colorUsed) m) as H.
    subst colorUsed. destruct (lookup k m) as [used|]; simpl in *; lia.
Qed.

Lemma getLocalPalette_loop call (pixels : list Z) (offsets : list nat) m seen :
  countsPixels m seen ->
  countsPixels
    (fold_left
       (fun (colorsUsedByKey : dict ColorUsed) i =>
          let color := ColorArray (RPixel call (i / RGBA_BYTES))
                                  (slice i (i + 3) pixels) in
          let key := colorKey color in
          let colorUsed :=
            match lookup key colorsUsedByKey with
            | Some used => used
            | None => {| key := key; color := color; pixelsUsing := 0 |}
            end in
          assign key (countPixel colorUsed) colorsUsedByKey)
       offsets m)
    (seen + length offsets).
Proof.
  revert m seen; induction offsets as [|i offsets IH]; intros m seen Hinv; simpl.
  - now rewrite Nat.add_0_r.
  - replace (seen + S (length offsets)) with (seen + 1 + length offsets) by lia.
    apply IH. now apply countsPixels_step.
Qed.

(** C10: the records getLocalPalette returns for an image data buffer have
    pairwise distinct colour keys, and their pixelsUsing counts add up to
    the number of pixels of the buffer, its data length divided by 4. *)
Theorem getLocalPalette_counts (call : nat) (imgData : ImageData) :
  length (data imgData) = rgbaOffset (width imgData * height imgData) ->
  NoDup (map key (getLocalPalette call imgData))
  /\ list_sum (map pixelsUsing (getLocalPalette call imgData))
     = length (data imgData) / RGBA_BYTES.
Proof.
  intros Hwf. unfold getLocalPalette.
  set (m := fold_left _ _ _).
  assert (Hinv : countsPixels m (pixelCount (length (data imgData)))).
  { subst m.
    replace (pixelCount (length (data imgData)))
      with (0 + length (pixelOffsets (length (data imgData))))
      by (unfold pixelOffsets; now rewrite length_map, length_seq).
    apply getLocalPalette_loop. repeat split; constructor. }
  destruct Hinv as (Hnd & Hkeys & Hsum).
  set (cmp := fun a b : ColorUsed => _).
  split.
  - apply (Permutation_NoDup (l := map key (values m))).
    + apply Permutation_map. symmetry. apply sortBy_Permutation.
    + replace (map key (values m)) with (keys m); [assumption|].
      unfold keys, values. rewrite map_map. apply map_ext_Forall.
      eapply Forall_impl; [|exact Hkeys]. intros kv H. now rewrite H.
  - rewrite (list_sum_Permutation
               (Permutation_map pixelsUsing (sortBy_Permutation cmp (values m)))).
    rewrite Hsum, Hwf, pixelCount_exact.
    unfold rgbaOffset. now rewrite Nat.div_mul by (unfold RGBA_BYTES; lia).
Qed.

Definition fourPixels : ImageData :=
  {| width := 2; height := 2;
     data := [1; 2; 3; 255;  9; 9; 9; 255;  1; 2; 3; 0;  9; 9; 8; 4]%Z |}.

Lemma getLocalPalette_counts_witness :
  NoDup (map key (getLocalPalette 0 fourPixels))
  /\ list_sum (map pixelsUsing (getLocalPalette 0 fourPixels)) = 16 / RGBA_BYTES.
Proof. apply (getLocalPalette_counts 0 fourPixels). reflexivity. Defined.

(** ** C5: the distance between colours and between images *)

Definition onePixel (r g b : Z) : ImageData :=
  {| width := 1; height := 1; data := [r; g; b; 255%Z] |}.

(** The third term of colorDistance subtracts [colorB[2]] from itself, so
    the first colour's blue channel never enters the distance. *)
Lemma colorDistance_blue_blind (id id' : ref) (r g b b' : Z) (other : anyColor) :
  colorDistance (ColorArray id [r; g; b]) other
  = colorDistance (ColorArray id' [r; g; b']) other.
Proof. reflexivity. Qed.

(** C5, evaluated at black against pure blue: colorDistance and
    imageDataDistance return 0 where the Euclidean RGB distance is 255. *)
Theorem imageDataDistance_not_euclidean :
  colorDistance (ColorArray RFresh [0; 0; 0]%Z) (ColorArray RFresh [0; 0; 255]%Z)
  = 0%float
  /\ euclideanDistance (ColorArray RFresh [0; 0; 0]%Z) (ColorArray RFresh [0; 0; 255]%Z)
     = 255%float
  /\ imageDataDistance (onePixel 0 0 0) (onePixel 0 0 255) = 0%float.
Proof. repeat split; vm_compute; reflexivity. Qed.

(** ** Slices and typed-array writes *)

Lemma nth_error_slice {A} (start stop : nat) (l : list A) (i : nat) :
  nth_error (slice start stop l) i
  = if i <? stop - start then nth_error l (start + i) else None.
Proof. unfold slice. now rewrite nth_error_firstn, nth_error_skipn. Qed.

Lemma slice_length {A} (start stop : nat) (l : list A) :
  length (slice start stop l) = Nat.min (stop - start) (length l - start).
Proof. unfold slice. now rewrite length_firstn, length_skipn. Qed.

Lemma setAt_length {A} (source : list A) (offset : nat) (target : list A) :
  offset + length source <= length target ->
  length (setAt source offset target) = length target.
Proof.
  intros H. unfold setAt.
  rewrite !length_app, length_firstn, length_skipn. lia.
Qed.

Lemma nth_error_setAt {A} (source : list A) (offset : nat) (target : list A) (p : nat) :
  offset + length source <= length target ->
  nth_error (setAt source offset target) p
  = if (offset <=? p) && (p <? offset + length source)
    then nth_error source (p - offset)
    else nth_error target p.
Proof.
  intros H. unfold setAt.
  assert (Hf : length (firstn offset target) = offset)
    by (rewrite length_firstn; lia).
  destruct (Nat.leb_spec offset p) as [Hle|Hlt]; simpl.
  - rewrite nth_error_app2 by lia. rewrite Hf.
    destruct (Nat.ltb_spec p (offset + length source)) as [Hin|Hout].
    + apply nth_error_app1. lia.
    + rewrite nth_error_app2 by lia. rewrite nth_error_skipn. f_equal. lia.
  - rewrite nth_error_app1 by lia. rewrite nth_error_firstn.
    destruct (Nat.ltb_spec p offset); [reflexivity|lia].
Qed.

Lemma fold_left_seq_S {A} (f : A -> nat -> A) (n : nat) (a : A) :
  fold_left f (seq 0 (S n)) a = f (fold_left f (seq 0 n) a) n.
Proof. now rewrite seq_S, fold_left_app. Qed.

(** ** getImageDataSubsection, row by row *)

Section Subsection.
Variables (imgData : ImageData) (sx sy sw sh : nat).

(** What row [j] of the subsection receives from the source. *)
Definition rowSlice (j : nat) : list Z :=
  let start := rgbaOffset (sx + (sy + j) * width imgData) in
  slice start (start + rgbaOffset sw) (data imgData).

Definition rowsWritten (n : nat) : list Z :=
  fold_left
    (fun subData y =>
       let start := rgbaOffset (sx + (sy + y) * width imgData) in
       let length := rgbaOffset sw in
       let offset := rgbaOffset (y * sw) in
       setAt (slice start (start + length) (data imgData)) offset subData)
    (seq 0 n)
    (repeat 0%Z (rgbaOffset (sw * sh))).

Lemma rowSlice_length j : length (rowSlice j) <= rgbaOffset sw.
Proof. unfold rowSlice. rewrite slice_length. lia. Qed.

Lemma rowsWritten_S n :
  rowsWritten (S n) = setAt (rowSlice n) (rgbaOffset (n * sw)) (rowsWritten n).
Proof. unfold rowsWritten. now rewrite fold_left_seq_S. Qed.

Lemma rowsWritten_spec n :
  n <= sh ->
  length (rowsWritten n) = rgbaOffset (sw * sh)
  /\ (forall j b, j < n -> b < length (rowSlice j) ->
        nth_error (rowsWritten n) (rgbaOffset (j * sw) + b)
        = nth_error (rowSlice j) b)
  /\ (forall p,
        (forall j, j < n ->
           ~ (rgbaOffset (j * sw) <= p < rgbaOffset (j * sw) + length (rowSlice j))) ->
        nth_error (rowsWritten n) p
        = nth_error (repeat 0%Z (rgbaOffset (sw * sh))) p).
Proof.
  induction n as [|n IH]; intros Hn.
  - split; [|split].
    + unfold rowsWritten. simpl. apply repeat_length.
    + intros j b Hj. lia.
    + reflexivity.
  - destruct (IH ltac:(lia)) as (Hlen & Hrows & Hrest).
    pose proof (rowSlice_length n) as Hrow.
    assert (Hfit : rgbaOffset (n * sw) + length (rowSlice n)
                   <= length (rowsWritten n)).
    { rewrite Hlen. unfold rgbaOffset, RGBA_BYTES in *. nia. }
    rewrite rowsWritten_S. split; [|split].
    + now rewrite setAt_length.
    + intros j b Hj Hb. rewrite nth_error_setAt by assumption.
      destruct (Nat.eq_dec j n) as [->|Hne].
      * replace (rgbaOffset (n * sw) <=? rgbaOffset (n * sw) + b) with true
          by (symmetry; apply Nat.leb_le; lia).
        replace (rgbaOffset (n * sw) + b <? rgbaOffset (n * sw) + length (rowSlice n))
          with true by (symmetry; apply Nat.ltb_lt; lia).
        simpl. f_equal. lia.
      * pose proof (rowSlice_length j) as Hrowj.
        replace (rgbaOffset (n * sw) <=? rgbaOffset (j * sw) + b) with false.
        { simpl. apply Hrows; [lia|assumption]. }
        symmetry. apply Nat.leb_gt.
        unfold rgbaOffset, RGBA_BYTES in *. nia.
    + intros p Hp. rewrite nth_error_setAt by assumption.
      destruct ((rgbaOffset (n * sw) <=? p)
                && (p <? rgbaOffset (n * sw) + length (rowSlice n))) eqn:Hin.
      * apply andb_prop in Hin as [H1 H2].
        apply Nat.leb_le in H1. apply Nat.ltb_lt in H2.
        exfalso. apply (Hp n); lia.
      * apply Hrest. intros j Hj. apply Hp. lia.
Qed.

Lemma getImageDataSubsection_data :
  data (getImageDataSubsection imgData sx sy sw sh) = rowsWritten sh.
Proof. reflexivity. Qed.
End Subsection.

(** ** C4: splitIntoTiles *)

Lemma ceilDiv_gt (a b p : nat) : 0 < b -> p < a -> p / b < ceilDiv a b.
Proof.
  intros Hb Hp. unfold ceilDiv.
  replace (a + (b - 1)) with ((a - 1) + 1 * b) by lia.
  rewrite Nat.div_add by lia.
  pose proof (Nat.Div0.div_le_mono p (a - 1) b ltac:(lia)). lia.
Qed.

Lemma nth_error_grid {A} (f : nat -> nat -> A) (columns rows col row : nat) :
  col < columns -> row < rows ->
  nth_error (flat_map (fun y => map (fun x => f x y) (seq 0 columns)) (seq 0 rows))
            (row * columns + col)
  = Some (f col row).
Proof.
  intros Hcol. induction rows as [|rows IH]; intros Hrow; [lia|].
  rewrite seq_S, flat_map_app. simpl flat_map. rewrite app_nil_r.
  assert (Hlen : length (flat_map (fun y => map (fun x => f x y) (seq 0 columns))
                                  (seq 0 rows)) = rows * columns).
  { clear. induction rows as [|rows IH]; [reflexivity|].
    rewrite seq_S, flat_map_app, length_app, IH. simpl.
    rewrite length_app, length_map, length_seq. simpl. lia. }
  destruct (Nat.eq_dec row rows) as [->|Hne].
  - rewrite nth_error_app2 by lia. rewrite Hlen.
    replace (rows * columns + col - rows * columns) with col by lia.
    rewrite nth_error_map, nth_error_seq.
    destruct (Nat.ltb_spec col columns); [reflexivity|lia].
  - rewrite nth_error_app1 by (rewrite Hlen; nia). apply IH. lia.
Qed.

(** The tile splitIntoTiles builds for grid position [(tx, ty)]. *)
Definition tileAt (imgData : ImageData) (tileWidth tileHeight tx ty : nat) : Tile :=
  {| x := tx;
     y := ty;
     srcPosition := (tx * tileWidth, ty * tileHeight, tileWidth, tileHeight);
     srcImgData :=
       getImageDataSubsection imgData (tx * tileWidth) (ty * tileHeight)
                              tileWidth tileHeight |}.

(** Pixel [(px, py)] lies in the rectangle a tile reports as its position. *)
Definition covers (tile : Tile) (px py : nat) : Prop :=
  let '(sx, sy, sw, sh) := srcPosition tile in
  sx <= px < sx + sw /\ sy <= py < sy + sh.

Lemma In_splitIntoTiles imgData tileWidth tileHeight tile :
  In tile (splitIntoTiles imgData tileWidth tileHeight)
  <-> exists tx ty,
        tx < ceilDiv (width imgData) tileWidth
        /\ ty < ceilDiv (height imgData) tileHeight
        /\ tile = tileAt imgData tileWidth tileHeight tx ty.
Proof.
  unfold splitIntoTiles. rewrite in_flat_map. split.
  - intros (ty & Hty & Hin). apply in_map_iff in Hin as (tx & <- & Htx).
    apply in_seq in Hty, Htx. exists tx, ty. repeat split; lia.
  - intros (tx & ty & Htx & Hty & ->). exists ty. split.
    + apply in_seq. lia.
    + apply in_map_iff. exists tx. split; [reflexivity|apply in_seq; lia].
Qed.

Lemma covers_unique tileWidth tileHeight imgData tx ty px py :
  0 < tileWidth -> 0 < tileHeight ->
  covers (tileAt imgData tileWidth tileHeight tx ty) px py
  <-> tx = px / tileWidth /\ ty = py / tileHeight.
Proof.
  intros Hw Hh. unfold covers, tileAt. simpl. split.
  - intros [Hx Hy]. split.
    + apply (Nat.div_unique px tileWidth tx (px - tx * tileWidth)); lia.
    + apply (Nat.div_unique py tileHeight ty (py - ty * tileHeight)); lia.
  - intros [-> ->].
    pose proof (Nat.Div0.div_mod px tileWidth).
    pose proof (Nat.Div0.div_mod py tileHeight).
    pose proof (Nat.mod_upper_bound px tileWidth ltac:(lia)).
    pose proof (Nat.mod_upper_bound py tileHeight ltac:(lia)).
    lia.
Qed.

(** Bytes of a tile that lie over the image are the image's bytes. *)
Lemma getImageDataSubsection_inside imgData sx sy sw sh i j c :
  length (data imgData) = rgbaOffset (width imgData * height imgData) ->
  i < sw -> j < sh -> c < RGBA_BYTES ->
  sx + i < width imgData -> sy + j < height imgData ->
  nth_error (data (getImageDataSubsection imgData sx sy sw sh))
            (rgbaOffset (i + j * sw) + c)
  = nth_error (data imgData)
              (rgbaOffset ((sx + i) + (sy + j) * width imgData) + c).
Proof.
  intros Hwf Hi Hj Hc Hx Hy.
  rewrite getImageDataSubsection_data.
  destruct (rowsWritten_spec imgData sx sy sw (n := sh) (le_n sh))
    as (_ & Hrows & _).
  assert (Hb : rgbaOffset i + c < length (rowSlice imgData sx sy sw j)).
  { unfold rowSlice. rewrite slice_length, Hwf.
    unfold rgbaOffset, RGBA_BYTES in *. nia. }
  replace (rgbaOffset (i + j * sw) + c)
    with (rgbaOffset (j * sw) + (rgbaOffset i + c))
    by (unfold rgbaOffset; lia).
  rewrite Hrows by assumption.
  unfold rowSlice. rewrite nth_error_slice.
  replace (rgbaOffset i + c
           <? rgbaOffset (sx + (sy + j) * width imgData) + rgbaOffset sw
              - rgbaOffset (sx + (sy + j) * width imgData)) with true.
  - f_equal. unfold rgbaOffset. lia.
  - symmetry. apply Nat.ltb_lt. unfold rgbaOffset, RGBA_BYTES in *. lia.
Qed.

(** Rows of a tile below the image keep the zeros of the new buffer. *)
Lemma getImageDataSubsection_below imgData sx sy sw sh j b :
  length (data imgData) = rgbaOffset (width imgData * height imgData) ->
  j < sh -> height imgData <= sy + j -> b < rgbaOffset sw ->
  nth_error (data (getImageDataSubsection imgData sx sy sw sh))
            (rgbaOffset (j * sw) + b)
  = Some 0%Z.
Proof.
  intros Hwf Hj Hy Hb.
  rewrite getImageDataSubsection_data.
  destruct (rowsWritten_spec imgData sx sy sw (n := sh) (le_n sh))
    as (_ & _ & Hrest).
  rewrite Hrest.
  - apply nth_error_repeat. unfold rgbaOffset, RGBA_BYTES in *. nia.
  - intros j' Hj' Hin.
    pose proof (rowSlice_length imgData sx sy sw j') as Hrow.
    assert (j' = j) as -> by (unfold rgbaOffset, RGBA_BYTES in *; nia).
    assert (length (rowSlice imgData sx sy sw j) = 0); [|lia].
    unfold rowSlice. rewrite slice_length, Hwf.
    unfold rgbaOffset, RGBA_BYTES in *. nia.
Qed.

Lemma length_grid {A} (f : nat -> nat -> A) (columns rows : nat) :
  length (flat_map (fun y => map (fun x => f x y) (seq 0 columns)) (seq 0 rows))
  = columns * rows.
Proof.
  induction rows as [|rows IH]; [simpl; lia|].
  rewrite seq_S, flat_map_app, length_app, IH. simpl.
  rewrite length_app, length_map, length_seq. simpl. lia.
Qed.

(** C4 as stated, in two parts: the rectangles the tiles report make up
    exactly the image, and the bytes a tile copies are those of its
    rectangle clamped to the image, nothing more. *)
Definition regionsExactlyCover (imgData : ImageData) (tileWidth tileHeight : nat)
  : Prop :=
  forall px py,
    (exists tile, In tile (splitIntoTiles imgData tileWidth tileHeight)
                  /\ covers tile px py)
    <-> (px < width imgData /\ py < height imgData).

Definition copiesClampedRegion (imgData : ImageData) (tileWidth tileHeight : nat)
  : Prop :=
  forall tile,
    In tile (splitIntoTiles imgData tileWidth tileHeight) ->
    let '(sx, sy, sw, sh) := srcPosition tile in
    length (data (srcImgData tile))
    = rgbaOffset ((Nat.min (sx + sw) (width imgData) - sx)
                  * (Nat.min (sy + sh) (height imgData) - sy)).

(** C4, counterexample: a 1x1 image cut into 2x2 tiles.  The one tile
    reports the rectangle [0,2) x [0,2) and holds four pixels: the image's
    pixel and twelve zero bytes. *)
Lemma splitIntoTiles_edge_tile_not_clamped :
  map srcPosition (splitIntoTiles (onePixel 1 2 3) 2 2) = [(0, 0, 2, 2)]
  /\ map (fun tile => data (srcImgData tile)) (splitIntoTiles (onePixel 1 2 3) 2 2)
     = [[1; 2; 3; 255; 0; 0; 0; 0; 0; 0; 0; 0; 0; 0; 0; 0]%Z]
  /\ ~ regionsExactlyCover (onePixel 1 2 3) 2 2
  /\ ~ copiesClampedRegion (onePixel 1 2 3) 2 2.
Proof.
  split; [reflexivity|]. split; [reflexivity|]. split.
  - intros H. destruct (H 1 1) as [Hin _].
    assert (1 < 1 /\ 1 < 1) as [? _]; [|lia].
    apply Hin. eexists. split; [left; reflexivity|]. unfold covers. simpl. lia.
  - intros H. specialize (H _ (or_introl eq_refl)). simpl in H. discriminate H.
Qed.

(** The right edge is not a matter of padding: the bytes past the end of a
    row are those at the start of the next row. *)
Lemma getImageDataSubsection_wraps_around :
  let imgData := {| width := 3; height := 2;
                    data := [10; 11; 12; 255;  20; 21; 22; 255;  30; 31; 32; 255;
                             40; 41; 42; 255;  50; 51; 52; 255;  60; 61; 62; 255]%Z |} in
  data (getImageDataSubsection imgData 2 0 2 2)
  = [30; 31; 32; 255;  40; 41; 42; 255;  60; 61; 62; 255;  0; 0; 0; 0]%Z.
Proof. reflexivity. Qed.

(** C4, amended: for positive tile sizes splitIntoTiles yields
    [ceil(W/tw) * ceil(H/th)] tiles in row-major order; every tile reports
    the full [tw x th] rectangle at [(x*tw, y*th)], and every pixel of the
    image lies in the rectangle of exactly one tile; every tile buffer is
    [tw x th] pixels, holds the image's bytes wherever its rectangle lies
    over the image, and keeps zero bytes in its rows below the image. *)
Theorem splitIntoTiles_grid (imgData : ImageData) (tileWidth tileHeight : nat) :
  0 < tileWidth -> 0 < tileHeight ->
  length (data imgData) = rgbaOffset (width imgData * height imgData) ->
  let tiles := splitIntoTiles imgData tileWidth tileHeight in
  let tilesX := ceilDiv (width imgData) tileWidth in
  let tilesY := ceilDiv (height imgData) tileHeight in
  length tiles = tilesX * tilesY
  /\ (forall tx ty, tx < tilesX -> ty < tilesY ->
        nth_error tiles (ty * tilesX + tx)
        = Some (tileAt imgData tileWidth tileHeight tx ty))
  /\ (forall px py, px < width imgData -> py < height imgData ->
        exists tile,
          In tile tiles /\ covers tile px py
          /\ forall other, In other tiles -> covers other px py -> other = tile)
  /\ (forall tile, In tile tiles ->
        srcPosition tile
        = (x tile * tileWidth, y tile * tileHeight, tileWidth, tileHeight)
        /\ width (srcImgData tile) = tileWidth
        /\ height (srcImgData tile) = tileHeight
        /\ length (data (srcImgData tile)) = rgbaOffset (tileWidth * tileHeight)
        /\ (forall i j c,
              i < tileWidth -> j < tileHeight -> c < RGBA_BYTES ->
              x tile * tileWidth + i < width imgData ->
              y tile * tileHeight + j < height imgData ->
              nth_error (data (srcImgData tile)) (rgbaOffset (i + j * tileWidth) + c)
              = nth_error (data imgData)
                          (rgbaOffset ((x tile * tileWidth + i)
                                       + (y tile * tileHeight + j) * width imgData) + c))
        /\ (forall j b,
              j < tileHeight -> height imgData <= y tile * tileHeight + j ->
              b < rgbaOffset tileWidth ->
              nth_error (data (srcImgData tile)) (rgbaOffset (j * tileWidth) + b)
              = Some 0%Z)).
Proof.
  intros Hw Hh Hwf tiles tilesX tilesY. split; [|split; [|split]].
  - apply length_grid.
  - intros tx ty Htx Hty. subst tiles. unfold splitIntoTiles.
    apply (nth_error_grid (fun tx ty => tileAt imgData tileWidth tileHeight tx ty));
      assumption.
  - intros px py Hpx Hpy.
    exists (tileAt imgData tileWidth tileHeight (px / tileWidth) (py / tileHeight)).
    split; [|split].
    + apply In_splitIntoTiles. do 2 eexists.
      split; [|split; [|reflexivity]]; now apply ceilDiv_gt.
    + now apply covers_unique.
    + intros other Hin Hcov.
      apply In_splitIntoTiles in Hin as (tx & ty & _ & _ & ->).
      apply covers_unique in Hcov as [-> ->]; [reflexivity|assumption|assumption].
  - intros tile Hin.
    apply In_splitIntoTiles in Hin as (tx & ty & _ & _ & ->).
    cbn [tileAt x y srcPosition srcImgData].
    split; [reflexivity|]. split; [reflexivity|]. split; [reflexivity|].
    split; [|split].
    + rewrite getImageDataSubsection_data.
      now destruct (rowsWritten_spec imgData (tx * tileWidth) (ty * tileHeight)
                                     tileWidth (n := tileHeight) (le_n _)).
    + intros i j c Hi Hj Hc Hx Hy.
      now apply getImageDataSubsection_inside.
    + intros j b Hj Hy Hb. now apply getImageDataSubsection_below.
Qed.

Definition threeByTwo : ImageData :=
  {| width := 3; height := 2;
     data := [10; 11; 12; 255;  20; 21; 22; 255;  30; 31; 32; 255;
              40; 41; 42; 255;  50; 51; 52; 255;  60; 61; 62; 255]%Z |}.

Lemma splitIntoTiles_grid_witness :
  length (splitIntoTiles threeByTwo 2 2) = 2 * 1.
Proof.
  refine (proj1 (splitIntoTiles_grid threeByTwo (tileWidth := 2) (tileHeight := 2)
                                     _ _ _)).
  - lia.
  - lia.
  - reflexivity.
Defined.

(** ** The order of binary64 numbers *)

Ltac sf_cases :=
  repeat match goal with
         | s : bool |- _ => destruct s
         end;
  simpl;
  repeat match goal with
         | |- context [Z.compare ?a ?b] => destruct (Z.compare_spec a b)
         | |- context [Pos.compare_cont Eq ?a ?b] =>
             change (Pos.compare_cont Eq a b) with (Pos.compare a b);
             destruct (Pos.compare_spec a b)
         end;
  simpl; try congruence; try (intros; exfalso; lia); try (intros; lia).

Lemma SFleb_trans a b c :
  SFleb a b = true -> SFleb b c = true -> SFleb a c = true.
Proof.
  unfold SFleb.
  destruct a as [sa|sa| |sa ma ea], b as [sb|sb| |sb mb eb], c as [sc|sc| |sc mc ec];
    simpl; try congruence; sf_cases.
Qed.

Lemma SFleb_total a b :
  SFeqb a a = true -> SFeqb b b = true -> SFleb a b = false -> SFltb b a = true.
Proof.
  unfold SFleb, SFltb, SFeqb.
  destruct a as [sa|sa| |sa ma ea], b as [sb|sb| |sb mb eb];
    simpl; try congruence; sf_cases.
Qed.

Lemma SFleb_refl a : SFeqb a a = true -> SFleb a a = true.
Proof. unfold SFleb, SFeqb. now destruct (SFcompare a a) as [[| |]|]. Qed.

Lemma SFleb_eqb_ltb a b : SFleb a b = SFeqb a b || SFltb a b.
Proof. unfold SFleb, SFeqb, SFltb. now destruct (SFcompare a b) as [[| |]|]. Qed.

Lemma SFltb_not_leb a b : SFltb a b = true -> SFleb b a = false.
Proof.
  unfold SFleb, SFltb.
  destruct a as [sa|sa| |sa ma ea], b as [sb|sb| |sb mb eb];
    simpl; try congruence; sf_cases.
Qed.

Definition notNaN (x : float) : Prop := PrimFloat.is_nan x = false.

Lemma notNaN_eqb x : notNaN x -> SFeqb (Prim2SF x) (Prim2SF x) = true.
Proof.
  unfold notNaN, PrimFloat.is_nan. rewrite eqb_spec.
  now destruct (SFeqb (Prim2SF x) (Prim2SF x)).
Qed.

Lemma float_leb_trans x y z :
  PrimFloat.leb x y = true -> PrimFloat.leb y z = true -> PrimFloat.leb x z = true.
Proof. rewrite !leb_spec. apply SFleb_trans. Qed.

Lemma float_leb_total x y :
  notNaN x -> notNaN y -> PrimFloat.leb x y = false -> PrimFloat.ltb y x = true.
Proof.
  intros Hx Hy. rewrite leb_spec, ltb_spec.
  apply SFleb_total; now apply notNaN_eqb.
Qed.

Lemma float_leb_refl x : notNaN x -> PrimFloat.leb x x = true.
Proof. intros Hx. rewrite leb_spec. now apply SFleb_refl, notNaN_eqb. Qed.

Lemma float_ltb_not_leb x y : PrimFloat.ltb x y = true -> PrimFloat.leb y x = false.
Proof. rewrite leb_spec, ltb_spec. apply SFltb_not_leb. Qed.

(** comparatorAscending on numbers puts [a] after [b] exactly when [a <= b]
    fails. *)
Lemma comparatorAscending_float (a b : float) :
  (0 <? comparatorAscending a b)%Z = negb (PrimFloat.leb a b).
Proof.
  unfold comparatorAscending. simpl strictEq. simpl lessThan.
  rewrite leb_spec, eqb_spec, ltb_spec, SFleb_eqb_ltb.
  destruct (SFeqb _ _); [reflexivity|]. now destruct (SFltb _ _).
Qed.

(** ** The first element of a sorted array *)

Section SortHead.
Context {A : Type} (cmp : A -> A -> Z) (P : A -> Prop).

(** [after a b]: the comparator asks for [a] to come after [b]. *)
Definition after (a b : A) : Prop := (0 <? cmp a b)%Z = true.

Hypothesis cmp_refl : forall a, P a -> ~ after a a.
Hypothesis cmp_asym : forall a b, P a -> P b -> after a b -> ~ after b a.
Hypothesis cmp_trans :
  forall a b c, P a -> P b -> P c -> ~ after a b -> ~ after b c -> ~ after a c.

Lemma insertBy_head a l :
  exists rest,
    insertBy cmp a l
    = match l with
      | [] => a
      | h :: _ => if (0 <? cmp a h)%Z then h else a
      end :: rest.
Proof.
  destruct l as [|h l]; simpl; [now eexists|].
  destruct (0 <? cmp a h)%Z; now eexists.
Qed.

(** The head of the sorted array is the first of the least elements. *)
Lemma sortBy_head l :
  Forall P l -> l <> [] ->
  exists i h rest,
    sortBy cmp l = h :: rest
    /\ nth_error l i = Some h
    /\ (forall b, In b l -> ~ after h b)
    /\ (forall j b, j < i -> nth_error l j = Some b -> after b h).
Proof.
  induction 1 as [|a l Ha Hl IH]; intros Hne; [congruence|].
  simpl sortBy. destruct l as [|a' l'].
  - exists 0, a, []. simpl. repeat split; try reflexivity.
    + intros b [<-|[]]. now apply cmp_refl.
    + intros j b Hj. lia.
  - destruct (IH ltac:(discriminate)) as (i & h & rest & Hsort & Hnth & Hmin & Hfirst).
    change (fold_right (insertBy cmp) [] (a' :: l')) with (sortBy cmp (a' :: l')).
    rewrite Hsort.
    assert (Hh : P h).
    { apply nth_error_In in Hnth. rewrite Forall_forall in Hl. now apply Hl. }
    simpl insertBy. destruct (0 <? cmp a h)%Z eqn:Hcmp.
    + exists (S i), h, (insertBy cmp a rest). repeat split; try assumption.
      * intros b [<-|Hin]; [now apply cmp_asym|now apply Hmin].
      * intros [|j] b Hj Hb; simpl in Hb.
        -- injection Hb as <-. exact Hcmp.
        -- apply (Hfirst j); [lia|assumption].
    + exists 0, a, (h :: rest). repeat split; try reflexivity.
      * intros b [<-|Hin]; [now apply cmp_refl|].
        apply (cmp_trans (b := h)); try assumption.
        -- rewrite Forall_forall in Hl. now apply Hl.
        -- unfold after. now rewrite Hcmp.
        -- now apply Hmin.
      * intros j b Hj. lia.
Qed.
End SortHead.

(** Sorting by a numeric field with comparatorAscending. *)
Lemma sortBy_distance_head {A} (distance : A -> float) (l : list A) :
  Forall (fun a => notNaN (distance a)) l -> l <> [] ->
  exists i h rest,
    sortBy (fun a b => comparatorAscending (distance a) (distance b)) l = h :: rest
    /\ nth_error l i = Some h
    /\ (forall b, In b l -> PrimFloat.leb (distance h) (distance b) = true)
    /\ (forall j b, j < i -> nth_error l j = Some b ->
          PrimFloat.ltb (distance h) (distance b) = true).
Proof.
  intros Hl Hne.
  destruct (@sortBy_head A
              (fun a b => comparatorAscending (distance a) (distance b))
              (fun a => notNaN (distance a))) with (l := l)
    as (i & h & rest & Hsort & Hnth & Hmin & Hfirst); try assumption.
  - intros a Ha. unfold after. rewrite comparatorAscending_float.
    now rewrite float_leb_refl.
  - intros a b Ha Hb. unfold after. rewrite !comparatorAscending_float.
    intros Hab. apply negb_true_iff in Hab.
    apply float_leb_total in Hab; try assumption.
    assert (PrimFloat.leb (distance b) (distance a) = true) as ->; [|discriminate].
    rewrite leb_spec, SFleb_eqb_ltb. rewrite ltb_spec in Hab. rewrite Hab.
    apply orb_true_r.
  - intros a b c Ha Hb Hc. unfold after. rewrite !comparatorAscending_float.
    intros Hab Hbc. apply not_true_is_false, negb_false_iff in Hab, Hbc.
    now rewrite (@float_leb_trans _ _ _ Hab Hbc).
  - assert (Hh : notNaN (distance h)).
    { apply nth_error_In in Hnth. rewrite Forall_forall in Hl. now apply Hl. }
    exists i, h, rest. repeat split; try assumption.
    + intros b Hb. specialize (Hmin b Hb). unfold after in Hmin.
      rewrite comparatorAscending_float in Hmin.
      now apply not_true_is_false, negb_false_iff in Hmin.
    + intros j b Hj Hb. specialize (Hfirst j b Hj Hb). unfold after in Hfirst.
      rewrite comparatorAscending_float in Hfirst. apply negb_true_iff in Hfirst.
      apply float_leb_total; try assumption.
      apply nth_error_In in Hb. rewrite Forall_forall in Hl. now apply Hl.
Qed.

(** ** Hex keys and back *)

Lemma hexDigit_cases (d : Z) (P : Z -> Prop) :
  (0 <= d < 16)%Z ->
  P 0%Z -> P 1%Z -> P 2%Z -> P 3%Z -> P 4%Z -> P 5%Z -> P 6%Z -> P 7%Z ->
  P 8%Z -> P 9%Z -> P 10%Z -> P 11%Z -> P 12%Z -> P 13%Z -> P 14%Z -> P 15%Z ->
  P d.
Proof.
  intros Hd. intros.
  assert (d = 0 \/ d = 1 \/ d = 2 \/ d = 3 \/ d = 4 \/ d = 5 \/ d = 6 \/ d = 7
          \/ d = 8 \/ d = 9 \/ d = 10 \/ d = 11 \/ d = 12 \/ d = 13 \/ d = 14
          \/ d = 15)%Z as Hcases by lia.
  repeat (destruct Hcases as [->|Hcases]; [assumption|]). now subst.
Qed.

Lemma hexDigit_value d : (0 <= d < 16)%Z -> hexDigitValue (hexDigit d) = d.
Proof. intros Hd. apply (@hexDigit_cases d (fun d => hexDigitValue (hexDigit d) = d) Hd); reflexivity. Qed.

Lemma hexDigit_isHexDigit d : (0 <= d < 16)%Z -> isHexDigit (hexDigit d) = true.
Proof. intros Hd. apply (@hexDigit_cases d (fun d => isHexDigit (hexDigit d) = true) Hd); reflexivity. Qed.

Lemma hexDigit_lowerCase d :
  (0 <= d < 16)%Z -> toLowerCaseAscii (hexDigit d) = hexDigit d.
Proof. intros Hd. apply (@hexDigit_cases d (fun d => toLowerCaseAscii (hexDigit d) = hexDigit d) Hd); reflexivity. Qed.

(** A channel in 0-255 is written as its two hex digits. *)
Lemma hexByte_of_bytes :
  forallb (fun v => String.eqb (hexByte v)
                               (String (hexDigit (v / 16))
                                       (String (hexDigit (v mod 16)) EmptyString)))
          (map Z.of_nat (seq 0 256)) = true.
Proof. vm_compute. reflexivity. Qed.

Lemma hexByte_twoDigits (v : Z) :
  (0 <= v < 256)%Z ->
  hexByte v = String (hexDigit (v / 16)) (String (hexDigit (v mod 16)) EmptyString).
Proof.
  intros Hv. pose proof hexByte_of_bytes as Hall. rewrite forallb_forall in Hall.
  apply String.eqb_eq. apply Hall. apply in_map_iff. exists (Z.to_nat v).
  split; [lia|apply in_seq; lia].
Qed.

Lemma hexByte_digits (v : Z) :
  (0 <= v < 256)%Z ->
  (0 <= v / 16 < 16)%Z /\ (0 <= v mod 16 < 16)%Z
  /\ (16 * (v / 16) + v mod 16 = v)%Z.
Proof.
  intros Hv. repeat split; Z.div_mod_to_equations; lia.
Qed.

Lemma hexValueFrom_hexByte acc v rest :
  (0 <= v < 256)%Z ->
  hexValueFrom acc (hexByte v ++ rest) = hexValueFrom (256 * acc + v)%Z rest.
Proof.
  intros Hv. destruct (hexByte_digits Hv) as (H1 & H0 & Hsum).
  rewrite (hexByte_twoDigits Hv). cbn [append hexValueFrom].
  rewrite !hexDigit_value by assumption. f_equal. lia.
Qed.

Lemma mapString_hexByte v rest :
  (0 <= v < 256)%Z ->
  mapString toLowerCaseAscii (hexByte v ++ rest)
  = (hexByte v ++ mapString toLowerCaseAscii rest)%string.
Proof.
  intros Hv. destruct (hexByte_digits Hv) as (H1 & H0 & _).
  rewrite (hexByte_twoDigits Hv). simpl. now rewrite !hexDigit_lowerCase.
Qed.

Lemma filterString_hexByte v rest :
  (0 <= v < 256)%Z ->
  filterString isHexDigit (hexByte v ++ rest)
  = (hexByte v ++ filterString isHexDigit rest)%string.
Proof.
  intros Hv. destruct (hexByte_digits Hv) as (H1 & H0 & _).
  rewrite (hexByte_twoDigits Hv). simpl. now rewrite !hexDigit_isHexDigit.
Qed.

Lemma channelsOfNumber_rgb r g b :
  (0 <= r < 256)%Z -> (0 <= g < 256)%Z -> (0 <= b < 256)%Z ->
  channelsOfNumber (roundToDouble (256 * (256 * (256 * 0 + r) + g) + b)) = [r; g; b].
Proof.
  intros Hr Hg Hb. unfold roundToDouble.
  set (v := (256 * (256 * (256 * 0 + r) + g) + b)%Z).
  assert (Hv : (v <? 2 ^ 53)%Z = true).
  { apply Z.ltb_lt. change (2 ^ 53)%Z with 9007199254740992%Z. subst v. lia. }
  rewrite Hv. unfold channelsOfNumber.
  change 255%Z with (Z.ones 8). rewrite !Z.land_ones, !Z.shiftr_div_pow2 by lia.
  change (2 ^ 16)%Z with 65536%Z. change (2 ^ 8)%Z with 256%Z.
  subst v. repeat f_equal.
  - replace (256 * (256 * (256 * 0 + r) + g) + b)%Z with (r * 65536 + (256 * g + b))%Z by lia.
    rewrite Z.div_add_l by lia. rewrite (Z.div_small (256 * g + b)) by lia.
    rewrite Z.mod_small; lia.
  - replace (256 * (256 * (256 * 0 + r) + g) + b)%Z with ((256 * r + g) * 256 + b)%Z by lia.
    rewrite Z.div_add_l by lia. rewrite (Z.div_small b) by lia.
    replace (256 * r + g + 0)%Z with (g + r * 256)%Z by lia.
    rewrite Z.mod_add by lia. apply Z.mod_small. lia.
  - replace (256 * (256 * (256 * 0 + r) + g) + b)%Z with (b + (256 * r + g) * 256)%Z by lia.
    rewrite Z.mod_add by lia. apply Z.mod_small. lia.
Qed.

(** Whatever the number, the channels read from it are three bytes. *)
Lemma channelsOfNumber_range (n : number) :
  exists r g b,
    channelsOfNumber n = [r; g; b]
    /\ (0 <= r < 256)%Z /\ (0 <= g < 256)%Z /\ (0 <= b < 256)%Z.
Proof.
  destruct n as [v|].
  - do 3 eexists. split; [reflexivity|].
    change 255%Z with (Z.ones 8). rewrite !Z.land_ones by lia.
    repeat split; apply Z.mod_pos_bound; lia.
  - exists 0%Z, 0%Z, 0%Z. repeat split; lia.
Qed.

Lemma append_empty (s : string) : (s ++ "")%string = s.
Proof. induction s as [|c s IH]; simpl; [reflexivity|now rewrite IH]. Qed.

Lemma stripped_rgb2hex r g b :
  (0 <= r < 256)%Z -> (0 <= g < 256)%Z -> (0 <= b < 256)%Z ->
  filterString isHexDigit (mapString toLowerCaseAscii ("#" ++ rgb2hex r g b))
  = rgb2hex r g b.
Proof.
  intros Hr Hg Hb. unfold rgb2hex.
  rewrite <- (append_empty (hexByte b)).
  change ("#" ++ ?s)%string with (String "#" s).
  cbn [mapString]. change (toLowerCaseAscii "#") with "#"%char.
  cbn [filterString]. change (isHexDigit "#") with false. cbv iota.
  now rewrite !mapString_hexByte, !filterString_hexByte.
Qed.

Lemma hexValueFrom_rgb2hex r g b :
  (0 <= r < 256)%Z -> (0 <= g < 256)%Z -> (0 <= b < 256)%Z ->
  hexValueFrom 0 (rgb2hex r g b) = (256 * (256 * (256 * 0 + r) + g) + b)%Z.
Proof.
  intros Hr Hg Hb. unfold rgb2hex.
  rewrite <- (append_empty (hexByte b)).
  now rewrite !hexValueFrom_hexByte.
Qed.

(** Reading a hex key gives back the bytes it was written from. *)
Lemma channels_of_hex r g b :
  (0 <= r < 256)%Z -> (0 <= g < 256)%Z -> (0 <= b < 256)%Z ->
  channels (ColorString ("#" ++ rgb2hex r g b)) = [r; g; b].
Proof.
  intros Hr Hg Hb. unfold channels, normalizeColor.
  rewrite stripped_rgb2hex by assumption.
  assert (Hlen : String.length (rgb2hex r g b) = 6).
  { unfold rgb2hex. rewrite !(@hexByte_twoDigits _) by assumption. reflexivity. }
  rewrite Hlen. cbn [Nat.eqb]. unfold parseIntHex.
  rewrite hexValueFrom_rgb2hex by assumption.
  destruct (rgb2hex r g b) eqn:Hstr; [discriminate Hlen|].
  now apply channelsOfNumber_rgb.
Qed.

(** The channels read from a string are three bytes. *)
Lemma channels_of_string (s : string) :
  exists r g b,
    channels (ColorString s) = [r; g; b]
    /\ (0 <= r < 256)%Z /\ (0 <= g < 256)%Z /\ (0 <= b < 256)%Z.
Proof. unfold channels, normalizeColor. apply channelsOfNumber_range. Qed.

(** ** C9: nesColorMatch *)

Lemma nesPaletteInverted_entries :
  forallb (fun '(index, hex) =>
             match lookup hex nesPaletteInverted with
             | Some found =>
               String.eqb found
                 (if String.eqb hex "#000000" then CANONICAL_BLACK else index)
             | None => false
             end)
          nesPaletteSource = true.
Proof. vm_compute. reflexivity. Qed.

Lemma nesColorMatchSearch_exact (findColor : anyColor) (index hex : string) :
  In (index, hex) nesPaletteSource ->
  normalizeColorHex findColor = hex ->
  nesColorMatchSearch findColor
  = Ok (if String.eqb hex "#000000" then CANONICAL_BLACK else index).
Proof.
  intros Hin Hhex. unfold nesColorMatchSearch. rewrite Hhex.
  pose proof nesPaletteInverted_entries as Hall.
  rewrite forallb_forall in Hall. specialize (Hall _ Hin). cbv beta iota in Hall.
  destruct (lookup hex nesPaletteInverted) as [found|]; [|discriminate].
  apply String.eqb_eq in Hall. now subst.
Qed.

(** *** The cache *)

Definition cacheSound (cache : MemoCache) : Prop :=
  Forall (fun entry => nesColorMatchSearch (fst entry) = Ok (snd entry)) cache.

Lemma strictEqColor_true a b : strictEqColor a b = true -> a = b.
Proof. unfold strictEqColor. now destruct (anyColor_eq_dec a b). Qed.

Lemma nesColorMatch_cached cache findColor :
  cacheSound cache ->
  fst (nesColorMatch cache findColor) = nesColorMatchSearch findColor
  /\ cacheSound (snd (nesColorMatch cache findColor)).
Proof.
  intros Hsound. unfold nesColorMatch.
  destruct (find _ cache) as [entry|] eqn:Hfind.
  - apply find_some in Hfind as [Hin Heq]. apply strictEqColor_true in Heq.
    pose proof Hsound as Hall. unfold cacheSound in Hall.
    rewrite Forall_forall in Hall. specialize (Hall _ Hin).
    subst findColor. simpl. now split.
  - destruct (nesColorMatchSearch findColor) as [index|message] eqn:Hsearch; simpl.
    + split; [reflexivity|]. apply Forall_app. split; [assumption|].
      constructor; [assumption|constructor].
    + now split.
Qed.

Lemma nesColorMatchCalls_cached calls cache :
  cacheSound cache ->
  fst (nesColorMatchCalls cache calls) = map nesColorMatchSearch calls
  /\ cacheSound (snd (nesColorMatchCalls cache calls)).
Proof.
  revert cache; induction calls as [|findColor calls IH]; intros cache Hsound; simpl.
  - now split.
  - destruct (nesColorMatch_cached findColor Hsound) as [Hfst Hsnd].
    destruct (nesColorMatch cache findColor) as [index cache'].
    destruct (IH cache' Hsnd) as [Hfst' Hsnd'].
    destruct (nesColorMatchCalls cache' calls) as [indices cache''].
    simpl in *. split; [congruence|assumption].
Qed.

(** *** The search *)

Definition distanceOfOperands (a0 a1 b0 b1 b2 : float) : float :=
  PrimFloat.sqrt
    (PrimFloat.add
       (PrimFloat.add (square (PrimFloat.sub a0 b0)) (square (PrimFloat.sub a1 b1)))
       (square (PrimFloat.sub b2 b2))).

Lemma colorDistance_operands a b :
  colorDistance a b
  = distanceOfOperands (operand (channels a) 0) (operand (channels a) 1)
                       (operand (channels b) 0) (operand (channels b) 1)
                       (operand (channels b) 2).
Proof. reflexivity. Qed.

Definition byteOperands : list float := map numberOfZ (map Z.of_nat (seq 0 256)).

Definition tableOperands : list (float * float * float) :=
  map (fun entry => let cb := channels (ColorString (fst entry)) in
                    (operand cb 0, operand cb 1, operand cb 2))
      nesPaletteInverted.

(** Every distance from byte channels to a table entry is a number. *)
Lemma table_distances_numbers :
  forallb (fun a0 =>
     forallb (fun a1 =>
        forallb (fun '(b0, b1, b2) =>
                   negb (PrimFloat.is_nan (distanceOfOperands a0 a1 b0 b1 b2)))
                tableOperands)
        byteOperands)
     byteOperands = true.
Proof. vm_compute. reflexivity. Qed.

Lemma byteOperand_In v : In (numberOfZ (v mod 256)) byteOperands.
Proof.
  unfold byteOperands. apply in_map, in_map_iff.
  exists (Z.to_nat (v mod 256)).
  pose proof (Z.mod_pos_bound v 256 ltac:(lia)).
  split; [lia|apply in_seq; lia].
Qed.

Lemma nesColorMatch_distance_number (findColor : anyColor) (entry : string * string) :
  In entry nesPaletteInverted ->
  notNaN (colorDistance (ColorString (normalizeColorHex findColor))
                        (ColorString (fst entry))).
Proof.
  intros Hin. rewrite colorDistance_operands.
  destruct (channels_of_string (normalizeColorHex findColor))
    as (r & g & b & -> & Hr & Hg & Hb).
  cbn [operand nth_error].
  pose proof table_distances_numbers as Hall.
  rewrite forallb_forall in Hall.
  specialize (Hall _ (byteOperand_In r)). rewrite Z.mod_small in Hall by assumption.
  rewrite forallb_forall in Hall.
  specialize (Hall _ (byteOperand_In g)). rewrite Z.mod_small in Hall by assumption.
  rewrite forallb_forall in Hall.
  specialize (Hall _ (in_map _ _ _ Hin)). cbv beta zeta in Hall.
  now apply negb_true_iff in Hall.
Qed.

Lemma nth_error_map_Some {A B} (f : A -> B) (l : list A) (i : nat) (b : B) :
  nth_error (map f l) i = Some b ->
  exists a, nth_error l i = Some a /\ b = f a.
Proof.
  rewrite nth_error_map. destruct (nth_error l i) as [a|]; simpl; [|discriminate].
  intros [= <-]. now exists a.
Qed.

(** The distance nesColorMatch measures from a colour to a table key. *)
Definition matchDistance (findColor : anyColor) (nesHex : string) : float :=
  colorDistance (ColorString (normalizeColorHex findColor)) (ColorString nesHex).

Lemma nesColorMatchSearch_nearest (findColor : anyColor) :
  lookup (normalizeColorHex findColor) nesPaletteInverted = None ->
  exists i nesHex index,
    nth_error nesPaletteInverted i = Some (nesHex, index)
    /\ nesColorMatchSearch findColor = Ok index
    /\ (forall entry, In entry nesPaletteInverted ->
          PrimFloat.leb (matchDistance findColor nesHex)
                        (matchDistance findColor (fst entry)) = true)
    /\ (forall j entry, j < i -> nth_error nesPaletteInverted j = Some entry ->
          PrimFloat.ltb (matchDistance findColor nesHex)
                        (matchDistance findColor (fst entry)) = true).
Proof.
  intros Hmiss. unfold nesColorMatchSearch. rewrite Hmiss.
  set (hex := normalizeColorHex findColor).
  set (measure := fun '(nesHex, index) =>
                    (index : string,
                     colorDistance (ColorString hex) (ColorString nesHex))).
  destruct (@sortBy_distance_head _ snd (map measure nesPaletteInverted))
    as (i & h & rest & Hsort & Hnth & Hmin & Hfirst).
  - apply Forall_forall. intros d Hd. apply in_map_iff in Hd as ([nesHex index] & <- & Hin).
    apply (nesColorMatch_distance_number findColor Hin).
  - discriminate.
  - rewrite Hsort.
    apply nth_error_map_Some in Hnth as ([nesHex index] & Hentry & ->).
    exists i, nesHex, index. split; [assumption|]. split; [reflexivity|]. split.
    + intros [nesHex' index'] Hin.
      apply (Hmin (measure (nesHex', index'))). now apply in_map.
    + intros j [nesHex' index'] Hj Hentry'.
      apply (Hfirst j (measure (nesHex', index')) Hj).
      rewrite nth_error_map, Hentry'. reflexivity.
Qed.

(** The keys of nesPaletteInverted come in the property order of
    nesPalette, where the indices that read as integers (10 to 39) go
    before the others (00 to 0f, 1a to 1f, ...); black stands where 0d put
    it and holds 0f. *)
Definition nesPaletteInvertedOrder : list string :=
  [ "10"; "11"; "12"; "13"; "14"; "15"; "16"; "17"; "18"; "19";
    "20"; "21"; "22"; "23"; "24"; "25"; "26"; "27"; "28"; "29";
    "30"; "31"; "32"; "33"; "34"; "35"; "36"; "37"; "38"; "39";
    "00"; "01"; "02"; "03"; "04"; "05"; "06"; "07"; "08"; "09";
    "0a"; "0b"; "0c"; "0f"; "1a"; "1b"; "1c"; "2a"; "2b"; "2c";
    "2d"; "3a"; "3b"; "3c"; "3d" ].

(** The last clause of C9 read with the enumeration order of the hardware
    table, 00 to 3f: without an exact match the answer is an entry of the
    table such that every entry of another colour enumerated before it is
    strictly farther from the colour. *)
Definition ties_broken_by_enumeration_order : Prop :=
  forall findColor index,
    threeChannels findColor ->
    lookup (normalizeColorHex findColor) nesPaletteInverted = None ->
    fst (nesColorMatch [] findColor) = Ok index ->
    exists i hex,
      nth_error nesPaletteSource i = Some (index, hex)
      /\ forall j index' hex',
           j < i -> nth_error nesPaletteSource j = Some (index', hex') ->
           hex' <> hex ->
           PrimFloat.ltb (matchDistance findColor hex)
                         (matchDistance findColor hex') = true.

Definition darkGreen : anyColor := ColorArray RFresh [7; 95; 0]%Z.

(** C9, counterexample: [7, 95, 0] is as far from 0b (#065707) as from 12
    (#0f5ef4), and no entry is nearer.  0b is enumerated before 12, but 12
    is a key that reads as an integer, so its colour comes before that of
    0b among the keys of nesPaletteInverted, and 12 is the answer. *)
Lemma nesColorMatch_tie_not_in_enumeration_order :
  fst (nesColorMatch [] darkGreen) = Ok "12"
  /\ nth_error nesPaletteSource 11 = Some ("0b", "#065707")
  /\ nth_error nesPaletteSource 18 = Some ("12", "#0f5ef4")
  /\ matchDistance darkGreen "#065707" = matchDistance darkGreen "#0f5ef4"
  /\ ~ ties_broken_by_enumeration_order.
Proof.
  assert (Hanswer : fst (nesColorMatch [] darkGreen) = Ok "12")
    by (vm_compute; reflexivity).
  assert (Htie : matchDistance darkGreen "#065707" = matchDistance darkGreen "#0f5ef4")
    by (vm_compute; reflexivity).
  split; [exact Hanswer|]. split; [reflexivity|]. split; [reflexivity|].
  split; [exact Htie|].
  intros Hclaim.
  destruct (Hclaim darkGreen "12") as (i & hex & Hi & Hfirst).
  - unfold threeChannels. simpl. lia.
  - vm_compute. reflexivity.
  - exact Hanswer.
  - assert (Hentry : i = 18 /\ hex = "#0f5ef4").
    { unfold nesPaletteSource in Hi.
      do 64 (destruct i as [|i];
             [simpl in Hi; first [discriminate Hi
                                 |injection Hi as <-; now split]|]).
      destruct i; discriminate Hi. }
    destruct Hentry as [-> ->].
    specialize (Hfirst 11 "0b" "#065707" ltac:(lia) eq_refl ltac:(discriminate)).
    rewrite Htie in Hfirst.
    revert Hfirst. vm_compute. discriminate.
Qed.

(** C9, amended: a colour whose normalized hex is that of a table entry is
    matched to that entry's index, and to the canonical index 0f for black,
    by the look-up alone; whatever calls went before, a call returns what
    the search returns for its argument, so equal arguments get equal
    answers; and without an exact match the answer is the index of the
    first key of nesPaletteInverted, in its property order, whose distance
    to the colour is least.  That order is not the enumeration order of
    the table: the indices 10 to 39 come first. *)
Theorem nesColorMatch_spec :
  (forall calls findColor index hex,
      threeChannels findColor ->
      In (index, hex) nesPaletteSource ->
      normalizeColorHex findColor = hex ->
      lookup hex nesPaletteInverted
      = Some (if String.eqb hex "#000000" then CANONICAL_BLACK else index)
      /\ fst (nesColorMatch (snd (nesColorMatchCalls [] calls)) findColor)
         = Ok (if String.eqb hex "#000000" then CANONICAL_BLACK else index))
  /\ (forall calls calls' findColor,
        fst (nesColorMatch (snd (nesColorMatchCalls [] calls)) findColor)
        = fst (nesColorMatch (snd (nesColorMatchCalls [] calls')) findColor))
  /\ (forall calls findColor,
        threeChannels findColor ->
        lookup (normalizeColorHex findColor) nesPaletteInverted = None ->
        exists i nesHex index,
          nth_error nesPaletteInverted i = Some (nesHex, index)
          /\ fst (nesColorMatch (snd (nesColorMatchCalls [] calls)) findColor)
             = Ok index
          /\ (forall entry, In entry nesPaletteInverted ->
                PrimFloat.leb (matchDistance findColor nesHex)
                              (matchDistance findColor (fst entry)) = true)
          /\ (forall j entry, j < i -> nth_error nesPaletteInverted j = Some entry ->
                PrimFloat.ltb (matchDistance findColor nesHex)
                              (matchDistance findColor (fst entry)) = true))
  /\ map snd nesPaletteInverted = nesPaletteInvertedOrder.
Proof.
  assert (Hmemo : forall calls findColor,
             fst (nesColorMatch (snd (nesColorMatchCalls [] calls)) findColor)
             = nesColorMatchSearch findColor).
  { intros calls findColor.
    destruct (@nesColorMatchCalls_cached calls [] (Forall_nil _)) as [_ Hsound].
    now destruct (nesColorMatch_cached findColor Hsound). }
  split; [|split; [|split]].
  - intros calls findColor index hex _ Hin Hhex. rewrite Hmemo.
    pose proof (@nesColorMatchSearch_exact findColor index hex Hin Hhex) as Hexact.
    split; [|assumption].
    unfold nesColorMatchSearch in Hexact. rewrite Hhex in Hexact.
    destruct (lookup hex nesPaletteInverted) as [found|] eqn:Hl.
    + now injection Hexact as ->.
    + pose proof nesPaletteInverted_entries as Hall.
      rewrite forallb_forall in Hall. specialize (Hall _ Hin).
      cbv beta iota in Hall. rewrite Hl in Hall. discriminate.
  - intros calls calls' findColor. now rewrite !Hmemo.
  - intros calls findColor _ Hmiss. rewrite Hmemo.
    now apply nesColorMatchSearch_nearest.
  - vm_compute. reflexivity.
Qed.

(** White, given as a string, as a number and as an array, after a few
    other calls: an exact match with table entry 30 each time. *)
Lemma nesColorMatch_spec_witness :
  fst (nesColorMatch
         (snd (nesColorMatchCalls [] [ColorString "#123456"; ColorNumber 16579836]))
         (ColorArray RFresh [252; 252; 252]%Z))
  = Ok "30".
Proof.
  destruct nesColorMatch_spec as [Hexact _].
  refine (proj2 (Hexact [ColorString "#123456"; ColorNumber 16579836]
                        (ColorArray RFresh [252; 252; 252]%Z) "30" "#fcfcfc" _ _ _)).
  - unfold threeChannels. simpl. lia.
  - unfold nesPaletteSource. do 48 right. now left.
  - reflexivity.
Defined.

(** ** Dictionaries: delete *)

Section DictDelete.
Context {V : Type}.
Implicit Types (o : dict V) (k : string) (v : V).

Lemma lookup_delete k k' o :
  lookup k' (delete k o) = if String.eqb k k' then None else lookup k' o.
Proof.
  unfold delete. induction o as [|[k0 w] o IH]; simpl.
  - now destruct (String.eqb k k').
  - destruct (String.eqb_spec k0 k) as [->|Hne]; simpl.
    + rewrite IH. destruct (String.eqb_spec k k'); reflexivity.
    + rewrite IH. destruct (String.eqb_spec k0 k') as [->|Hne'].
      * destruct (String.eqb_spec k k'); [congruence|reflexivity].
      * reflexivity.
Qed.

Lemma In_delete k o kv : In kv (delete k o) <-> In kv o /\ fst kv <> k.
Proof.
  unfold delete. rewrite filter_In.
  destruct (String.eqb_spec (fst kv) k); simpl; intuition congruence.
Qed.

Lemma keys_delete k o :
  keys (delete k o) = filter (fun k' => negb (String.eqb k' k)) (keys o).
Proof.
  unfold delete, keys. induction o as [|[k0 w] o IH]; simpl; [reflexivity|].
  destruct (String.eqb k0 k); simpl; now rewrite IH.
Qed.

Lemma delete_NoDup k o : NoDup (keys o) -> NoDup (keys (delete k o)).
Proof. intros H. rewrite keys_delete. now apply NoDup_filter. Qed.

Lemma In_keys_lookup k o : In k (keys o) -> exists v, lookup k o = Some v.
Proof.
  intros Hin. destruct (lookup k o) as [v|] eqn:Hl; [now exists v|].
  apply lookup_None in Hl. contradiction.
Qed.

Lemma In_keys k v o : In (k, v) o -> In k (keys o).
Proof. intros H. change k with (fst (k, v)). now apply in_map. Qed.

(** With distinct keys, the properties after [o[k] = v] are [(k, v)] and
    the others of [o]. *)
Lemma In_assign k v o kv :
  NoDup (keys o) ->
  In kv (assign k v o) <-> kv = (k, v) \/ (In kv o /\ fst kv <> k).
Proof.
  intros Hnd. pose proof (assign_NoDup k v o Hnd) as Hnd'.
  destruct kv as [k' v']. split.
  - intros Hin. apply (In_lookup _ _ _ Hnd') in Hin.
    rewrite lookup_assign in Hin.
    destruct (String.eqb_spec k k') as [->|Hne].
    + injection Hin as <-. now left.
    + right. split; [now apply lookup_In|simpl; congruence].
  - intros [[= -> ->]|[Hin Hne]]; apply lookup_In; rewrite lookup_assign.
    + now rewrite String.eqb_refl.
    + simpl in Hne. destruct (String.eqb_spec k k'); [congruence|].
      now apply In_lookup.
Qed.

Lemma sum_delete (f : V -> nat) k v o :
  NoDup (keys o) -> lookup k o = Some v ->
  list_sum (map f (values (delete k o))) + f v = list_sum (map f (values o)).
Proof.
  unfold delete. induction o as [|[k0 w] o IH]; simpl; [discriminate|].
  intros Hnd Hl. inversion Hnd as [|? ? Hk0 Hnd']; subst.
  destruct (String.eqb_spec k0 k) as [->|Hne]; simpl.
  - injection Hl as ->.
    replace (filter _ o) with o; [lia|].
    symmetry. clear -Hk0. induction o as [|[k1 w1] o IH]; simpl in *; [reflexivity|].
    destruct (String.eqb_spec k1 k) as [->|Hne]; simpl.
    + exfalso. apply Hk0. now left.
    + f_equal. apply IH. intros H. apply Hk0. now right.
  - specialize (IH Hnd' Hl). lia.
Qed.
End DictDelete.

(** ** Palette keys *)

(** A hex string holds no comma and is not empty, so the hex strings can
    be read off the key that [join] makes of them. *)
Fixpoint commaFree (s : string) : bool :=
  match s with
  | EmptyString => true
  | String c s' => negb (Ascii.eqb c ",") && commaFree s'
  end.

Lemma commaFree_append (s t : string) :
  commaFree (s ++ t) = commaFree s && commaFree t.
Proof.
  induction s as [|c s IH]; simpl; [reflexivity|].
  now rewrite IH, andb_assoc.
Qed.

Lemma of_pos_commaFree :
  forall (p : positive) (rest : string),
    commaFree rest = true -> commaFree (HexString.Raw.of_pos p rest) = true.
Proof.
  fix IH 1. intros p rest Hrest.
  do 4 (try destruct p as [p|p|]); cbn [HexString.Raw.of_pos];
    first [apply IH|idtac]; cbn [commaFree]; exact Hrest.
Qed.

Lemma hexByte_commaFree (v : Z) : commaFree (hexByte v) = true.
Proof.
  assert (Hhex : commaFree (toString16 v) = true).
  { destruct v as [|p|p]; [reflexivity| |]; cbn [toString16 commaFree];
      now apply of_pos_commaFree. }
  unfold hexByte. cbv zeta. now destruct (String.length (toString16 v) =? 1).
Qed.

(** What [join] is given by paletteKey. *)
Definition hexPart (part : string) : Prop :=
  commaFree part = true /\ part <> EmptyString.

Lemma normalizeColorHex_hexPart (color : anyColor) : hexPart (normalizeColorHex color).
Proof.
  unfold hexPart, normalizeColorHex, rgb2hex. cbv zeta. split; [|discriminate].
  change ("#" ++ ?s)%string with (String "#" s). cbn [commaFree].
  now rewrite !commaFree_append, !hexByte_commaFree.
Qed.

Lemma sorted_hexes_hexPart (palette : list anyColor) :
  Forall hexPart (sortBy comparatorAscending (map normalizeColorHex palette)).
Proof.
  eapply Permutation_Forall; [symmetry; apply sortBy_Permutation|].
  apply Forall_forall. intros hex Hin. apply in_map_iff in Hin as (c & <- & _).
  apply normalizeColorHex_hexPart.
Qed.

Lemma join_cons (part : string) (parts : list string) :
  join (part :: parts)
  = (part ++ match parts with
             | [] => ""
             | _ :: _ => "," ++ join parts
             end)%string.
Proof.
  unfold join. destruct parts; simpl.
  - clear. induction part as [|c part IH]; simpl; [reflexivity|now rewrite <- IH].
  - reflexivity.
Qed.

(** Two strings without a comma that are followed by a comma or by
    nothing end at the same place. *)
Lemma append_inj (s1 s2 t1 t2 : string) :
  commaFree s1 = true -> commaFree s2 = true ->
  (t1 = EmptyString \/ exists t, t1 = String "," t) ->
  (t2 = EmptyString \/ exists t, t2 = String "," t) ->
  (s1 ++ t1)%string = (s2 ++ t2)%string -> s1 = s2 /\ t1 = t2.
Proof.
  revert s2; induction s1 as [|c s1 IH]; intros [|c' s2] H1 H2 Ht1 Ht2 Heq;
    simpl in *.
  - now split.
  - exfalso. apply andb_prop in H2 as [Hc _].
    destruct Ht1 as [->|[t ->]]; [discriminate Heq|].
    injection Heq as <- _. discriminate Hc.
  - exfalso. apply andb_prop in H1 as [Hc _].
    destruct Ht2 as [->|[t ->]]; [discriminate Heq|].
    injection Heq as -> _. discriminate Hc.
  - injection Heq as -> Heq.
    apply andb_prop in H1 as [_ H1]. apply andb_prop in H2 as [_ H2].
    destruct (IH s2 H1 H2 Ht1 Ht2 Heq) as [-> ->]. now split.
Qed.

Lemma join_inj (l1 l2 : list string) :
  Forall hexPart l1 -> Forall hexPart l2 -> join l1 = join l2 -> l1 = l2.
Proof.
  intros H1; revert l2; induction H1 as [|x1 l1 [Hx1 Hne1] H1 IH];
    intros l2 H2 Heq; destruct H2 as [|x2 l2 [Hx2 Hne2] H2].
  - reflexivity.
  - exfalso. rewrite join_cons in Heq. destruct x2; [now apply Hne2|discriminate Heq].
  - exfalso. rewrite join_cons in Heq. destruct x1; [now apply Hne1|discriminate Heq].
  - rewrite !join_cons in Heq.
    apply append_inj in Heq as [-> Hrest]; try assumption.
    + f_equal. destruct l1 as [|y1 l1], l2 as [|y2 l2]; try discriminate Hrest.
      * reflexivity.
      * injection Hrest as Hrest. now apply IH.
    + destruct l1; [now left|right; eexists; reflexivity].
    + destruct l2; [now left|right; eexists; reflexivity].
Qed.

(** Palettes under the same key have the same sorted hex strings. *)
Lemma paletteKey_sorted_hexes (p1 p2 : list anyColor) :
  paletteKey p1 = paletteKey p2 ->
  sortBy comparatorAscending (map normalizeColorHex p1)
  = sortBy comparatorAscending (map normalizeColorHex p2).
Proof.
  unfold paletteKey. intros Heq.
  apply join_inj in Heq; [assumption| |]; apply sorted_hexes_hexPart.
Qed.

Lemma paletteKey_longer (palette : list anyColor) (extra : anyColor) :
  paletteKey (palette ++ [extra]) <> paletteKey palette.
Proof.
  intros Heq. apply paletteKey_sorted_hexes in Heq.
  apply (f_equal (@length _)) in Heq.
  rewrite !sortBy_length, !length_map, length_app in Heq. simpl in Heq. lia.
Qed.

Lemma sortBy_all_equal {A} (cmp : A -> A -> Z) (l : list A) :
  (forall a b, cmp a b = 0%Z) -> sortBy cmp l = l.
Proof.
  intros Hcmp. induction l as [|a l IH]; simpl; [reflexivity|].
  fold (sortBy cmp l). rewrite IH. destruct l as [|b l]; simpl; [reflexivity|].
  now rewrite Hcmp.
Qed.

(** The sort of the repaired palette compares [undefined] with
    [undefined] and moves nothing. *)
Lemma sort_repaired_palette (palette : list anyColor) :
  sortBy (fun a b => comparatorAscending (colorProperty a) (colorProperty b)) palette
  = palette.
Proof. now apply sortBy_all_equal. Qed.

(** ** The background repair, one candidate at a time *)

(** Every candidate sits under the key of its palette. *)
Definition keyed (subpalettesByKey : dict Subpalette.t) : Prop :=
  Forall (fun kv => fst kv = paletteKey (Subpalette.palette (snd kv)))
         subpalettesByKey.

(** The test of the repair: fewer than four colours, and the background
    colour (the very object) not among them. *)
Definition needsRepair (sharedBackgroundColor : anyColor) (subpalette : Subpalette.t)
  : bool :=
  (length (Subpalette.palette subpalette) <? COLORS_PER_SUBPALETTE)
  && lacks (Subpalette.palette subpalette) sharedBackgroundColor.

Definition totalTiles (subpalettesByKey : dict Subpalette.t) : nat :=
  list_sum (map Subpalette.tilesUsing (values subpalettesByKey)).

Definition withBackground (sharedBackgroundColor : anyColor) (subpalette : Subpalette.t)
  : Subpalette.t :=
  {| Subpalette.key := Subpalette.key subpalette;
     Subpalette.palette := Subpalette.palette subpalette ++ [sharedBackgroundColor];
     Subpalette.tilesUsing := Subpalette.tilesUsing subpalette |}.

(** The dictionary after the repair of [subpalette], found under [key]. *)
Definition moved (sharedBackgroundColor : anyColor) (key : string)
           (subpalette : Subpalette.t) (subpalettesByKey : dict Subpalette.t)
  : dict Subpalette.t :=
  let newKey := paletteKey (Subpalette.palette subpalette ++ [sharedBackgroundColor]) in
  delete key
    (assign newKey
            match lookup newKey subpalettesByKey with
            | Some existing => addTiles existing (Subpalette.tilesUsing subpalette)
            | None => withBackground sharedBackgroundColor subpalette
            end
            subpalettesByKey).

Lemma repairSubpalette_found bg s k sub :
  lookup k s = Some sub ->
  repairSubpalette bg s k
  = Ok (if needsRepair bg sub then moved bg k sub s else s).
Proof.
  intros Hl. unfold repairSubpalette, needsRepair, moved. rewrite Hl.
  destruct (_ && _); [|reflexivity].
  cbv zeta. rewrite sort_repaired_palette. cbn [Subpalette.tilesUsing].
  unfold withBackground.
  now destruct (lookup (paletteKey (Subpalette.palette sub ++ [bg])) s).
Qed.

Lemma lacks_app_self palette value : lacks (palette ++ [value]) value = false.
Proof.
  unfold lacks. apply negb_false_iff, existsb_exists.
  exists value. split; [apply in_or_app; right; now left|].
  unfold strictEqColor. now destruct (anyColor_eq_dec value value).
Qed.

Section Moved.
Variables (bg : anyColor) (k : string) (sub : Subpalette.t)
          (s : dict Subpalette.t).
Hypothesis Hnd : NoDup (keys s).
Hypothesis Hkeyed : keyed s.
Hypothesis Hfound : lookup k s = Some sub.

Let newKey := paletteKey (Subpalette.palette sub ++ [bg]).
Let entry := match lookup newKey s with
             | Some existing => addTiles existing (Subpalette.tilesUsing sub)
             | None => withBackground bg sub
             end.

Lemma moved_newKey : newKey <> k.
Proof.
  apply lookup_In in Hfound. unfold keyed in Hkeyed.
  rewrite Forall_forall in Hkeyed. specialize (Hkeyed _ Hfound). simpl in Hkeyed.
  rewrite Hkeyed. apply paletteKey_longer.
Qed.

Lemma lookup_moved k' :
  lookup k' (moved bg k sub s)
  = if String.eqb k k' then None
    else if String.eqb newKey k' then Some entry
         else lookup k' s.
Proof. unfold moved. now rewrite lookup_delete, lookup_assign. Qed.

Lemma moved_NoDup : NoDup (keys (moved bg k sub s)).
Proof. unfold moved. now apply delete_NoDup, assign_NoDup. Qed.

Lemma In_moved kv :
  In kv (moved bg k sub s)
  <-> (kv = (newKey, entry) \/ (In kv s /\ fst kv <> newKey /\ fst kv <> k)).
Proof.
  unfold moved. rewrite In_delete, In_assign by assumption.
  fold newKey. fold entry. pose proof moved_newKey as Hne.
  split.
  - intros [[->|[Hin Hne']] Hk]; [now left|right; auto].
  - intros [->|(Hin & Hne' & Hk)]; [split; [now left|assumption]|].
    split; [right; auto|assumption].
Qed.

Lemma entry_palette :
  fst (newKey, entry) = paletteKey (Subpalette.palette (snd (newKey, entry))).
Proof.
  simpl. subst entry. destruct (lookup newKey s) as [existing|] eqn:Hl.
  - apply lookup_In in Hl. unfold keyed in Hkeyed.
    rewrite Forall_forall in Hkeyed. apply (Hkeyed _ Hl).
  - reflexivity.
Qed.

Lemma moved_keyed : keyed (moved bg k sub s).
Proof.
  unfold keyed. apply Forall_forall. intros kv Hin.
  apply In_moved in Hin as [->|(Hin & _)].
  - apply entry_palette.
  - unfold keyed in Hkeyed. rewrite Forall_forall in Hkeyed. now apply Hkeyed.
Qed.

Lemma moved_totalTiles : totalTiles (moved bg k sub s) = totalTiles s.
Proof.
  unfold totalTiles, moved. fold newKey. fold entry.
  assert (Hk : lookup k (assign newKey entry s) = Some sub).
  { rewrite lookup_assign. pose proof moved_newKey as Hne.
    destruct (String.eqb_spec newKey k); [contradiction|assumption]. }
  pose proof (sum_delete Subpalette.tilesUsing k (assign newKey entry s)
                         (assign_NoDup newKey entry s Hnd) Hk) as Hdel.
  pose proof (sum_assign Subpalette.tilesUsing newKey entry s) as Hass.
  subst entry. destruct (lookup newKey s) as [existing|]; simpl in *; lia.
Qed.
End Moved.

(** ** The background repair, all candidates *)

Definition atMostFourColors (subpalettesByKey : dict Subpalette.t) : Prop :=
  Forall (fun kv => length (Subpalette.palette (snd kv)) <= COLORS_PER_SUBPALETTE)
         subpalettesByKey.

Definition allSettled (bg : anyColor) (subpalettesByKey : dict Subpalette.t) : Prop :=
  forall kv, In kv subpalettesByKey -> needsRepair bg (snd kv) = false.

Lemma moved_atMostFourColors bg k sub s :
  NoDup (keys s) -> keyed s -> lookup k s = Some sub ->
  needsRepair bg sub = true ->
  atMostFourColors s -> atMostFourColors (moved bg k sub s).
Proof.
  intros Hnd Hkeyed Hfound Hneeds Hfour. unfold atMostFourColors in *.
  rewrite Forall_forall in *. intros kv Hin.
  apply In_moved in Hin as [->|(Hin & _)]; try assumption; [|now apply Hfour].
  simpl. destruct (lookup (paletteKey (Subpalette.palette sub ++ [bg])) s)
    as [existing|] eqn:Hl.
  - apply lookup_In in Hl. apply (Hfour _ Hl).
  - simpl. rewrite length_app. simpl.
    unfold needsRepair in Hneeds. apply andb_prop in Hneeds as [Hlen _].
    apply Nat.ltb_lt in Hlen. lia.
Qed.

Lemma repair_fold_cons bg k ks s :
  fold_left
    (fun repaired key =>
       subpalettesByKey <- repaired ;; repairSubpalette bg subpalettesByKey key)
    (k :: ks) (Ok s)
  = fold_left
      (fun repaired key =>
         subpalettesByKey <- repaired ;; repairSubpalette bg subpalettesByKey key)
      ks (repairSubpalette bg s k).
Proof. reflexivity. Qed.

Lemma repair_fold bg (ks : list string) (s : dict Subpalette.t) :
  NoDup ks -> incl ks (keys s) -> NoDup (keys s) -> keyed s ->
  exists s',
    fold_left
      (fun repaired key =>
         subpalettesByKey <- repaired ;; repairSubpalette bg subpalettesByKey key)
      ks (Ok s)
    = Ok s'
    /\ NoDup (keys s') /\ keyed s'
    /\ totalTiles s' = totalTiles s
    /\ (atMostFourColors s -> atMostFourColors s')
    /\ ((forall kv, In kv s -> ~ In (fst kv) ks -> needsRepair bg (snd kv) = false) ->
        allSettled bg s').
Proof.
  revert s; induction ks as [|k ks IH]; intros s Hks Hincl Hnd Hkeyed.
  - exists s. simpl. repeat split; auto.
    intros H kv Hin. apply H; auto.
  - inversion Hks as [|? ? Hk Hks']; subst.
    destruct (In_keys_lookup k s (Hincl k (or_introl eq_refl))) as [sub Hfound].
    rewrite repair_fold_cons, (repairSubpalette_found bg _ _ Hfound).
    destruct (needsRepair bg sub) eqn:Hneeds.
    + destruct (IH (moved bg k sub s)) as (s' & Hfold & Hnd' & Hkeyed' & Htotal & Hfour & Hsettled).
      * assumption.
      * intros k' Hk'. assert (k' <> k) by congruence.
        destruct (In_keys_lookup k' s (Hincl k' (or_intror Hk'))) as [sub' Hsub'].
        assert (Hl : exists v, lookup k' (moved bg k sub s) = Some v).
        { rewrite lookup_moved.
          destruct (String.eqb_spec k k'); [congruence|].
          destruct (String.eqb _ k'); eauto. }
        destruct Hl as [v Hl]. apply lookup_In in Hl. eapply In_keys; eassumption.
      * now apply moved_NoDup.
      * now apply moved_keyed.
      * exists s'. split; [assumption|]. split; [assumption|]. split; [assumption|].
        split; [|split].
        -- rewrite Htotal. now apply moved_totalTiles.
        -- intros H. apply Hfour. now apply moved_atMostFourColors.
        -- intros H. apply Hsettled. intros kv Hin Hnot.
           apply In_moved in Hin as [->|(Hin & Hne & Hne')]; try assumption.
           ++ simpl in *.
              destruct (lookup (paletteKey (Subpalette.palette sub ++ [bg])) s)
                as [existing|] eqn:Hl.
              ** apply lookup_In in Hl.
                 assert (Hex : needsRepair bg existing = false).
                 { apply (H _ Hl). simpl. intros [Heq|Hin'].
                   - symmetry in Heq.
                     exact (@moved_newKey bg k sub s Hkeyed Hfound Heq).
                   - contradiction. }
                 exact Hex.
              ** unfold needsRepair, withBackground. simpl.
                 rewrite lacks_app_self. apply andb_false_r.
           ++ apply H; [assumption|]. intros [Heq|Hin']; [congruence|contradiction].
    + destruct (IH s) as (s' & Hfold & Hnd' & Hkeyed' & Htotal & Hfour & Hsettled);
        try assumption.
      * intros k' Hk'. apply Hincl. now right.
      * exists s'. repeat split; try assumption.
        intros H. apply Hsettled. intros kv Hin Hnot.
        destruct (String.eqb_spec (fst kv) k) as [Heq|Hne].
        -- destruct kv as [k' sub']. simpl in *. subst k'.
           apply (In_lookup _ _ _ Hnd) in Hin. congruence.
        -- apply H; [assumption|]. intros [Heq|Hin']; [congruence|contradiction].
Qed.

(** The pass leaves a dictionary in which nothing needs repair, with the
    same number of tile uses in total. *)
Lemma repairSubpalettes_spec bg s :
  NoDup (keys s) -> keyed s ->
  exists s',
    repairSubpalettes bg s = Ok s'
    /\ NoDup (keys s') /\ keyed s'
    /\ totalTiles s' = totalTiles s
    /\ (atMostFourColors s -> atMostFourColors s')
    /\ allSettled bg s'.
Proof.
  intros Hnd Hkeyed.
  destruct (@repair_fold bg (keys s) s Hnd (incl_refl _) Hnd Hkeyed)
    as (s' & Hfold & Hnd' & Hkeyed' & Htotal & Hfour & Hsettled).
  exists s'. repeat split; try assumption.
  apply Hsettled. intros kv Hin Hnot. exfalso. apply Hnot.
  destruct kv. eapply In_keys; eassumption.
Qed.

(** Nothing happens to a dictionary in which nothing needs repair. *)
Lemma repairSubpalettes_settled bg s :
  allSettled bg s -> repairSubpalettes bg s = Ok s.
Proof.
  intros Hsettled. unfold repairSubpalettes.
  assert (H : forall ks, incl ks (keys s) ->
                fold_left
                  (fun repaired key =>
                     subpalettesByKey <- repaired ;;
                     repairSubpalette bg subpalettesByKey key)
                  ks (Ok s) = Ok s).
  { induction ks as [|k ks IH]; intros Hincl; [reflexivity|].
    destruct (In_keys_lookup k s (Hincl k (or_introl eq_refl))) as [sub Hfound].
    rewrite repair_fold_cons, (repairSubpalette_found bg _ _ Hfound).
    pose proof (Hsettled (k, sub) (lookup_In _ _ Hfound)) as Hsub.
    simpl in Hsub. rewrite Hsub.
    apply IH. intros k' Hk'. apply Hincl. now right. }
  apply H, incl_refl.
Qed.

(** ** C6 and C7: what the repair does to a candidate, and doing it twice *)

Lemma lacks_by_value (palette : list anyColor) (bg : anyColor) :
  (forall c, In c palette -> normalizeColorHex c <> normalizeColorHex bg) ->
  lacks palette bg = true.
Proof.
  intros Hvalue. unfold lacks. apply negb_true_iff.
  destruct (existsb _ palette) eqn:Hex; [|reflexivity].
  apply existsb_exists in Hex as (c & Hin & Heq).
  apply strictEqColor_true in Heq. subst c. now destruct (Hvalue bg Hin).
Qed.

(** Palettes under the same key have the same colours, by value. *)
Lemma paletteKey_same_hexes (p1 p2 : list anyColor) :
  paletteKey p1 = paletteKey p2 ->
  Permutation (map normalizeColorHex p1) (map normalizeColorHex p2).
Proof.
  intros Heq. apply paletteKey_sorted_hexes in Heq.
  rewrite <- (sortBy_Permutation comparatorAscending (map normalizeColorHex p1)).
  rewrite Heq. apply sortBy_Permutation.
Qed.

(** Once the pass is over, no candidate sits under the key of a palette
    that had fewer than four colours and not the background colour. *)
Lemma settled_key_gone bg s' k (palette : list anyColor) :
  keyed s' -> allSettled bg s' ->
  k = paletteKey palette ->
  length palette < COLORS_PER_SUBPALETTE ->
  (forall c, In c palette -> normalizeColorHex c <> normalizeColorHex bg) ->
  lookup k s' = None.
Proof.
  intros Hkeyed Hsettled Hk Hlen Hvalue.
  destruct (lookup k s') as [left|] eqn:Hleft; [|reflexivity]. exfalso.
  apply lookup_In in Hleft. pose proof (Hsettled _ Hleft) as Hdone.
  unfold keyed in Hkeyed. rewrite Forall_forall in Hkeyed.
  pose proof (Hkeyed _ Hleft) as Hk'. simpl in Hdone, Hk'.
  rewrite Hk in Hk'. apply paletteKey_same_hexes in Hk'.
  unfold needsRepair in Hdone. apply andb_false_iff in Hdone as [Hdone|Hdone].
  - apply Nat.ltb_ge in Hdone. apply Permutation_length in Hk'.
    rewrite !length_map in Hk'. lia.
  - unfold lacks in Hdone.
    apply negb_false_iff, existsb_exists in Hdone as (c & Hin & Heq).
    apply strictEqColor_true in Heq. subst c.
    assert (Hhex : In (normalizeColorHex bg) (map normalizeColorHex palette)).
    { eapply Permutation_in; [symmetry; exact Hk'|]. now apply in_map. }
    apply in_map_iff in Hhex as (c & Hc & Hin'). now apply (Hvalue c).
Qed.

(** C6: a candidate with fewer than four colours, none of them the
    background colour, is repaired by appending the background colour and
    recomputing its key; the entry under the old key is removed; if the new
    key is taken, the entry found there survives and receives the
    candidate's tilesUsing, otherwise the candidate moves there with its
    tilesUsing; nothing else changes, so the tile uses of all candidates
    add up to what they were, also after the whole pass. *)
Theorem repair_appends_background
        (bg : anyColor) (subpalettesByKey : dict Subpalette.t)
        (key : string) (subpalette : Subpalette.t) :
  NoDup (keys subpalettesByKey) ->
  keyed subpalettesByKey ->
  lookup key subpalettesByKey = Some subpalette ->
  length (Subpalette.palette subpalette) < COLORS_PER_SUBPALETTE ->
  (forall c, In c (Subpalette.palette subpalette) ->
             normalizeColorHex c <> normalizeColorHex bg) ->
  let newPalette := Subpalette.palette subpalette ++ [bg] in
  let newKey := paletteKey newPalette in
  (exists repaired,
      repairSubpalette bg subpalettesByKey key = Ok repaired
      /\ lookup key repaired = None
      /\ lookup newKey repaired
         = Some match lookup newKey subpalettesByKey with
                | Some existing =>
                  {| Subpalette.key := Subpalette.key existing;
                     Subpalette.palette := Subpalette.palette existing;
                     Subpalette.tilesUsing :=
                       Subpalette.tilesUsing existing
                       + Subpalette.tilesUsing subpalette |}
                | None =>
                  {| Subpalette.key := Subpalette.key subpalette;
                     Subpalette.palette := newPalette;
                     Subpalette.tilesUsing := Subpalette.tilesUsing subpalette |}
                end
      /\ (forall other, other <> key -> other <> newKey ->
            lookup other repaired = lookup other subpalettesByKey)
      /\ totalTiles repaired = totalTiles subpalettesByKey)
  /\ length newPalette = length (Subpalette.palette subpalette) + 1
  /\ In bg newPalette
  /\ (exists allRepaired,
         repairSubpalettes bg subpalettesByKey = Ok allRepaired
         /\ totalTiles allRepaired = totalTiles subpalettesByKey
         /\ lookup key allRepaired = None).
Proof.
  intros Hnd Hkeyed Hfound Hlen Hvalue newPalette newKey.
  assert (Hneeds : needsRepair bg subpalette = true).
  { unfold needsRepair. apply andb_true_intro. split.
    - now apply Nat.ltb_lt.
    - now apply lacks_by_value. }
  split; [|split; [|split]].
  - exists (moved bg key subpalette subpalettesByKey).
    rewrite (repairSubpalette_found bg _ _ Hfound), Hneeds.
    split; [reflexivity|]. split; [|split; [|split]].
    + rewrite lookup_moved. now rewrite String.eqb_refl.
    + rewrite lookup_moved. fold newPalette. fold newKey.
      pose proof (@moved_newKey bg key subpalette subpalettesByKey Hkeyed Hfound) as Hne.
      fold newPalette in Hne. fold newKey in Hne.
      destruct (String.eqb_spec key newKey) as [Heq|_]; [now symmetry in Heq|].
      rewrite String.eqb_refl. reflexivity.
    + intros other Hother Hother'. rewrite lookup_moved.
      destruct (String.eqb_spec key other); [congruence|].
      fold newPalette. fold newKey.
      destruct (String.eqb_spec newKey other); [congruence|reflexivity].
    + now apply moved_totalTiles.
  - subst newPalette. rewrite length_app. reflexivity.
  - apply in_or_app. right. now left.
  - destruct (repairSubpalettes_spec bg Hnd Hkeyed)
      as (s' & Hpass & Hnd' & Hkeyed' & Htotal & _ & Hsettled).
    exists s'. split; [assumption|]. split; [assumption|].
    apply (@settled_key_gone bg s' key (Subpalette.palette subpalette)
                             Hkeyed' Hsettled);
      try assumption.
    unfold keyed in Hkeyed. rewrite Forall_forall in Hkeyed.
    apply (Hkeyed _ (lookup_In _ _ Hfound)).
Qed.

(** C7: for a candidate set whose members all have the background colour,
    the repair pass applied to its own result changes nothing. *)
Theorem repair_twice_is_repair_once
        (bg : anyColor) (subpalettesByKey : dict Subpalette.t) :
  NoDup (keys subpalettesByKey) ->
  keyed subpalettesByKey ->
  (forall kv, In kv subpalettesByKey -> hasBackgroundColor bg (snd kv) = true) ->
  exists once,
    repairSubpalettes bg subpalettesByKey = Ok once
    /\ repairSubpalettes bg once = Ok once.
Proof.
  intros Hnd Hkeyed _.
  destruct (repairSubpalettes_spec bg Hnd Hkeyed)
    as (once & Hpass & _ & _ & _ & _ & Hsettled).
  exists once. split; [assumption|]. now apply repairSubpalettes_settled.
Qed.

(** The scenario of the specification: a candidate of three colours
    without the background colour, and a candidate of four colours that
    already sits under the key the repair will compute. *)
Definition red : anyColor := ColorArray RFresh [255; 0; 0]%Z.
Definition blue : anyColor := ColorArray (RPixel 0 0) [0; 0; 255]%Z.
Definition green : anyColor := ColorArray (RPixel 0 1) [0; 255; 0]%Z.
Definition white : anyColor := ColorArray (RPixel 0 2) [255; 255; 255]%Z.
Definition otherRed : anyColor := ColorArray (RPixel 1 0) [255; 0; 0]%Z.

Definition threeColors : Subpalette.t :=
  {| Subpalette.key := paletteKey [blue; green; white];
     Subpalette.palette := [blue; green; white];
     Subpalette.tilesUsing := 2 |}.

Definition fourColors : Subpalette.t :=
  {| Subpalette.key := paletteKey [otherRed; blue; green; white];
     Subpalette.palette := [otherRed; blue; green; white];
     Subpalette.tilesUsing := 5 |}.

Definition twoCandidates : dict Subpalette.t :=
  [ (Subpalette.key threeColors, threeColors);
    (Subpalette.key fourColors, fourColors) ].

Lemma twoCandidates_NoDup : NoDup (keys twoCandidates).
Proof. vm_compute. repeat constructor; simpl; intuition discriminate. Qed.

Lemma twoCandidates_keyed : keyed twoCandidates.
Proof. repeat constructor. Qed.

Lemma repair_appends_background_witness :
  exists repaired,
    repairSubpalette red twoCandidates (Subpalette.key threeColors) = Ok repaired
    /\ lookup (Subpalette.key threeColors) repaired = None
    /\ lookup (Subpalette.key fourColors) repaired
       = Some {| Subpalette.key := Subpalette.key fourColors;
                 Subpalette.palette := [otherRed; blue; green; white];
                 Subpalette.tilesUsing := 5 + 2 |}
    /\ totalTiles repaired = 7.
Proof.
  destruct (@repair_appends_background
              red twoCandidates (Subpalette.key threeColors) threeColors
              twoCandidates_NoDup twoCandidates_keyed eq_refl)
    as [(repaired & Hstep & Hgone & Hmerged & _ & Htotal) _].
  - unfold COLORS_PER_SUBPALETTE. simpl. lia.
  - intros c [<-|[<-|[<-|[]]]]; vm_compute; discriminate.
  - exists repaired. split; [assumption|]. split; [assumption|]. split.
    + exact Hmerged.
    + rewrite Htotal. reflexivity.
Defined.

(** A candidate that has the background colour by value, in an array of
    its own: the first pass appends the background colour object, the
    second finds it there. *)
Definition redAndBlue : dict Subpalette.t :=
  [ (paletteKey [otherRed; blue],
     {| Subpalette.key := paletteKey [otherRed; blue];
        Subpalette.palette := [otherRed; blue];
        Subpalette.tilesUsing := 3 |}) ].

Lemma repair_twice_is_repair_once_witness :
  exists once,
    repairSubpalettes red redAndBlue = Ok once
    /\ repairSubpalettes red once = Ok once.
Proof.
  apply (repair_twice_is_repair_once red (subpalettesByKey := redAndBlue)).
  - vm_compute. repeat constructor. intros [].
  - repeat constructor.
  - intros kv [<-|[]]. reflexivity.
Defined.

(** ** C8: the background colour of the run *)

(** The comparator that ranks the colours: [a] goes after [b] when it has
    fewer pixels, or as many pixels and fewer tiles. *)
Lemma rank_comparator (a b : ColorUsage.t) :
  (0 <? orElseCompare
          (comparatorDescending (ColorUsage.pixelsUsing a) (ColorUsage.pixelsUsing b))
          (comparatorDescending (ColorUsage.tilesUsing a) (ColorUsage.tilesUsing b)))%Z
  = (ColorUsage.pixelsUsing a <? ColorUsage.pixelsUsing b)
    || ((ColorUsage.pixelsUsing a =? ColorUsage.pixelsUsing b)
        && (ColorUsage.tilesUsing a <? ColorUsage.tilesUsing b)).
Proof.
  unfold orElseCompare, comparatorDescending. simpl strictEq. simpl lessThan.
  destruct (Nat.eqb_spec (ColorUsage.pixelsUsing a) (ColorUsage.pixelsUsing b)) as [Hp|Hp].
  - rewrite Hp, Nat.ltb_irrefl. simpl.
    destruct (Nat.eqb_spec (ColorUsage.tilesUsing a) (ColorUsage.tilesUsing b)) as [Ht|Ht].
    + rewrite Ht, Nat.ltb_irrefl. reflexivity.
    + destruct (Nat.ltb_spec (ColorUsage.tilesUsing b) (ColorUsage.tilesUsing a));
        destruct (Nat.ltb_spec (ColorUsage.tilesUsing a) (ColorUsage.tilesUsing b));
        simpl; try reflexivity; lia.
  - destruct (Nat.ltb_spec (ColorUsage.pixelsUsing b) (ColorUsage.pixelsUsing a));
      destruct (Nat.ltb_spec (ColorUsage.pixelsUsing a) (ColorUsage.pixelsUsing b));
      simpl; try reflexivity; lia.
Qed.




Definition redTile : ImageData :=
  {| width := 2; height := 1; data := [255; 0; 0; 255;  255; 0; 0; 255]%Z |}.


(** ** The candidates that the aggregation builds *)








(** ** C1: the candidate pool *)


Definition NO_BACKGROUND : string := "No color palettes have the background color!".


Section Pool.

Variable shuffle : list Subpalette.t -> list Subpalette.t.
Hypothesis shuffle_permutes : forall l, Permutation (shuffle l) l.


End Pool.

Definition noOptions : Options :=
  {| backgroundColor := None; customPalette := None |}.



Definition fourColors2x2 : ImageData :=
  {| width := 2; height := 2;
     data := [255; 0; 0; 255;  0; 255; 0; 255;
              255; 255; 255; 255;  0; 0; 0; 255]%Z |}.

(** Four colours in the sample tile and a background colour that is none
    of them: every candidate is full, none passes the filter, the run
    aborts. *)
Lemma candidatePool_aborts :
  candidatePool (@rev Subpalette.t)
                {| backgroundColor := Some (ColorString "#0000ff");
                   customPalette := None |}
                [fourColors2x2; fourColors2x2]
  = Throw NO_BACKGROUND.
Proof. vm_compute. reflexivity. Qed.

(** ** C2: the subpalette a tile is given *)

Lemma nth_error_combine_seq {A} (l : list A) (start i : nat) :
  nth_error (combine l (seq start (length l))) i
  = option_map (fun a => (a, start + i)) (nth_error l i).
Proof.
  revert start i; induction l as [|b l IH]; intros start [|i]; simpl;
    try reflexivity.
  - now rewrite Nat.add_0_r.
  - rewrite IH. destruct (nth_error l i); simpl; [|reflexivity].
    do 2 f_equal. lia.
Qed.

Lemma nth_error_indexed {A} (l : list A) (i : nat) :
  nth_error (indexed l) i = option_map (fun a => (a, i)) (nth_error l i).
Proof. unfold indexed. now rewrite nth_error_combine_seq. Qed.

Lemma setNth_length {A} (i : nat) (value : A) (array : list A) :
  length (setNth i value array) = length array.
Proof.
  revert i; induction array as [|first rest IH]; intros [|i]; simpl; auto.
Qed.

Section Nearest.

Variable ditherjs : ImageData -> list anyColor -> ImageData.
Variable sortPalette : anyColor -> list anyColor -> list anyColor.
Variables (sharedBackgroundColor : anyColor) (globalPalette : list anyColor).

(** The distance of a candidate's rendering of a tile from the rendering
    with the global palette. *)
Definition candidateDistance (tile : Tile) (candidate : Subpalette.t) : float :=
  imageDataDistance
    (ditherImageData ditherjs (srcImgData tile) globalPalette)
    (ditherImageData ditherjs (srcImgData tile) (Subpalette.palette candidate)).

(** The option a tile chooses is the first among those of least distance. *)
Definition firstNearest (tile : Tile) (candidates : list Subpalette.t)
           (best : TileOption) : Prop :=
  nth_error candidates (index best) = Some (subpalette best)
  /\ subpaletteImgData best
     = ditherImageData ditherjs (srcImgData tile)
                       (Subpalette.palette (subpalette best))
  /\ distance best = candidateDistance tile (subpalette best)
  /\ (forall candidate, In candidate candidates ->
        PrimFloat.leb (distance best) (candidateDistance tile candidate) = true)
  /\ (forall j candidate, j < index best -> nth_error candidates j = Some candidate ->
        PrimFloat.ltb (distance best) (candidateDistance tile candidate) = true).

Definition distancesAreNumbers (tile : Tile) (candidates : list Subpalette.t) : Prop :=
  Forall (fun candidate => notNaN (candidateDistance tile candidate)) candidates.

Lemma assignTile_total (subpalettes : list Subpalette.t) (tile : Tile) :
  subpalettes <> [] ->
  exists best subpalettes',
    assignTile ditherjs sortPalette sharedBackgroundColor globalPalette subpalettes tile
    = Ok (best, subpalettes')
    /\ length subpalettes' = length subpalettes
    /\ (distancesAreNumbers tile subpalettes -> firstNearest tile subpalettes best).
Proof.
  intros Hne. unfold assignTile, tileImgDataOptions.
  set (tileImgData := ditherImageData ditherjs (srcImgData tile) globalPalette).
  set (render := fun '(subpalette, index) =>
                   {| distance :=
                        imageDataDistance
                          tileImgData
                          (ditherImageData ditherjs (srcImgData tile)
                                           (Subpalette.palette subpalette));
                      index := index;
                      subpalette := subpalette;
                      subpaletteImgData :=
                        ditherImageData ditherjs (srcImgData tile)
                                        (Subpalette.palette subpalette) |}).
  set (cmp := fun a b : TileOption => comparatorAscending (distance a) (distance b)).
  destruct (sortBy cmp (map render (indexed subpalettes))) as [|best rest] eqn:Hsort.
  - exfalso. apply (f_equal (@length _)) in Hsort.
    rewrite sortBy_length, length_map in Hsort. unfold indexed in Hsort.
    rewrite length_combine, length_seq, Nat.min_id in Hsort.
    destruct subpalettes; [contradiction|discriminate].
  - eexists. eexists. split; [reflexivity|]. split; [apply setNth_length|].
    intros Hnumbers.
    destruct (@sortBy_distance_head _ distance (map render (indexed subpalettes)))
      as (i & h & rest' & Hsort' & Hnth & Hmin & Hfirst).
    + apply Forall_forall. intros o Ho.
      apply in_map_iff in Ho as ([candidate j] & <- & Hin). simpl.
      apply in_indexed_l in Hin. unfold distancesAreNumbers in Hnumbers.
      rewrite Forall_forall in Hnumbers. apply (Hnumbers _ Hin).
    + destruct subpalettes; [contradiction|]. rewrite indexed_cons. discriminate.
    + fold cmp in Hsort'. rewrite Hsort in Hsort'. injection Hsort' as <- <-.
      apply nth_error_map_Some in Hnth as ([candidate j] & Hentry & ->).
      rewrite nth_error_indexed in Hentry.
      destruct (nth_error subpalettes i) as [candidate'|] eqn:Hi; [|discriminate].
      injection Hentry as <- <-.
      assert (Hrendered : forall j other,
                 nth_error subpalettes j = Some other ->
                 nth_error (map render (indexed subpalettes)) j
                 = Some (render (other, j))).
      { intros j other Hj. rewrite nth_error_map, nth_error_indexed, Hj. reflexivity. }
      unfold firstNearest. simpl.
      split; [assumption|]. split; [reflexivity|]. split; [reflexivity|]. split.
      * intros other Hother.
        destruct (In_nth_error _ _ Hother) as [j Hj].
        apply (Hmin (render (other, j))).
        eapply nth_error_In. now apply Hrendered.
      * intros j other Hj Hother.
        apply (Hfirst j (render (other, j)) Hj). now apply Hrendered.
Qed.

End Nearest.

(** *** Sums of square roots are numbers *)

Definition sfNonNeg (f : spec_float) : Prop := SFleb (S754_zero false) f = true.

Lemma shr_1_nonneg mrs : (0 <= shr_m mrs)%Z -> (0 <= shr_m (shr_1 mrs))%Z.
Proof. destruct mrs as [[|[p|p|]|p] r s]; simpl; lia. Qed.

Lemma iter_shr_1_nonneg p : forall mrs,
  (0 <= shr_m mrs)%Z -> (0 <= shr_m (iter_pos shr_1 p mrs))%Z.
Proof.
  induction p as [p IH|p IH|]; intros mrs H; simpl.
  - apply IH, IH, shr_1_nonneg, H.
  - apply IH, IH, H.
  - now apply shr_1_nonneg.
Qed.

Lemma shr_fexp_nonneg m e l :
  (0 <= m)%Z -> (0 <= shr_m (fst (shr_fexp prec emax m e l)))%Z.
Proof.
  intros H. unfold shr_fexp, shr.
  assert (H0 : (0 <= shr_m (shr_record_of_loc m l))%Z)
    by (destruct l as [|[| |]]; simpl; assumption).
  destruct (fexp prec emax (Zdigits2 m + e) - e)%Z; simpl; try assumption.
  now apply iter_shr_1_nonneg.
Qed.

Lemma round_nearest_even_nonneg m l : (0 <= m)%Z -> (0 <= round_nearest_even m l)%Z.
Proof.
  intros H. unfold round_nearest_even.
  destruct l as [|[| |]]; try lia. destruct (Z.even m); lia.
Qed.

Lemma binary_round_aux_nonneg mx ex lx :
  (0 <= mx)%Z -> sfNonNeg (binary_round_aux prec emax false mx ex lx).
Proof.
  intros H. unfold binary_round_aux.
  pose proof (@shr_fexp_nonneg mx ex lx H) as H1.
  destruct (shr_fexp prec emax mx ex lx) as [mrs' e']. simpl in H1.
  pose proof (@shr_fexp_nonneg _ e' loc_Exact
                (@round_nearest_even_nonneg _ (loc_of_shr_record mrs') H1)) as H2.
  destruct (shr_fexp prec emax _ e' loc_Exact) as [mrs'' e'']. simpl in H2.
  destruct (shr_m mrs''); try lia; try reflexivity.
  now destruct (e'' <=? emax - prec)%Z.
Qed.

Lemma SFadd_nonneg x y : sfNonNeg x -> sfNonNeg y -> sfNonNeg (SFadd prec emax x y).
Proof.
  unfold sfNonNeg. intros Hx Hy.
  destruct x as [sx|sx| |sx mx ex], y as [sy|sy| |sy my ey];
    try destruct sx; try destruct sy; simpl in *;
    try discriminate; try reflexivity.
  unfold binary_normalize.
  set (a := fst (shl_align mx ex (Z.min ex ey))).
  set (b := fst (shl_align my ey (Z.min ex ey))).
  change (Z.pos a + Z.pos b)%Z with (Z.pos (a + b)).
  unfold binary_round.
  destruct (shl_align (a + b) _ _) as [mz ez].
  now apply binary_round_aux_nonneg.
Qed.

Lemma SFsqrt_nonneg x : sfNonNeg x -> sfNonNeg (SFsqrt prec emax x).
Proof.
  unfold sfNonNeg. intros Hx.
  destruct x as [sx|sx| |sx mx ex]; try destruct sx; simpl in *;
    try discriminate; try reflexivity.
  unfold SFsqrt_core_binary.
  set (m' := match _ with Z.pos _ => _ | 0%Z => Z.pos mx | Z.neg _ => 0%Z end).
  pose proof (Z.sqrtrem_spec m') as Hs.
  destruct (Z.sqrtrem m') as [q r] eqn:Hq.
  assert (Hq0 : (0 <= q)%Z).
  { pose proof (Z.sqrtrem_sqrt m') as H. rewrite Hq in H. simpl in H. subst q.
    apply Z.sqrt_nonneg. }
  now apply binary_round_aux_nonneg.
Qed.

Definition nonNeg (x : float) : Prop := PrimFloat.leb PrimFloat.zero x = true.

Lemma nonNeg_sf x : nonNeg x <-> sfNonNeg (Prim2SF x).
Proof. unfold nonNeg, sfNonNeg. rewrite leb_spec. reflexivity. Qed.

Lemma add_nonNeg x y : nonNeg x -> nonNeg y -> nonNeg (PrimFloat.add x y).
Proof. rewrite !nonNeg_sf, add_spec. apply SFadd_nonneg. Qed.

Lemma sqrt_nonNeg x : nonNeg x -> nonNeg (PrimFloat.sqrt x).
Proof. rewrite !nonNeg_sf, sqrt_spec. apply SFsqrt_nonneg. Qed.

Lemma nonNeg_notNaN x : nonNeg x -> notNaN x.
Proof.
  unfold notNaN, nonNeg, PrimFloat.is_nan. rewrite leb_spec, eqb_spec.
  destruct (Prim2SF x) as [s|s| |s m e]; simpl; try discriminate; try reflexivity.
  - intros _. unfold SFeqb. simpl. destruct s; reflexivity.
  - intros _. unfold SFeqb. simpl.
    destruct s; rewrite Z.compare_refl, Pos.compare_cont_refl; reflexivity.
Qed.

Definition byte (v : Z) : Prop := (0 <= v < 256)%Z.

Lemma square_difference_nonNeg :
  forallb (fun a =>
             forallb (fun b => PrimFloat.leb PrimFloat.zero
                                             (square (PrimFloat.sub a b)))
                     byteOperands)
          byteOperands = true.
Proof. vm_compute. reflexivity. Qed.

Lemma byteOperand_byte v : byte v -> In (numberOfZ v) byteOperands.
Proof.
  intros Hv. rewrite <- (Z.mod_small v 256) by exact Hv. apply byteOperand_In.
Qed.

Lemma colorDistance_bytes id id' a0 a1 a2 b0 b1 b2 :
  byte a0 -> byte a1 -> byte b0 -> byte b1 -> byte b2 ->
  nonNeg (colorDistance (ColorArray id [a0; a1; a2]) (ColorArray id' [b0; b1; b2])).
Proof.
  intros Ha0 Ha1 Hb0 Hb1 Hb2. unfold colorDistance.
  cbn [channels normalizeColor operand nth_error].
  pose proof square_difference_nonNeg as Hall.
  assert (Hsq : forall a b, byte a -> byte b ->
                  nonNeg (square (PrimFloat.sub (numberOfZ a) (numberOfZ b)))).
  { intros a b Ha Hb. rewrite forallb_forall in Hall.
    specialize (Hall _ (byteOperand_byte Ha)). rewrite forallb_forall in Hall.
    apply (Hall _ (byteOperand_byte Hb)). }
  apply sqrt_nonNeg, add_nonNeg; [apply add_nonNeg|]; now apply Hsq.
Qed.

Lemma skipn_In {A} (n : nat) (l : list A) (a : A) : In a (skipn n l) -> In a l.
Proof.
  intros Hin. rewrite <- (firstn_skipn n l). apply in_or_app. now right.
Qed.

Lemma slice_three {A} (i : nat) (l : list A) :
  i + 3 <= length l ->
  exists a b c, slice i (i + 3) l = [a; b; c] /\ In a l /\ In b l /\ In c l.
Proof.
  intros Hlen. unfold slice. replace (i + 3 - i) with 3 by lia.
  pose proof (length_skipn i l) as Hskip.
  assert (Hin : forall a, In a (skipn i l) -> In a l) by apply skipn_In.
  destruct (skipn i l) as [|a [|b [|c rest]]]; simpl in Hskip; try lia.
  exists a, b, c. simpl. repeat split; apply Hin; simpl; auto.
Qed.

(** For two buffers of equal length, a multiple of four, holding bytes,
    imageDataDistance is a number. *)
Lemma imageDataDistance_number (imgDataA imgDataB : ImageData) (pixels : nat) :
  length (data imgDataA) = rgbaOffset pixels ->
  length (data imgDataB) = length (data imgDataA) ->
  Forall byte (data imgDataA) -> Forall byte (data imgDataB) ->
  notNaN (imageDataDistance imgDataA imgDataB).
Proof.
  intros HlenA HlenB HA HB. apply nonNeg_notNaN. unfold imageDataDistance.
  assert (Hfold : forall offsets acc,
             (forall i, In i offsets -> i + 3 <= length (data imgDataA)) ->
             nonNeg acc ->
             nonNeg (fold_left
                       (fun distance i =>
                          PrimFloat.add distance
                            (colorDistance
                               (ColorArray RFresh (slice i (i + 3) (data imgDataA)))
                               (ColorArray RFresh (slice i (i + 3) (data imgDataB)))))
                       offsets acc)).
  { induction offsets as [|i offsets IH]; intros acc Hoffsets Hacc; simpl;
      [assumption|].
    apply IH; [intros j Hj; apply Hoffsets; now right|].
    apply add_nonNeg; [assumption|].
    pose proof (Hoffsets i (or_introl eq_refl)) as Hi.
    destruct (slice_three i (data imgDataA) Hi) as (a0 & a1 & a2 & -> & Ha0 & Ha1 & _).
    rewrite <- HlenB in Hi.
    destruct (slice_three i (data imgDataB) Hi) as (b0 & b1 & b2 & -> & Hb0 & Hb1 & Hb2).
    rewrite Forall_forall in HA, HB.
    apply colorDistance_bytes; auto. }
  apply Hfold; [|reflexivity].
  intros i Hi. unfold pixelOffsets in Hi. apply in_map_iff in Hi as (p & <- & Hp).
  apply in_seq in Hp. rewrite HlenA, pixelCount_exact in Hp.
  rewrite HlenA. unfold rgbaOffset, RGBA_BYTES. lia.
Qed.

(** What the program relies on DitherJS for: it writes bytes into the
    buffer it is given and leaves the buffer's length alone. *)
Definition keepsShape (ditherjs : ImageData -> list anyColor -> ImageData) : Prop :=
  forall imgData palette,
    length (data (ditherjs imgData palette)) = length (data imgData)
    /\ Forall byte (data (ditherjs imgData palette)).

Lemma candidateDistance_number ditherjs globalPalette tile candidate :
  keepsShape ditherjs ->
  length (data (srcImgData tile))
  <= rgbaOffset (width (srcImgData tile) * height (srcImgData tile)) ->
  notNaN (candidateDistance ditherjs globalPalette tile candidate).
Proof.
  intros Hshape Htile. unfold candidateDistance, ditherImageData.
  cbn [width height data newImageData].
  set (copy := {| width := width (srcImgData tile);
                  height := height (srcImgData tile);
                  data := setAt (data (srcImgData tile)) 0
                                (repeat 0%Z (rgbaOffset (width (srcImgData tile)
                                                         * height (srcImgData tile)))) |}).
  assert (Hcopy : length (data copy)
                  = rgbaOffset (width (srcImgData tile) * height (srcImgData tile))).
  { unfold copy; cbn [data].
    rewrite setAt_length; rewrite repeat_length; [reflexivity | exact Htile]. }
  destruct (Hshape copy (normalizeDitherPalette globalPalette)) as [Hlen Hbytes].
  destruct (Hshape copy (normalizeDitherPalette (Subpalette.palette candidate)))
    as [Hlen' Hbytes'].
  apply (@imageDataDistance_number
           _ _ (width (srcImgData tile) * height (srcImgData tile)));
    try assumption.
  - rewrite Hlen. exact Hcopy.
  - now rewrite Hlen, Hlen'.
Qed.

(** C2: the tile loop gives every tile an option; that option is the
    rendering with one of the subpalettes the tile found in the pool, it
    has the least distance (imageDataDistance) from the tile's rendering
    with the global palette, and every subpalette in front of it in the
    pool has a strictly greater distance. *)
Theorem every_tile_gets_first_nearest
        (ditherjs : ImageData -> list anyColor -> ImageData)
        (sortPalette : anyColor -> list anyColor -> list anyColor)
        (sharedBackgroundColor : anyColor) (globalPalette : list anyColor)
        (subpalettes : list Subpalette.t) (tiles : list Tile) :
  keepsShape ditherjs ->
  (forall tile, In tile tiles ->
     length (data (srcImgData tile))
     <= rgbaOffset (width (srcImgData tile) * height (srcImgData tile))) ->
  subpalettes <> [] ->
  exists assigned,
    assignTiles ditherjs sortPalette sharedBackgroundColor globalPalette
                subpalettes tiles
    = Ok assigned
    /\ map (fun a => fst (fst a)) assigned = tiles
    /\ forall tile candidates best,
         In (tile, candidates, best) assigned ->
         length candidates = length subpalettes
         /\ firstNearest ditherjs globalPalette tile candidates best.
Proof.
  intros Hshape. revert subpalettes.
  induction tiles as [|tile tiles IH]; intros subpalettes Htiles Hne.
  - exists []. repeat split; destruct H.
  - destruct (@assignTile_total ditherjs sortPalette sharedBackgroundColor
                                globalPalette subpalettes tile Hne)
      as (best & subpalettes' & Hstep & Hlen & Hbest).
    assert (Hne' : subpalettes' <> []).
    { destruct subpalettes'; [|discriminate].
      destruct subpalettes; [contradiction|discriminate]. }
    destruct (IH subpalettes' (fun t Ht => Htiles t (or_intror Ht)) Hne')
      as (assigned & Hrun & Hmap & Hall).
    exists ((tile, subpalettes, best) :: assigned).
    cbn [assignTiles]. rewrite Hstep. cbn [bind]. rewrite Hrun. cbn [bind].
    split; [reflexivity|]. split; [cbn [map fst]; now rewrite Hmap|].
    intros tile' candidates best' [[= <- <- <-]|Hin].
    + split; [reflexivity|]. apply Hbest.
      apply Forall_forall. intros candidate _.
      apply candidateDistance_number; [assumption|].
      apply Htiles. now left.
    + destruct (Hall _ _ _ Hin) as [Hlen' Hbest']. split; [congruence|assumption].
Qed.

(** A stand-in for DitherJS that paints every pixel in the first colour of
    the palette when that is an array of three bytes, and black else. *)
Definition firstColorBytes (palette : list anyColor) : list Z :=
  match palette with
  | ColorArray _ [r; g; b] :: _ =>
    if ((0 <=? r) && (r <? 256) && (0 <=? g) && (g <? 256)
        && (0 <=? b) && (b <? 256))%Z
    then [r; g; b; 255%Z]
    else [0; 0; 0; 255]%Z
  | _ => [0; 0; 0; 255]%Z
  end.

Definition paintFirstColor (imgData : ImageData) (palette : list anyColor)
  : ImageData :=
  {| width := width imgData;
     height := height imgData;
     data := firstn (length (data imgData))
                    (flat_map (fun _ => firstColorBytes palette)
                              (seq 0 (length (data imgData)))) |}.

Lemma firstColorBytes_shape palette :
  length (firstColorBytes palette) = 4 /\ Forall byte (firstColorBytes palette).
Proof.
  unfold firstColorBytes, byte.
  destruct palette as [|[id [|r [|g [|b [|]]]]| | | |] rest];
    try (split; [reflexivity|repeat constructor; lia]).
  destruct ((0 <=? r) && (r <? 256) && (0 <=? g) && (g <? 256)
            && (0 <=? b) && (b <? 256))%Z eqn:Hbytes;
    [|split; [reflexivity|repeat constructor; lia]].
  repeat (apply andb_prop in Hbytes as [Hbytes ?]).
  split; [reflexivity|]. repeat constructor; lia.
Qed.

Lemma paintFirstColor_keepsShape : keepsShape paintFirstColor.
Proof.
  intros imgData palette. unfold paintFirstColor. simpl.
  destruct (firstColorBytes_shape palette) as [Hfour Hbytes].
  assert (Hlen : forall n start,
             length (flat_map (fun _ : nat => firstColorBytes palette) (seq start n))
             = 4 * n).
  { induction n as [|n IH]; intros start; simpl; [reflexivity|].
    rewrite length_app, IH, Hfour. lia. }
  split.
  - rewrite length_firstn, Hlen. lia.
  - apply Forall_forall. intros v Hv.
    assert (Hin : In v (flat_map (fun _ : nat => firstColorBytes palette)
                                 (seq 0 (length (data imgData))))).
    { rewrite <- (firstn_skipn (length (data imgData))). apply in_or_app. now left. }
    apply in_flat_map in Hin as (_ & _ & Hin).
    rewrite Forall_forall in Hbytes. now apply Hbytes.
Qed.

Definition redPixelTile : Tile := tileAt (onePixel 255 0 0) 1 1 0 0.

Definition threeCandidates : list Subpalette.t :=
  [ {| Subpalette.key := paletteKey [blue; green];
       Subpalette.palette := [blue; green]; Subpalette.tilesUsing := 1 |};
    {| Subpalette.key := paletteKey [otherRed; white];
       Subpalette.palette := [otherRed; white]; Subpalette.tilesUsing := 1 |};
    {| Subpalette.key := paletteKey [red; green];
       Subpalette.palette := [red; green]; Subpalette.tilesUsing := 1 |} ].

Lemma every_tile_gets_first_nearest_witness :
  exists assigned,
    assignTiles paintFirstColor (fun _ palette => palette) red [red; blue]
                threeCandidates [redPixelTile]
    = Ok assigned
    /\ map (fun a => fst (fst a)) assigned = [redPixelTile].
Proof.
  destruct (@every_tile_gets_first_nearest
              paintFirstColor (fun _ palette => palette) red [red; blue]
              threeCandidates [redPixelTile] paintFirstColor_keepsShape)
    as (assigned & Hrun & Htiles & _).
  - intros tile [<-|[]]. reflexivity.
  - discriminate.
  - exists assigned. now split.
Defined.

(** In that run the second and the third candidate both render the tile
    at distance 0; the tile gets the second. *)
Lemma first_of_two_nearest :
  map (candidateDistance paintFirstColor [red; blue] redPixelTile) threeCandidates
  = [255%float; 0%float; 0%float]
  /\ match assignTiles paintFirstColor (fun _ palette => palette) red [red; blue]
                       threeCandidates [redPixelTile] with
     | Ok [(_, _, best)] => (index best, distance best) = (1, 0%float)
     | _ => False
     end.
Proof. split; vm_compute; reflexivity. Qed.

(* ================================================================== *)
(** * Part III: further properties of the code                         *)
(* ================================================================== *)

(** ** src/sort.js: the comparators *)

Lemma string_ltb_compare (a b : string) :
  String.ltb a b = match String.compare a b with Lt => true | _ => false end.
Proof. reflexivity. Qed.

Lemma string_compare_refl (a : string) : String.compare a a = Eq.
Proof.
  pose proof (String.compare_antisym a a) as H.
  destruct (String.compare a a); simpl in H; congruence.
Qed.

Lemma string_order_cases (a b : string) :
  (a = b /\ String.eqb a b = true /\ String.ltb a b = false /\ String.ltb b a = false)
  \/ (a <> b /\ String.eqb a b = false /\ String.ltb a b = true /\ String.ltb b a = false)
  \/ (a <> b /\ String.eqb a b = false /\ String.ltb a b = false /\ String.ltb b a = true).
Proof.
  rewrite !string_ltb_compare, (String.compare_antisym a b).
  destruct (String.compare b a) eqn:Hc; simpl.
  - apply String.compare_eq_iff in Hc. subst b. left.
    now rewrite String.eqb_refl.
  - right. right. assert (a <> b).
    { intros ->. rewrite string_compare_refl in Hc. discriminate. }
    repeat split; try assumption. now apply String.eqb_neq.
  - right. left. assert (a <> b).
    { intros ->. rewrite string_compare_refl in Hc. discriminate. }
    repeat split; try assumption. now apply String.eqb_neq.
Qed.

(** X1: on counts and on strings, the two kinds of value the program
    sorts with them, the comparators return -1, 0 or 1; 0 says that the
    arguments are equal and -1 that the first is the smaller (the larger,
    for comparatorDescending); swapping the arguments negates the result,
    and comparatorDescending is comparatorAscending with its arguments
    swapped. *)
Theorem comparators_mirror :
  (forall a b : nat,
      comparatorDescending a b = comparatorAscending b a
      /\ comparatorAscending b a = (- comparatorAscending a b)%Z
      /\ (comparatorAscending a b = SORT_A_B_EQUAL <-> a = b)
      /\ (comparatorAscending a b = SORT_A_FIRST <-> a < b)
      /\ (comparatorAscending a b = SORT_B_FIRST <-> b < a))
  /\ (forall a b : string,
        comparatorDescending a b = comparatorAscending b a
        /\ comparatorAscending b a = (- comparatorAscending a b)%Z
        /\ (comparatorAscending a b = SORT_A_B_EQUAL <-> a = b)
        /\ (comparatorAscending a b = SORT_A_FIRST <-> String.ltb a b = true)
        /\ (comparatorAscending a b = SORT_B_FIRST <-> String.ltb b a = true)).
Proof.
  split.
  - intros a b. unfold comparatorDescending, comparatorAscending,
                SORT_A_B_EQUAL, SORT_A_FIRST, SORT_B_FIRST.
    cbn [strictEq lessThan JsOrd_nat].
    rewrite (Nat.eqb_sym b a).
    destruct (Nat.eqb_spec a b) as [->|Hne].
    + repeat split; intros; try reflexivity; try discriminate; lia.
    + destruct (Nat.ltb_spec a b); destruct (Nat.ltb_spec b a); try lia;
        repeat split; intros; try reflexivity; try discriminate; try lia.
  - intros a b. unfold comparatorDescending, comparatorAscending,
                SORT_A_B_EQUAL, SORT_A_FIRST, SORT_B_FIRST.
    cbn [strictEq lessThan JsOrd_string].
    rewrite (String.eqb_sym b a).
    destruct (string_order_cases a b)
      as [(He & -> & -> & ->)|[(He & -> & -> & ->)|(He & -> & -> & ->)]];
      repeat split; intros; try reflexivity; try discriminate; try congruence.
Qed.

(** ** Floats: NaN *)

Lemma Prim2SF_nan : Prim2SF PrimFloat.nan = S754_nan.
Proof. reflexivity. Qed.

Lemma is_nan_spec (x : float) : PrimFloat.is_nan x = true <-> Prim2SF x = S754_nan.
Proof.
  unfold PrimFloat.is_nan. rewrite eqb_spec.
  destruct (Prim2SF x) as [s|s| |s m e] eqn:Hx; simpl.
  - unfold SFeqb, SFcompare. destruct s; split; discriminate.
  - unfold SFeqb, SFcompare. destruct s; split; discriminate.
  - now split.
  - unfold SFeqb, SFcompare. destruct s; simpl.
    + rewrite Z.compare_refl, Pos.compare_refl. split; discriminate.
    + rewrite Z.compare_refl, Pos.compare_refl. split; discriminate.
Qed.

(** X2: a NaN on either side makes both comparators answer 1, b first,
    also when both sides are NaN: a NaN is never equal and never first. *)
Theorem comparators_NaN (a b : float) :
  PrimFloat.is_nan a = true \/ PrimFloat.is_nan b = true ->
  comparatorAscending a b = SORT_B_FIRST
  /\ comparatorDescending a b = SORT_B_FIRST.
Proof.
  intros Hnan. unfold comparatorAscending, comparatorDescending.
  cbn [strictEq lessThan JsOrd_float].
  rewrite eqb_spec, !ltb_spec.
  assert (H : Prim2SF a = S754_nan \/ Prim2SF b = S754_nan)
    by (destruct Hnan as [H|H]; [left|right]; now apply is_nan_spec).
  unfold SFeqb, SFltb, SFcompare.
  destruct H as [->| ->].
  - destruct (Prim2SF b); now split.
  - destruct (Prim2SF a) as [[]|[]| |[] ? ?]; now split.
Qed.

Lemma comparators_NaN_witness :
  comparatorAscending PrimFloat.nan 1%float = SORT_B_FIRST
  /\ comparatorDescending PrimFloat.nan 1%float = SORT_B_FIRST.
Proof. apply (@comparators_NaN PrimFloat.nan 1%float). left. reflexivity. Defined.

(** ** nesPalette.js: normalizeColor *)

Lemma land_255 (v : Z) : Z.land v 255 = (v mod 256)%Z.
Proof. change 255%Z with (Z.ones 8). now rewrite Z.land_ones by lia. Qed.

Lemma channelsOfNumber_Int (v : Z) :
  channelsOfNumber (Int v)
  = [((v / 65536) mod 256)%Z; ((v / 256) mod 256)%Z; (v mod 256)%Z].
Proof.
  unfold channelsOfNumber. rewrite !land_255, !Z.shiftr_div_pow2 by lia.
  reflexivity.
Qed.

Lemma channelsOfNumber_bytes (n : number) :
  exists r g b, channelsOfNumber n = [r; g; b] /\ byte r /\ byte g /\ byte b.
Proof.
  destruct n as [v|].
  - rewrite channelsOfNumber_Int. do 3 eexists. split; [reflexivity|].
    unfold byte. repeat split; apply Z.mod_pos_bound; lia.
  - exists 0%Z, 0%Z, 0%Z. unfold byte. repeat split; lia.
Qed.

(** X3: normalizeColor hands an array back as the object it is, unchecked;
    from a string, a number or undefined it builds an array of exactly
    three channels, each in 0..255. *)
Theorem normalizeColor_bytes :
  (forall id elements,
      normalizeColor (ColorArray id elements) = ColorArray id elements)
  /\ (forall color,
        match color with
        | ColorString _ | ColorNumber _ | ColorUndefined =>
          exists r g b,
            normalizeColor color = ColorArray RFresh [r; g; b]
            /\ byte r /\ byte g /\ byte b
        | _ => True
        end).
Proof.
  split; [reflexivity|].
  intros [id elements|id r red g green b blue|s|n|]; try exact I;
    unfold normalizeColor;
    match goal with
    | |- context [channelsOfNumber ?n] =>
      destruct (channelsOfNumber_bytes n) as (r' & g' & b' & -> & Hr & Hg & Hb)
    end;
    exists r', g', b'; auto.
Qed.

Lemma normalizeColor_packed (r g b : Z) :
  byte r -> byte g -> byte b ->
  normalizeColor (ColorNumber (65536 * r + 256 * g + b)) = ColorArray RFresh [r; g; b].
Proof.
  unfold byte. intros Hr Hg Hb. unfold normalizeColor. rewrite channelsOfNumber_Int.
  assert (H2 : (((65536 * r + 256 * g + b) / 65536) mod 256 = r)%Z)
    by (Z.div_mod_to_equations; lia).
  assert (H1 : (((65536 * r + 256 * g + b) / 256) mod 256 = g)%Z)
    by (Z.div_mod_to_equations; lia).
  assert (H0 : ((65536 * r + 256 * g + b) mod 256 = b)%Z)
    by (Z.div_mod_to_equations; lia).
  now rewrite H2, H1, H0.
Qed.

(** X4: of an integer-valued number, the channels are the three low
    bytes, whatever the bits above them and whatever the sign; a multiple
    of 2^24 added to it, when that is a number again, changes nothing; and
    a colour packed as 0xRRGGBB comes apart into its channels. *)
Theorem normalizeColor_number (n : Z) :
  isDouble n ->
  normalizeColor (ColorNumber n)
  = ColorArray RFresh [((n / 65536) mod 256)%Z; ((n / 256) mod 256)%Z; (n mod 256)%Z]
  /\ (forall k, isDouble (n + k * 16777216) ->
                normalizeColor (ColorNumber (n + k * 16777216))
                = normalizeColor (ColorNumber n))
  /\ (forall r g b,
         byte r -> byte g -> byte b -> n = (65536 * r + 256 * g + b)%Z ->
         normalizeColor (ColorNumber n) = ColorArray RFresh [r; g; b]).
Proof.
  intros _. split; [|split].
  - unfold normalizeColor. now rewrite channelsOfNumber_Int.
  - intros k _. unfold normalizeColor. rewrite !channelsOfNumber_Int.
    assert (H2 : (((n + k * 16777216) / 65536) mod 256 = (n / 65536) mod 256)%Z)
      by (Z.div_mod_to_equations; lia).
    assert (H1 : (((n + k * 16777216) / 256) mod 256 = (n / 256) mod 256)%Z)
      by (Z.div_mod_to_equations; lia).
    assert (H0 : ((n + k * 16777216) mod 256 = n mod 256)%Z)
      by (Z.div_mod_to_equations; lia).
    now rewrite H2, H1, H0.
  - intros r g b Hr Hg Hb ->. now apply normalizeColor_packed.
Qed.

(** The number -1 is white, and so is 0xffffff, which is 2^24 more. *)
Lemma normalizeColor_number_witness :
  normalizeColor (ColorNumber (-1)) = ColorArray RFresh [255; 255; 255]%Z
  /\ normalizeColor (ColorNumber 16777215) = normalizeColor (ColorNumber (-1)).
Proof.
  destruct (@normalizeColor_number (-1) eq_refl) as (Hchannels & Hperiod & _).
  split; [exact Hchannels|]. apply (Hperiod 1%Z). reflexivity.
Defined.

(** *** Strings *)

Lemma isHexDigit_value (c : ascii) :
  isHexDigit c = true -> (0 <= hexDigitValue c < 16)%Z.
Proof.
  unfold isHexDigit, hexDigitValue. cbv zeta.
  intros H. apply orb_true_iff in H as [H|H]; apply andb_prop in H as [H1 H2];
    apply Nat.leb_le in H1, H2.
  - replace (nat_of_ascii c <=? 57) with true by (symmetry; apply Nat.leb_le; lia). lia.
  - replace (nat_of_ascii c <=? 57) with false by (symmetry; apply Nat.leb_gt; lia). lia.
Qed.

Lemma filterString_all (f : ascii -> bool) (s : string) :
  Forall (fun c => f c = true) (list_ascii_of_string (filterString f s)).
Proof.
  induction s as [|c s IH]; simpl; [constructor|].
  destruct (f c) eqn:Hc; simpl; [constructor|]; assumption.
Qed.

(** X5: a string whose hex digits, once lower-cased, are three is read as
    a shorthand: every digit stands for the channel of 17 times its value
    (f for ff, a for aa), as if each digit were written twice. *)
Theorem normalizeColor_shorthand (s : string) (d1 d2 d3 : ascii) :
  filterString isHexDigit (mapString toLowerCaseAscii s)
  = String d1 (String d2 (String d3 EmptyString)) ->
  normalizeColor (ColorString s)
  = ColorArray RFresh [(17 * hexDigitValue d1)%Z; (17 * hexDigitValue d2)%Z;
                       (17 * hexDigitValue d3)%Z]
  /\ normalizeColor (ColorString s)
     = normalizeColor
         (ColorString (String d1 (String d1 (String d2 (String d2
                         (String d3 (String d3 EmptyString))))))).
Proof.
  intros Hs.
  pose proof (filterString_all isHexDigit (mapString toLowerCaseAscii s)) as Hall.
  rewrite Hs in Hall. simpl in Hall.
  inversion_clear Hall as [|? ? H1 Hall']. inversion_clear Hall' as [|? ? H2 Hall''].
  inversion_clear Hall'' as [|? ? H3 _].
  assert (Hshort :
            normalizeColor (ColorString s)
            = ColorArray RFresh [(17 * hexDigitValue d1)%Z; (17 * hexDigitValue d2)%Z;
                                 (17 * hexDigitValue d3)%Z]).
  { unfold normalizeColor. rewrite Hs.
    cbn [String.length Nat.eqb doubleChars parseIntHex hexValueFrom].
    apply isHexDigit_value in H1, H2, H3.
    pose proof (@channelsOfNumber_rgb (17 * hexDigitValue d1) (17 * hexDigitValue d2)
                                      (17 * hexDigitValue d3)
                                      ltac:(lia) ltac:(lia) ltac:(lia)) as Hrgb.
    f_equal. rewrite <- Hrgb. do 2 f_equal. lia. }
  split; [exact Hshort|].
  rewrite Hshort. unfold normalizeColor.
  assert (Hlower : forall d, isHexDigit d = true -> toLowerCaseAscii d = d).
  { intros d Hd. unfold toLowerCaseAscii. unfold isHexDigit in Hd. cbv zeta in *.
    apply orb_true_iff in Hd as [Hd|Hd]; apply andb_prop in Hd as [Ha Hb];
      apply Nat.leb_le in Ha, Hb.
    - replace (65 <=? nat_of_ascii d) with false by (symmetry; apply Nat.leb_gt; lia).
      reflexivity.
    - replace (nat_of_ascii d <=? 90) with false by (symmetry; apply Nat.leb_gt; lia).
      now rewrite andb_false_r. }
  cbn [mapString filterString]. rewrite !Hlower by assumption.
  rewrite H1, H2, H3.
  cbn [String.length Nat.eqb parseIntHex hexValueFrom].
  apply isHexDigit_value in H1, H2, H3.
  pose proof (@channelsOfNumber_rgb (17 * hexDigitValue d1) (17 * hexDigitValue d2)
                                    (17 * hexDigitValue d3)
                                    ltac:(lia) ltac:(lia) ltac:(lia)) as Hrgb.
  f_equal. rewrite <- Hrgb. do 2 f_equal. lia.
Qed.

Lemma normalizeColor_shorthand_witness :
  normalizeColor (ColorString "#Fa0") = ColorArray RFresh [255; 170; 0]%Z
  /\ normalizeColor (ColorString "#Fa0") = normalizeColor (ColorString "ffaa00").
Proof.
  apply (@normalizeColor_shorthand "#Fa0" "f"%char "a"%char "0"%char). reflexivity.
Defined.

(** The colours whose red, green and blue channels are in 0-255, as those
    of every string, number and undefined are once normalizeColor has read
    them. *)
Definition rgbBytes (color : anyColor) : Prop :=
  match channels color with
  | r :: g :: b :: _ => byte r /\ byte g /\ byte b
  | _ => False
  end.

(** X6: for a colour whose channels are in 0-255 the hex string reads
    back as the colour: the string normalizeColorHex returns has that same
    string as its own hex, normalizeColor gets the three channels back from
    it, and for an array of three channels that is what it gets from the
    number 0xRRGGBB. *)
Theorem normalizeColorHex_round_trip (color : anyColor) :
  rgbBytes color ->
  normalizeColorHex (ColorString (normalizeColorHex color)) = normalizeColorHex color
  /\ normalizeColor (ColorString (normalizeColorHex color))
     = ColorArray RFresh (firstn 3 (channels color))
  /\ (forall id r g b,
         color = ColorArray id [r; g; b] ->
         normalizeColor (ColorString (normalizeColorHex color))
         = normalizeColor (ColorNumber (65536 * r + 256 * g + b))).
Proof.
  unfold rgbBytes. intros Hbytes.
  destruct (channels color) as [|r [|g [|b rest]]] eqn:Hchannels; try contradiction.
  destruct Hbytes as (Hr & Hg & Hb).
  assert (Hback : channels (ColorString (normalizeColorHex color)) = [r; g; b]).
  { unfold normalizeColorHex. rewrite Hchannels. cbn [nth].
    now apply channels_of_hex. }
  split; [|split].
  - unfold normalizeColorHex at 1. rewrite Hback. cbn [nth].
    unfold normalizeColorHex. now rewrite Hchannels.
  - change (normalizeColor (ColorString (normalizeColorHex color)))
      with (ColorArray RFresh (channels (ColorString (normalizeColorHex color)))).
    now rewrite Hback.
  - intros id r' g' b' ->. injection Hchannels as <- <- <-.
    change (normalizeColor (ColorString (normalizeColorHex (ColorArray id [r'; g'; b']))))
      with (ColorArray RFresh
              (channels (ColorString (normalizeColorHex (ColorArray id [r'; g'; b']))))).
    rewrite Hback. symmetry. now apply normalizeColor_packed.
Qed.

Lemma normalizeColorHex_round_trip_witness :
  normalizeColorHex (ColorString (normalizeColorHex (ColorArray RFresh [18; 52; 86]%Z)))
  = normalizeColorHex (ColorArray RFresh [18; 52; 86]%Z)
  /\ normalizeColor (ColorString (normalizeColorHex (ColorArray RFresh [18; 52; 86]%Z)))
     = ColorArray RFresh [18; 52; 86]%Z.
Proof.
  destruct (@normalizeColorHex_round_trip (ColorArray RFresh [18; 52; 86]%Z))
    as (Hhex & Hchannels & _).
  - unfold rgbBytes, byte. simpl. lia.
  - split; [exact Hhex|exact Hchannels].
Defined.

(** Outside 0-255 the hex string does not read back: a negative channel
    is written with its sign, which normalizeColor strips, and one above
    255 with three digits. *)
Lemma normalizeColorHex_beyond_bytes :
  normalizeColorHex (ColorArray RFresh [-1; 0; 0]%Z) = "#-10000"
  /\ normalizeColorHex (ColorString "#-10000") = "#010000"
  /\ normalizeColorHex (ColorArray RFresh [300; 0; 0]%Z) = "#12c0000".
Proof. repeat split. Qed.

(** ** nesPalette.js: colorDistance on byte channels *)

Definition byteValues : list Z := map Z.of_nat (seq 0 256).

Lemma byteValues_In (v : Z) : byte v -> In v byteValues.
Proof.
  intros Hv. unfold byteValues. apply in_map_iff. exists (Z.to_nat v).
  unfold byte in Hv. split; [lia|apply in_seq; lia].
Qed.

(** The square of the difference of two bytes is computed exactly. *)
Lemma square_difference_exact :
  forallb (fun a =>
             forallb (fun b =>
                        PrimFloat.Leibniz.eqb
                          (square (PrimFloat.sub (numberOfZ a) (numberOfZ b)))
                          (numberOfZ ((a - b) * (a - b))))
                     byteValues)
          byteValues = true.
Proof. vm_compute. reflexivity. Qed.

(** So is the sum of two such squares, and its square root is zero for
    two zeros only. *)
Lemma sum_of_squares_exact :
  forallb (fun d1 =>
             forallb (fun d2 =>
                        PrimFloat.Leibniz.eqb
                          (PrimFloat.add
                             (PrimFloat.add (numberOfZ (d1 * d1)) (numberOfZ (d2 * d2)))
                             PrimFloat.zero)
                          (numberOfZ (d1 * d1 + d2 * d2))
                        && Bool.eqb
                             (PrimFloat.Leibniz.eqb
                                (PrimFloat.sqrt (numberOfZ (d1 * d1 + d2 * d2)))
                                PrimFloat.zero)
                             ((d1 =? 0)%Z && (d2 =? 0)%Z))
                     byteValues)
          byteValues = true.
Proof. vm_compute. reflexivity. Qed.

Lemma square_difference (a b : Z) :
  byte a -> byte b ->
  square (PrimFloat.sub (numberOfZ a) (numberOfZ b))
  = numberOfZ (Z.abs (a - b) * Z.abs (a - b)).
Proof.
  intros Ha Hb. pose proof square_difference_exact as Hall.
  rewrite forallb_forall in Hall. specialize (Hall _ (byteValues_In Ha)).
  rewrite forallb_forall in Hall. specialize (Hall _ (byteValues_In Hb)).
  apply FloatAxioms.Leibniz.eqb_spec in Hall. rewrite Hall. f_equal. lia.
Qed.

Lemma colorDistance_of_bytes id id' a0 a1 a2 b0 b1 b2 :
  byte a0 -> byte a1 -> byte b0 -> byte b1 -> byte b2 ->
  colorDistance (ColorArray id [a0; a1; a2]) (ColorArray id' [b0; b1; b2])
  = PrimFloat.sqrt (numberOfZ (Z.abs (a0 - b0) * Z.abs (a0 - b0)
                               + Z.abs (a1 - b1) * Z.abs (a1 - b1)))
  /\ (colorDistance (ColorArray id [a0; a1; a2]) (ColorArray id' [b0; b1; b2])
      = PrimFloat.zero <-> a0 = b0 /\ a1 = b1).
Proof.
  intros Ha0 Ha1 Hb0 Hb1 Hb2. unfold colorDistance.
  cbn [channels normalizeColor operand nth_error].
  rewrite !square_difference by assumption.
  replace (Z.abs (b2 - b2)) with 0%Z by lia.
  assert (Hd0 : byte (Z.abs (a0 - b0))) by (unfold byte in *; lia).
  assert (Hd1 : byte (Z.abs (a1 - b1))) by (unfold byte in *; lia).
  pose proof sum_of_squares_exact as Hall.
  rewrite forallb_forall in Hall. specialize (Hall _ (byteValues_In Hd0)).
  rewrite forallb_forall in Hall. specialize (Hall _ (byteValues_In Hd1)).
  apply andb_prop in Hall as [Hsum Hzero].
  apply FloatAxioms.Leibniz.eqb_spec in Hsum.
  change (numberOfZ (0 * 0)) with PrimFloat.zero. rewrite Hsum.
  split; [reflexivity|].
  apply Bool.eqb_prop in Hzero.
  rewrite <- FloatAxioms.Leibniz.eqb_spec, Hzero, andb_true_iff, !Z.eqb_eq. lia.
Qed.

(** X7: between two colours of byte channels colorDistance is the square
    root of the exact integer (dr)^2 + (dg)^2; it is the same in both
    directions, and it is 0 exactly when red and green agree, whatever the
    blue channels. *)
Theorem colorDistance_red_and_green id id' a0 a1 a2 b0 b1 b2 :
  byte a0 -> byte a1 -> byte a2 -> byte b0 -> byte b1 -> byte b2 ->
  colorDistance (ColorArray id [a0; a1; a2]) (ColorArray id' [b0; b1; b2])
  = PrimFloat.sqrt (numberOfZ ((a0 - b0) * (a0 - b0) + (a1 - b1) * (a1 - b1)))
  /\ colorDistance (ColorArray id [a0; a1; a2]) (ColorArray id' [b0; b1; b2])
     = colorDistance (ColorArray id' [b0; b1; b2]) (ColorArray id [a0; a1; a2])
  /\ (colorDistance (ColorArray id [a0; a1; a2]) (ColorArray id' [b0; b1; b2])
      = PrimFloat.zero <-> a0 = b0 /\ a1 = b1).
Proof.
  intros Ha0 Ha1 Ha2 Hb0 Hb1 Hb2.
  destruct (@colorDistance_of_bytes id id' a0 a1 a2 b0 b1 b2) as [Hab Hzero];
    try assumption.
  destruct (@colorDistance_of_bytes id' id b0 b1 b2 a0 a1 a2) as [Hba _];
    try assumption.
  split; [|split].
  - rewrite Hab. do 2 f_equal. lia.
  - rewrite Hab, Hba. do 2 f_equal. lia.
  - exact Hzero.
Qed.

Lemma colorDistance_red_and_green_witness :
  colorDistance (ColorArray RFresh [3; 4; 200]%Z) (ColorArray RFresh [0; 0; 7]%Z)
  = PrimFloat.sqrt (numberOfZ 25)
  /\ colorDistance (ColorArray RFresh [3; 4; 200]%Z) (ColorArray RFresh [0; 0; 7]%Z)
     = colorDistance (ColorArray RFresh [0; 0; 7]%Z) (ColorArray RFresh [3; 4; 200]%Z).
Proof.
  destruct (@colorDistance_red_and_green RFresh RFresh 3 4 200 0 0 7)
    as (Hvalue & Hsym & _); unfold byte; try lia.
  split; [exact Hvalue|exact Hsym].
Defined.

(** ** nesPalette.js: what nesColorMatch can return *)

Lemma cacheSound_calls (calls : list anyColor) :
  cacheSound (snd (nesColorMatchCalls [] calls)).
Proof. apply nesColorMatchCalls_cached. constructor. Qed.

(** Every entry of nesPaletteInverted holds an index whose colour in
    nesPalette is the entry's key, and whose hex number parseInt reads. *)
Lemma nesPaletteInverted_indices :
  forallb (fun '(hex, index) =>
             match lookup index nesPalette with
             | Some found => String.eqb found hex
             | None => false
             end
             && match parseIntHex index with Int _ => true | NotInt => false end
             && forallb (fun '(hex', index') =>
                           Bool.eqb (strictEq (parseIntHex index) (parseIntHex index'))
                                    (String.eqb index index'))
                        nesPaletteInverted)
          nesPaletteInverted = true.
Proof. vm_compute. reflexivity. Qed.

Fixpoint distinctStrings (l : list string) : bool :=
  match l with
  | [] => true
  | first :: rest => negb (existsb (String.eqb first) rest) && distinctStrings rest
  end.

Lemma distinctStrings_NoDup (l : list string) : distinctStrings l = true -> NoDup l.
Proof.
  induction l as [|first rest IH]; simpl; intros H; constructor.
  - apply andb_prop in H as [H _]. apply negb_true_iff in H.
    intros Hin. assert (Hex : existsb (String.eqb first) rest = true).
    { apply existsb_exists. exists first. split; [assumption|apply String.eqb_refl]. }
    congruence.
  - apply IH. now apply andb_prop in H as [_ H].
Qed.

Lemma nesPaletteInverted_NoDup : NoDup (keys nesPaletteInverted).
Proof. apply distinctStrings_NoDup. vm_compute. reflexivity. Qed.

Lemma nesPaletteInverted_length : length nesPaletteInverted <> 0.
Proof. vm_compute. discriminate. Qed.

Lemma nesColorMatchSearch_entry (findColor : anyColor) :
  exists hex index,
    In (hex, index) nesPaletteInverted
    /\ nesColorMatchSearch findColor = Ok index.
Proof.
  unfold nesColorMatchSearch.
  pose proof nesPaletteInverted_length as Hlen.
  generalize dependent nesPaletteInverted. intros table Hlen.
  destruct (lookup (normalizeColorHex findColor) table) as [index|] eqn:Hl.
  - exists (normalizeColorHex findColor), index. split; [|reflexivity].
    now apply lookup_In.
  - set (measure := fun '(nesHex, index) => (index : string, _ : float)).
    set (cmp := fun a b : string * float => comparatorAscending (snd a) (snd b)).
    destruct (sortBy cmp (map measure table)) as [|nearest rest] eqn:Hsort.
    + apply (f_equal (@length _)) in Hsort.
      rewrite sortBy_length, length_map in Hsort. simpl in Hsort. contradiction.
    + assert (Hin : In nearest (map measure table)).
      { eapply Permutation_in; [apply (sortBy_Permutation cmp)|].
        rewrite Hsort. now left. }
      apply in_map_iff in Hin as ([hex index] & Hnearest & Hin).
      exists hex, index. split; [exact Hin|]. subst nearest. reflexivity.
Qed.

(** X8: whatever was asked before and whatever the colour, if it has
    three channels, nesColorMatch answers with an index of the table, and
    with the one index that nesPaletteInverted keeps for its colour: of the
    ten indices of black it is 0f that comes back, never another. *)
Theorem nesColorMatch_canonical_index (calls : list anyColor) (findColor : anyColor) :
  threeChannels findColor ->
  exists index hex,
    fst (nesColorMatch (snd (nesColorMatchCalls [] calls)) findColor) = Ok index
    /\ lookup index nesPalette = Some hex
    /\ lookup hex nesPaletteInverted = Some index
    /\ (hex = "#000000" -> index = CANONICAL_BLACK).
Proof.
  intros _.
  destruct (nesColorMatch_cached findColor (cacheSound_calls calls)) as [-> _].
  destruct (nesColorMatchSearch_entry findColor) as (hex & index & Hin & ->).
  exists index, hex. split; [reflexivity|].
  pose proof nesPaletteInverted_indices as Hall.
  rewrite forallb_forall in Hall. specialize (Hall _ Hin). cbv beta iota in Hall.
  apply andb_prop in Hall as [Hall _]. apply andb_prop in Hall as [Hall _].
  destruct (lookup index nesPalette) as [found|]; [|discriminate].
  apply String.eqb_eq in Hall. subst found. split; [reflexivity|].
  assert (Hl : lookup hex nesPaletteInverted = Some index)
    by (apply In_lookup; [apply nesPaletteInverted_NoDup|assumption]).
  split; [assumption|].
  intros ->.
  assert (Hblack : lookup "#000000" nesPaletteInverted = Some CANONICAL_BLACK)
    by (vm_compute; reflexivity).
  congruence.
Qed.

(** A grey that is not in the table, asked for after another colour. *)
Lemma nesColorMatch_canonical_index_witness :
  exists index hex,
    fst (nesColorMatch (snd (nesColorMatchCalls [] [ColorString "#123456"]))
                       (ColorArray RFresh [1; 2; 3]%Z))
    = Ok index
    /\ lookup index nesPalette = Some hex
    /\ lookup hex nesPaletteInverted = Some index.
Proof.
  destruct (@nesColorMatch_canonical_index [ColorString "#123456"]
                                           (ColorArray RFresh [1; 2; 3]%Z))
    as (index & hex & Hanswer & Hindex & Hhex & _).
  - unfold threeChannels. simpl. lia.
  - exists index, hex. split; [exact Hanswer|]. split; [exact Hindex|exact Hhex].
Defined.

(** ** nesify.js: createPaletteSorter *)

Lemma comparatorAscending_Z (v w : Z) :
  comparatorAscending w v = (- comparatorAscending v w)%Z
  /\ (comparatorAscending v w = 0%Z <-> v = w)
  /\ (comparatorAscending v w = (-1)%Z \/ comparatorAscending v w = 0%Z
      \/ comparatorAscending v w = 1%Z).
Proof.
  unfold comparatorAscending, SORT_A_B_EQUAL, SORT_A_FIRST, SORT_B_FIRST.
  cbn [strictEq lessThan JsOrd_Z]. rewrite (Z.eqb_sym w v).
  destruct (Z.eqb_spec v w) as [->|Hne].
  - repeat split; auto.
  - destruct (Z.ltb_spec v w); destruct (Z.ltb_spec w v); try lia;
      repeat split; intros; try reflexivity; try discriminate; try lia; auto.
Qed.

(** The comparator on two colours neither of which is the background:
    it compares the numbers of their palette indices. *)
Lemma createPaletteSorter_indices bg cache a b :
  cacheSound cache ->
  strictEqColor a bg = false -> strictEqColor b bg = false ->
  exists indexA indexB v w,
    nesColorMatchSearch a = Ok indexA /\ nesColorMatchSearch b = Ok indexB
    /\ parseIntHex indexA = Int v /\ parseIntHex indexB = Int w
    /\ (v = w <-> indexA = indexB)
    /\ fst (createPaletteSorter bg cache a b) = Ok (comparatorAscending v w).
Proof.
  intros Hsound Ha Hb. unfold createPaletteSorter. rewrite Ha, Hb.
  destruct (nesColorMatch_cached a Hsound) as [HfstA HsoundA].
  destruct (nesColorMatch cache a) as [resultA cacheA]. simpl in HfstA, HsoundA.
  destruct (nesColorMatch_cached b HsoundA) as [HfstB _].
  destruct (nesColorMatch cacheA b) as [resultB cacheB]. simpl in HfstB.
  destruct (nesColorMatchSearch_entry a) as (hexA & indexA & HinA & HsearchA).
  destruct (nesColorMatchSearch_entry b) as (hexB & indexB & HinB & HsearchB).
  subst resultA resultB. rewrite HsearchA, HsearchB.
  pose proof nesPaletteInverted_indices as Hall.
  rewrite forallb_forall in Hall.
  pose proof (Hall _ HinA) as HA. pose proof (Hall _ HinB) as HB.
  cbv beta iota in HA, HB.
  apply andb_prop in HA as [HA Hpairs]. apply andb_prop in HA as [_ HA].
  apply andb_prop in HB as [HB _]. apply andb_prop in HB as [_ HB].
  rewrite forallb_forall in Hpairs. specialize (Hpairs _ HinB). cbv beta iota in Hpairs.
  destruct (parseIntHex indexA) as [v|] eqn:HvA; [|discriminate].
  destruct (parseIntHex indexB) as [w|] eqn:HvB; [|discriminate].
  exists indexA, indexB, v, w. repeat split; try reflexivity; try assumption.
  - intros ->. cbn [strictEq JsOrd_number] in Hpairs. rewrite Z.eqb_refl in Hpairs.
    apply Bool.eqb_prop in Hpairs. symmetry in Hpairs.
    apply String.eqb_eq. exact Hpairs.
  - intros ->. congruence.
Qed.

(** X9: on colours of three channels the comparator createPaletteSorter
    makes never throws and answers -1, 0 or 1.  The background colour (the
    very object, or an equal string) goes first from either side, and is
    put before itself too, whatever the other colour.  Two other colours
    are ordered by the palette index nesColorMatch gives them: swapping
    them negates the answer, and the answer is 0 exactly when they have
    the same index. *)
Theorem createPaletteSorter_order (bg : anyColor) (calls calls' : list anyColor)
        (a b : anyColor) :
  let compare := fun x y =>
    fst (createPaletteSorter bg (snd (nesColorMatchCalls [] calls)) x y) in
  let compare' := fun x y =>
    fst (createPaletteSorter bg (snd (nesColorMatchCalls [] calls')) x y) in
  (threeChannels a -> threeChannels b ->
   exists z, compare a b = Ok z /\ (z = (-1)%Z \/ z = 0%Z \/ z = 1%Z))
  /\ compare bg b = Ok SORT_A_FIRST
  /\ compare bg bg = Ok SORT_A_FIRST
  /\ (a <> bg -> compare a bg = Ok SORT_B_FIRST)
  /\ (a <> bg -> b <> bg -> threeChannels a -> threeChannels b ->
      exists z, compare a b = Ok z /\ compare' b a = Ok (- z)%Z
                /\ (z = 0%Z <-> nesColorMatchSearch a = nesColorMatchSearch b)).
Proof.
  intros compare compare'.
  assert (Hbg : forall cache y, fst (createPaletteSorter bg cache bg y) = Ok SORT_A_FIRST).
  { intros cache y. unfold createPaletteSorter, strictEqColor.
    now destruct (anyColor_eq_dec bg bg). }
  assert (Hother : forall cache x, x <> bg ->
                     fst (createPaletteSorter bg cache x bg) = Ok SORT_B_FIRST).
  { intros cache x Hx. unfold createPaletteSorter, strictEqColor.
    destruct (anyColor_eq_dec x bg); [contradiction|].
    now destruct (anyColor_eq_dec bg bg). }
  assert (Hne : forall x, x <> bg -> strictEqColor x bg = false).
  { intros x Hx. unfold strictEqColor. now destruct (anyColor_eq_dec x bg). }
  assert (Hrest : a <> bg -> b <> bg ->
            exists z, compare a b = Ok z /\ compare' b a = Ok (- z)%Z
                      /\ (z = 0%Z <-> nesColorMatchSearch a = nesColorMatchSearch b)
                      /\ (z = (-1)%Z \/ z = 0%Z \/ z = 1%Z)).
  { intros Ha Hb. subst compare compare'. cbv beta.
    destruct (@createPaletteSorter_indices bg _ a b (cacheSound_calls calls)
                                           (Hne a Ha) (Hne b Hb))
      as (indexA & indexB & v & w & HsA & HsB & HvA & HvB & Hvw & Hab).
    destruct (@createPaletteSorter_indices bg _ b a (cacheSound_calls calls')
                                           (Hne b Hb) (Hne a Ha))
      as (indexB' & indexA' & w' & v' & HsB' & HsA' & HvB' & HvA' & _ & Hba).
    assert (indexA' = indexA) by congruence. assert (indexB' = indexB) by congruence.
    subst indexA' indexB'.
    assert (v' = v) by congruence. assert (w' = w) by congruence. subst v' w'.
    destruct (comparatorAscending_Z v w) as (Hanti & Hzero & Hrange).
    exists (comparatorAscending v w). rewrite Hab, Hba, Hanti.
    repeat split; try assumption.
    - intros Hz. apply Hzero in Hz. rewrite HsA, HsB. f_equal. now apply Hvw.
    - intros Heq. apply Hzero. apply Hvw. congruence. }
  split; [|split; [apply Hbg|split; [apply Hbg|split; [intros Ha; now apply Hother|]]]].
  - intros _ _. destruct (anyColor_eq_dec a bg) as [->|Ha].
    { exists SORT_A_FIRST. split; [apply Hbg|now left]. }
    destruct (anyColor_eq_dec b bg) as [->|Hb].
    { exists SORT_B_FIRST. split; [now apply Hother|now right; right]. }
    destruct (Hrest Ha Hb) as (z & Hz & _ & _ & Hrange). now exists z.
  - intros Ha Hb _ _. destruct (Hrest Ha Hb) as (z & Hz & Hz' & Hzero & _).
    now exists z.
Qed.


(** Pure blue and pure green behind a red background: neither is in the
    table, and the comparator orders them by the indices of their nearest
    entries. *)
Lemma createPaletteSorter_order_witness :
  exists z,
    fst (createPaletteSorter (ColorArray RFresh [255; 0; 0]%Z)
                             (snd (nesColorMatchCalls [] []))
                             (ColorArray (RCaller 1) [0; 0; 255]%Z)
                             (ColorArray (RCaller 2) [0; 255; 0]%Z))
    = Ok z
    /\ (z = (-1)%Z \/ z = 0%Z \/ z = 1%Z).
Proof.
  destruct (@createPaletteSorter_order (ColorArray RFresh [255; 0; 0]%Z) [] []
                                       (ColorArray (RCaller 1) [0; 0; 255]%Z)
                                       (ColorArray (RCaller 2) [0; 255; 0]%Z))
    as [Hanswer _].
  apply Hanswer; unfold threeChannels; simpl; lia.
Defined.

(** ** nesPalette.js: nesColors *)

Lemma nesColors_black_first :
  nesColors = "#000000" :: tl nesColors
  /\ existsb (String.eqb "#000000") (tl nesColors) = false.
Proof. split; vm_compute; reflexivity. Qed.

Lemma nesColors_distinct : distinctStrings nesColors = true.
Proof. vm_compute. reflexivity. Qed.

Lemma nesPalette_distinct : distinctStrings (keys nesPalette) = true.
Proof. vm_compute. reflexivity. Qed.

Lemma nesColors_in_table :
  forallb (fun hex => existsb (fun entry => String.eqb (snd entry) hex) nesPalette)
          nesColors = true.
Proof. vm_compute. reflexivity. Qed.

Lemma nesColors_complete :
  forallb (fun entry => existsb (String.eqb (snd entry)) nesColors) nesPalette = true.
Proof. vm_compute. reflexivity. Qed.

Lemma nesColors_exact :
  forallb (fun hex =>
             match lookup (normalizeColorHex (ColorString hex)) nesPaletteInverted with
             | Some index =>
               match lookup index nesPalette with
               | Some found => String.eqb found hex
               | None => false
               end
             | None => false
             end)
          nesColors = true.
Proof. vm_compute. reflexivity. Qed.

(** X10: nesColors, the palette nesify uses when none is given, starts
    with black and has it once; it lists the colours of nesPalette, all of
    them and each once; and nesColorMatch finds every one of them under
    an index of exactly that colour. *)
Theorem nesColors_are_the_table_colours :
  (exists rest, nesColors = "#000000" :: rest /\ ~ In "#000000" rest)
  /\ NoDup nesColors
  /\ (forall hex, In hex nesColors
                  <-> exists index, lookup index nesPalette = Some hex)
  /\ (forall calls hex,
         In hex nesColors ->
         exists index,
           fst (nesColorMatch (snd (nesColorMatchCalls [] calls)) (ColorString hex))
           = Ok index
           /\ lookup index nesPalette = Some hex).
Proof.
  split; [|split; [exact (distinctStrings_NoDup _ nesColors_distinct)|split]].
  - destruct nesColors_black_first as [Hfirst Hrest].
    exists (tl nesColors). split; [exact Hfirst|].
    intros Hin.
    assert (Hex : existsb (String.eqb "#000000") (tl nesColors) = true).
    { apply existsb_exists. exists "#000000". split; [exact Hin|reflexivity]. }
    rewrite Hrest in Hex. discriminate Hex.
  - intros hex. split.
    + intros Hin. pose proof nesColors_in_table as Hall.
      rewrite forallb_forall in Hall. apply Hall in Hin.
      apply existsb_exists in Hin as ([index hex'] & Hentry & Heq).
      cbn [snd] in Heq. apply String.eqb_eq in Heq. subst hex'.
      exists index. apply In_lookup; [|exact Hentry].
      exact (distinctStrings_NoDup _ nesPalette_distinct).
    + intros [index Hl]. apply lookup_In in Hl.
      pose proof nesColors_complete as Hall.
      rewrite forallb_forall in Hall. apply Hall in Hl.
      apply existsb_exists in Hl as (hex' & Hin & Heq).
      cbn [snd] in Heq. apply String.eqb_eq in Heq. subst hex'. exact Hin.
  - intros calls hex Hin.
    destruct (nesColorMatch_cached (ColorString hex) (cacheSound_calls calls))
      as [-> _].
    pose proof nesColors_exact as Hall.
    rewrite forallb_forall in Hall. apply Hall in Hin.
    unfold nesColorMatchSearch.
    destruct (lookup (normalizeColorHex (ColorString hex)) nesPaletteInverted)
      as [index|]; [|discriminate Hin].
    exists index. split; [reflexivity|].
    destruct (lookup index nesPalette) as [found|]; [|discriminate Hin].
    apply String.eqb_eq in Hin. subst found. reflexivity.
Qed.

(** ** What a sort leaves behind *)

Section SortedBySort.
Context {A : Type} (cmp : A -> A -> Z).

(** [staysBefore a b]: the comparator does not ask for [a] behind [b]. *)
Definition staysBefore (a b : A) : Prop := (0 <? cmp a b)%Z = false.

Hypothesis cmp_asym : forall a b, (0 <? cmp a b)%Z = true -> staysBefore b a.
Hypothesis cmp_trans :
  forall a b c, staysBefore a b -> staysBefore b c -> staysBefore a c.

Lemma insertBy_sorted (a : A) (l : list A) :
  StronglySorted staysBefore l -> StronglySorted staysBefore (insertBy cmp a l).
Proof.
  induction 1 as [|b l Hl IH Hb]; simpl.
  - constructor; constructor.
  - destruct (0 <? cmp a b)%Z eqn:Hab.
    + constructor; [assumption|].
      eapply Permutation_Forall; [symmetry; apply insertBy_Permutation|].
      constructor; [now apply cmp_asym|assumption].
    + constructor; [now constructor|].
      constructor; [assumption|].
      eapply Forall_impl; [|exact Hb]. intros c Hc. now apply (cmp_trans Hab).
Qed.

Lemma sortBy_sorted (l : list A) : StronglySorted staysBefore (sortBy cmp l).
Proof.
  induction l as [|a l IH]; simpl; [constructor|].
  now apply insertBy_sorted.
Qed.
End SortedBySort.

Lemma StronglySorted_weaken {A} (R R' : A -> A -> Prop) (l : list A) :
  (forall a b, R a b -> R' a b) -> StronglySorted R l -> StronglySorted R' l.
Proof.
  intros Himpl. induction 1 as [|a l Hl IH Ha]; constructor; [assumption|].
  eapply Forall_impl; [|exact Ha]. intros b. apply Himpl.
Qed.

(** Two sorted lists with the same elements are one list, when no two
    different elements can stand in either order. *)
Lemma sorted_unique {A} (R : A -> A -> Prop) (l1 l2 : list A) :
  (forall a b, R a b -> R b a -> a = b) ->
  StronglySorted R l1 -> StronglySorted R l2 -> Permutation l1 l2 -> l1 = l2.
Proof.
  intros Hanti H1. revert l2. induction H1 as [|a l1 Hs1 IH Ha]; intros l2 H2 Hperm.
  - now apply Permutation_nil in Hperm.
  - destruct H2 as [|b l2 Hs2 Hb].
    + symmetry in Hperm. now apply Permutation_nil in Hperm.
    + assert (Hab : a = b).
      { assert (Hina : In a (b :: l2))
          by (eapply Permutation_in; [exact Hperm|now left]).
        assert (Hinb : In b (a :: l1))
          by (eapply Permutation_in; [symmetry; exact Hperm|now left]).
        destruct Hina as [->|Hina]; [reflexivity|].
        destruct Hinb as [->|Hinb]; [reflexivity|].
        rewrite Forall_forall in Ha, Hb.
        apply Hanti; [now apply Ha|now apply Hb]. }
      subst b. f_equal. apply IH; [assumption|].
      now apply Permutation_cons_inv in Hperm.
Qed.

(** ** nesify.js: paletteKey *)

Lemma staysBefore_string (a b : string) :
  staysBefore comparatorAscending a b <-> a = b \/ String.ltb a b = true.
Proof.
  unfold staysBefore, comparatorAscending, SORT_A_B_EQUAL, SORT_A_FIRST, SORT_B_FIRST.
  cbn [strictEq lessThan JsOrd_string].
  destruct (string_order_cases a b)
    as [(He & -> & -> & _)|[(He & -> & -> & _)|(He & -> & -> & _)]];
    simpl; split; intros H; auto; try discriminate.
  destruct H; [contradiction|discriminate].
Qed.

Lemma string_ltb_trans (a b c : string) :
  String.ltb a b = true -> String.ltb b c = true -> String.ltb a c = true.
Proof.
  rewrite !string_ltb_compare.
  revert b c; induction a as [|x a IH]; intros [|y b] [|z c]; simpl;
    try discriminate; try reflexivity.
  unfold Ascii.compare.
  destruct (N.compare_spec (N_of_ascii x) (N_of_ascii y)) as [Hxy|Hxy|Hxy];
    destruct (N.compare_spec (N_of_ascii y) (N_of_ascii z)) as [Hyz|Hyz|Hyz];
    destruct (N.compare_spec (N_of_ascii x) (N_of_ascii z)) as [Hxz|Hxz|Hxz];
    try discriminate; try reflexivity; try lia.
  apply IH.
Qed.

Lemma sortBy_strings_unique (l1 l2 : list string) :
  Permutation l1 l2 ->
  sortBy comparatorAscending l1 = sortBy comparatorAscending l2.
Proof.
  intros Hperm.
  assert (Hsorted : forall l : list string,
             StronglySorted (staysBefore comparatorAscending)
                            (sortBy comparatorAscending l)).
  { intros l. apply sortBy_sorted.
    - intros a b Hab. apply staysBefore_string.
      unfold comparatorAscending, SORT_A_B_EQUAL, SORT_A_FIRST, SORT_B_FIRST in Hab.
      cbn [strictEq lessThan JsOrd_string] in Hab.
      destruct (string_order_cases a b)
        as [(He & Heq & Hlt & Hgt)|[(He & Heq & Hlt & Hgt)|(He & Heq & Hlt & Hgt)]];
        rewrite Heq, ?Hlt in Hab; try discriminate. now right.
    - intros a b c Hab Hbc. apply staysBefore_string.
      apply staysBefore_string in Hab, Hbc.
      destruct Hab as [->|Hab]; [assumption|].
      destruct Hbc as [<-|Hbc]; [now right|].
      right. eapply string_ltb_trans; eassumption. }
  apply (@sorted_unique _ (staysBefore comparatorAscending)).
  - intros a b Hab Hba. apply staysBefore_string in Hab, Hba.
    destruct Hab as [->|Hab]; [reflexivity|].
    destruct Hba as [->|Hba]; [reflexivity|].
    destruct (string_order_cases a b)
      as [(He & _)|[(_ & _ & _ & Hgt)|(_ & _ & Hlt & _)]]; congruence.
  - apply Hsorted.
  - apply Hsorted.
  - rewrite (sortBy_Permutation comparatorAscending l1).
    rewrite Hperm. symmetry. apply sortBy_Permutation.
Qed.

(** X11: two palettes have the same paletteKey exactly when they have the
    same hex colours, each as many times, in whatever order; so a palette
    keeps its key when its colours are rearranged. *)
Theorem paletteKey_canonical (palette palette' : list anyColor) :
  (paletteKey palette = paletteKey palette'
   <-> Permutation (map normalizeColorHex palette) (map normalizeColorHex palette'))
  /\ (Permutation palette palette' -> paletteKey palette = paletteKey palette').
Proof.
  assert (Hiff : paletteKey palette = paletteKey palette'
                 <-> Permutation (map normalizeColorHex palette)
                                 (map normalizeColorHex palette')).
  { split; [apply paletteKey_same_hexes|].
    intros Hperm. unfold paletteKey. f_equal. now apply sortBy_strings_unique. }
  split; [exact Hiff|].
  intros Hperm. apply Hiff. now apply Permutation_map.
Qed.

(** ** nesify.js: getLocalPalette *)

(** The colour getLocalPalette slices out at offset [i], and its key. *)
Definition pixelColor (call : nat) (imgData : ImageData) (i : nat) : anyColor :=
  ColorArray (RPixel call (i / RGBA_BYTES)) (slice i (i + 3) (data imgData)).

Definition pixelKey (imgData : ImageData) (i : nat) : string :=
  colorKey (pixelColor 0 imgData i).

Lemma colorKey_pixelColor call imgData i :
  colorKey (pixelColor call imgData i) = pixelKey imgData i.
Proof. reflexivity. Qed.

(** What the pixel loop has built from the offsets [seen]: one record for
    every key met, holding the number of pixels with that key and the
    colour of the first of them. *)
Definition histogramOf (call : nat) (imgData : ImageData) (seen : list nat)
           (colorsUsedByKey : dict ColorUsed) : Prop :=
  NoDup (keys colorsUsedByKey)
  /\ (forall k r,
         In (k, r) colorsUsedByKey ->
         key r = k
         /\ pixelsUsing r = count_occ string_dec (map (pixelKey imgData) seen) k
         /\ exists before i after,
             seen = before ++ i :: after
             /\ color r = pixelColor call imgData i
             /\ pixelKey imgData i = k
             /\ ~ In k (map (pixelKey imgData) before))
  /\ (forall i, In i seen -> In (pixelKey imgData i) (keys colorsUsedByKey)).

Lemma histogramOf_step call imgData seen m i :
  histogramOf call imgData seen m ->
  let color := pixelColor call imgData i in
  let k := colorKey color in
  let colorUsed := match lookup k m with
                   | Some used => used
                   | None => {| key := k; color := color; pixelsUsing := 0 |}
                   end in
  histogramOf call imgData (seen ++ [i]) (assign k (countPixel colorUsed) m).
Proof.
  intros (Hnd & Hrecords & Hkeys) color k colorUsed.
  assert (Hk : k = pixelKey imgData i) by reflexivity.
  split; [now apply assign_NoDup|]. split.
  - intros k' r Hin. apply (In_assign k (countPixel colorUsed) m (k', r) Hnd) in Hin.
    rewrite map_app, count_occ_app. cbn [map count_occ].
    destruct Hin as [[= -> ->]|[Hin Hne]].
    + rewrite <- Hk. destruct (string_dec k k) as [_|Hne]; [|contradiction].
      subst colorUsed. destruct (lookup k m) as [used|] eqn:Hl.
      * destruct (Hrecords k used (lookup_In _ _ Hl))
          as (Hkey & Hcount & before & j & after & -> & Hcolor & Hj & Hfirst).
        cbn [key pixelsUsing color countPixel]. split; [assumption|].
        split; [lia|].
        exists before, j, (after ++ [i]).
        rewrite <- app_assoc. repeat split; assumption.
      * cbn [key pixelsUsing color countPixel]. split; [reflexivity|].
        assert (Hnew : ~ In k (map (pixelKey imgData) seen)).
        { intros Hin. apply in_map_iff in Hin as (j & Hj & Hin).
          apply Hkeys in Hin. rewrite Hj in Hin.
          apply lookup_None in Hl. contradiction. }
        split.
        { rewrite (proj1 (count_occ_not_In string_dec _ _) Hnew). reflexivity. }
        exists seen, i, []. repeat split; try assumption; now symmetry.
    + cbn [fst] in Hne.
      destruct (Hrecords k' r Hin)
        as (Hkey & Hcount & before & j & after & -> & Hcolor & Hj & Hfirst).
      split; [assumption|]. split.
      * rewrite <- Hk. destruct (string_dec k k') as [Heq|_]; [congruence|lia].
      * exists before, j, (after ++ [i]).
        rewrite <- app_assoc. repeat split; assumption.
  - intros j Hj. rewrite keys_assign. apply in_app_or in Hj as [Hj|[<-|[]]].
    + destruct (hasKey k m); [now apply Hkeys|].
      apply in_or_app. left. now apply Hkeys.
    + rewrite <- Hk. unfold hasKey.
      destruct (lookup k m) as [used|] eqn:Hl.
      * apply lookup_In in Hl. eapply In_keys. exact Hl.
      * apply in_or_app. right. now left.
Qed.

Lemma histogramOf_loop call imgData (offsets seen : list nat) m :
  histogramOf call imgData seen m ->
  histogramOf call imgData (seen ++ offsets)
    (fold_left
       (fun (colorsUsedByKey : dict ColorUsed) i =>
          let color := ColorArray (RPixel call (i / RGBA_BYTES))
                                  (slice i (i + 3) (data imgData)) in
          let key := colorKey color in
          let colorUsed :=
            match lookup key colorsUsedByKey with
            | Some used => used
            | None => {| key := key; color := color; pixelsUsing := 0 |}
            end in
          assign key (countPixel colorUsed) colorsUsedByKey)
       offsets m).
Proof.
  revert seen m; induction offsets as [|i offsets IH]; intros seen m Hinv; simpl.
  - now rewrite app_nil_r.
  - replace (seen ++ i :: offsets) with ((seen ++ [i]) ++ offsets)
      by (now rewrite <- app_assoc).
    apply IH. exact (histogramOf_step i Hinv).
Qed.

(** X12: getLocalPalette is a histogram of the image by colour key.  Every
    record has the key of its colour and counts the pixels with that key,
    at least one; its colour is the array sliced out of the first such
    pixel; and every pixel's key has a record. *)
Theorem getLocalPalette_histogram (call : nat) (imgData : ImageData) :
  let offsets := pixelOffsets (length (data imgData)) in
  (forall r,
      In r (getLocalPalette call imgData) ->
      key r = colorKey (color r)
      /\ pixelsUsing r = count_occ string_dec (map (pixelKey imgData) offsets) (key r)
      /\ 1 <= pixelsUsing r
      /\ exists before i after,
          offsets = before ++ i :: after
          /\ color r = pixelColor call imgData i
          /\ ~ In (key r) (map (pixelKey imgData) before))
  /\ (forall i, In i offsets ->
        exists r, In r (getLocalPalette call imgData) /\ key r = pixelKey imgData i).
Proof.
  intros offsets. unfold getLocalPalette. fold offsets.
  set (m := fold_left _ _ _).
  assert (Hinv : histogramOf call imgData offsets m).
  { subst m. apply (@histogramOf_loop call imgData offsets [] []).
    split; [constructor|]. split; [intros k r []|intros i []]. }
  destruct Hinv as (Hnd & Hrecords & Hkeys).
  set (cmp := fun a b : ColorUsed => _).
  assert (Hvalues : forall r, In r (sortBy cmp (values m)) <-> exists k, In (k, r) m).
  { intros r. split.
    - intros Hin. apply (Permutation_in _ (sortBy_Permutation cmp (values m))) in Hin.
      apply in_map_iff in Hin as ([k r'] & <- & Hin). now exists k.
    - intros [k Hin].
      apply (Permutation_in _ (Permutation_sym (sortBy_Permutation cmp (values m)))).
      apply in_map_iff. now exists (k, r). }
  split.
  - intros r Hin. apply Hvalues in Hin as [k Hin].
    destruct (Hrecords k r Hin)
      as (Hkey & Hcount & before & i & after & Hsplit & Hcolor & Hi & Hfirst).
    subst k. split; [rewrite Hcolor; now rewrite colorKey_pixelColor|].
    split; [assumption|]. split.
    + rewrite Hcount, Hsplit, map_app, count_occ_app. cbn [map count_occ].
      destruct (string_dec (pixelKey imgData i) (key r)); [lia|contradiction].
    + now exists before, i, after.
  - intros i Hin. apply Hkeys in Hin.
    destruct (In_keys_lookup _ _ Hin) as [r Hl]. apply lookup_In in Hl.
    exists r. split; [apply Hvalues; now exists (pixelKey imgData i)|].
    now destruct (Hrecords _ _ Hl) as [Hkey _].
Qed.

(** *** The order of the records *)

Lemma staysBefore_descending {A} (f : A -> nat) (a b : A) :
  staysBefore (fun a b => comparatorDescending (f a) (f b)) a b <-> f b <= f a.
Proof.
  unfold staysBefore, comparatorDescending, SORT_A_B_EQUAL, SORT_A_FIRST, SORT_B_FIRST.
  cbn [strictEq lessThan JsOrd_nat].
  destruct (Nat.eqb_spec (f a) (f b)) as [Heq|Hne]; simpl.
  - split; [lia|reflexivity].
  - destruct (Nat.ltb_spec (f b) (f a)); simpl; split; intros; try lia;
      try reflexivity; discriminate.
Qed.

Lemma sortBy_descending_sorted {A} (f : A -> nat) (l : list A) :
  StronglySorted (fun a b => f b <= f a)
                 (sortBy (fun a b => comparatorDescending (f a) (f b)) l).
Proof.
  eapply StronglySorted_weaken; [|apply sortBy_sorted].
  - intros a b. apply staysBefore_descending.
  - intros a b Hab. apply staysBefore_descending.
    apply Z.ltb_lt in Hab.
    unfold comparatorDescending, SORT_A_B_EQUAL, SORT_A_FIRST, SORT_B_FIRST in Hab.
    cbn [strictEq lessThan JsOrd_nat] in Hab.
    destruct (Nat.eqb_spec (f a) (f b)); [lia|].
    destruct (Nat.ltb_spec (f b) (f a)); lia.
  - intros a b c Hab Hbc. apply staysBefore_descending.
    apply staysBefore_descending in Hab, Hbc. lia.
Qed.

(** A stable sort keeps the order within every class of equal rank. *)
Lemma filter_insertBy_descending {A} (f : A -> nat) (n : nat) (a : A) (l : list A) :
  filter (fun x => f x =? n) (insertBy (fun a b => comparatorDescending (f a) (f b)) a l)
  = if f a =? n then a :: filter (fun x => f x =? n) l
    else filter (fun x => f x =? n) l.
Proof.
  induction l as [|b l IH]; cbn [insertBy filter].
  - reflexivity.
  - destruct (0 <? comparatorDescending (f a) (f b))%Z eqn:Hab; cbn [filter].
    + rewrite IH.
      assert (Hlt : f a < f b).
      { apply Z.ltb_lt in Hab.
        unfold comparatorDescending, SORT_A_B_EQUAL, SORT_A_FIRST, SORT_B_FIRST in Hab.
        cbn [strictEq lessThan JsOrd_nat] in Hab.
        destruct (Nat.eqb_spec (f a) (f b)); [lia|].
        destruct (Nat.ltb_spec (f b) (f a)); lia. }
      destruct (Nat.eqb_spec (f a) n) as [Ha|Ha];
        destruct (Nat.eqb_spec (f b) n) as [Hb|Hb]; try reflexivity; lia.
    + reflexivity.
Qed.

Lemma filter_sortBy_descending {A} (f : A -> nat) (n : nat) (l : list A) :
  filter (fun x => f x =? n) (sortBy (fun a b => comparatorDescending (f a) (f b)) l)
  = filter (fun x => f x =? n) l.
Proof.
  induction l as [|a l IH]; [reflexivity|].
  change (sortBy (fun a b => comparatorDescending (f a) (f b)) (a :: l))
    with (insertBy (fun a b => comparatorDescending (f a) (f b)) a
                   (sortBy (fun a b => comparatorDescending (f a) (f b)) l)).
  rewrite filter_insertBy_descending, IH. reflexivity.
Qed.

Lemma Subseq_app {A} (s l s' l' : list A) :
  Subseq s l -> Subseq s' l' -> Subseq (s ++ s') (l ++ l').
Proof.
  intros H H'. induction H; simpl; [assumption| |]; now constructor.
Qed.

Lemma Subseq_trans {A} (s l t : list A) : Subseq s l -> Subseq l t -> Subseq s t.
Proof.
  intros Hsl Hlt. revert s Hsl. induction Hlt as [|x l t Hlt IH|x l t Hlt IH];
    intros s Hsl.
  - assumption.
  - constructor. now apply IH.
  - inversion Hsl; subst; constructor; now apply IH.
Qed.

Lemma Subseq_filter {A} (p : A -> bool) (l : list A) : Subseq (filter p l) l.
Proof.
  induction l as [|a l IH]; simpl; [constructor|].
  destruct (p a); now constructor.
Qed.

Lemma Subseq_map {A B} (g : A -> B) (s l : list A) :
  Subseq s l -> Subseq (map g s) (map g l).
Proof. induction 1; simpl; now constructor. Qed.

Lemma Subseq_Forall {A} (P : A -> Prop) (s l : list A) :
  Subseq s l -> Forall P l -> Forall P s.
Proof.
  intros Hs Hl. apply Forall_forall. intros a Ha.
  rewrite Forall_forall in Hl. apply Hl. eapply Subseq_In; eassumption.
Qed.

Lemma Subseq_sorted {A} (R : A -> A -> Prop) (s l : list A) :
  Subseq s l -> StronglySorted R l -> StronglySorted R s.
Proof.
  induction 1 as [|x s l Hs IH|x s l Hs IH]; intros Hl.
  - constructor.
  - apply IH. now inversion Hl.
  - inversion Hl as [|? ? Hl' Hx]; subst. constructor; [now apply IH|].
    eapply Subseq_Forall; eassumption.
Qed.

Lemma seq_increasing (start len : nat) : StronglySorted lt (seq start len).
Proof.
  revert start; induction len as [|len IH]; intros start; simpl; constructor.
  - apply IH.
  - apply Forall_forall. intros p Hp. apply in_seq in Hp. lia.
Qed.

Lemma values_assign_new {V} (k : string) (v : V) (o : dict V) :
  lookup k o = None -> values (assign k v o) = values o ++ [v].
Proof.
  induction o as [|[k0 w] o IH]; simpl; [reflexivity|].
  destruct (String.eqb_spec k0 k); [discriminate|].
  intros Hl. simpl. now rewrite <- IH.
Qed.

Lemma values_assign_old {V W} (g : V -> W) (k : string) (v w : V) (o : dict V) :
  lookup k o = Some w -> g v = g w ->
  map g (values (assign k v o)) = map g (values o).
Proof.
  induction o as [|[k0 w0] o IH]; simpl; [discriminate|].
  destruct (String.eqb_spec k0 k) as [->|Hne]; simpl.
  - intros [= ->] Hg. now rewrite Hg.
  - intros Hl Hg. f_equal. now apply IH.
Qed.

(** The pixel a record's colour was sliced out of. *)
Definition firstPixel (r : ColorUsed) : nat :=
  match color r with
  | ColorArray (RPixel _ pixel) _ => pixel
  | _ => 0
  end.

Lemma appearance_loop call imgData (offsets seen : list nat) m :
  Subseq (map firstPixel (values m)) (map (fun i => i / RGBA_BYTES) seen) ->
  Subseq
    (map firstPixel
       (values
          (fold_left
             (fun (colorsUsedByKey : dict ColorUsed) i =>
                let color := ColorArray (RPixel call (i / RGBA_BYTES))
                                        (slice i (i + 3) (data imgData)) in
                let key := colorKey color in
                let colorUsed :=
                  match lookup key colorsUsedByKey with
                  | Some used => used
                  | None => {| key := key; color := color; pixelsUsing := 0 |}
                  end in
                assign key (countPixel colorUsed) colorsUsedByKey)
             offsets m)))
    (map (fun i => i / RGBA_BYTES) (seen ++ offsets)).
Proof.
  revert seen m; induction offsets as [|i offsets IH]; intros seen m Hinv;
    cbn [fold_left].
  - now rewrite app_nil_r.
  - replace (seen ++ i :: offsets) with ((seen ++ [i]) ++ offsets)
      by (now rewrite <- app_assoc).
    apply IH. rewrite map_app. cbn [map]. cbv zeta.
    set (k := colorKey _).
    destruct (lookup k m) as [used|] eqn:Hl.
    + rewrite (@values_assign_old _ _ firstPixel k (countPixel used) used m Hl eq_refl).
      rewrite <- (app_nil_r (map firstPixel (values m))).
      apply Subseq_app; [assumption|]. apply Subseq_skip, Subseq_nil.
    + rewrite (@values_assign_new _ k _ m Hl), map_app.
      apply Subseq_app; [assumption|]. cbn [map].
      apply (@Subseq_take _ (i / RGBA_BYTES) [] []), Subseq_nil.
Qed.

Lemma pixelOffsets_pixels (dataLength : nat) :
  map (fun i => i / RGBA_BYTES) (pixelOffsets dataLength) = seq 0 (pixelCount dataLength).
Proof.
  unfold pixelOffsets. rewrite map_map. rewrite <- (map_id (seq 0 _)) at 2.
  apply map_ext. intros p. unfold rgbaOffset, RGBA_BYTES. now rewrite Nat.div_mul by lia.
Qed.

(** X13: getLocalPalette returns its records from the most used colour
    to the least used; records with equally many pixels come in the
    order in which their colours first appear in the image. *)
Theorem getLocalPalette_order (call : nat) (imgData : ImageData) :
  StronglySorted (fun a b => pixelsUsing b <= pixelsUsing a)
                 (getLocalPalette call imgData)
  /\ forall n,
       StronglySorted lt
         (map firstPixel
              (filter (fun r => pixelsUsing r =? n) (getLocalPalette call imgData))).
Proof.
  unfold getLocalPalette. split; [apply sortBy_descending_sorted|].
  intros n. rewrite filter_sortBy_descending.
  set (m := fold_left _ _ _).
  apply (@Subseq_sorted _ lt _ (seq 0 (pixelCount (length (data imgData)))));
    [|apply seq_increasing].
  apply (@Subseq_trans _ _ (map firstPixel (values m))).
  - apply Subseq_map, Subseq_filter.
  - rewrite <- pixelOffsets_pixels. subst m.
    apply (@appearance_loop call imgData (pixelOffsets (length (data imgData))) [] []).
    constructor.
Qed.

(** ** nesify.js: the usage tables of the sample tiles *)

Lemma getLocalPalette_records (call : nat) (imgData : ImageData) :
  NoDup (map key (getLocalPalette call imgData))
  /\ Forall (fun r => key r = colorKey (color r) /\ 1 <= pixelsUsing r)
            (getLocalPalette call imgData)
  /\ list_sum (map pixelsUsing (getLocalPalette call imgData))
     = pixelCount (length (data imgData)).
Proof.
  unfold getLocalPalette.
  set (offsets := pixelOffsets (length (data imgData))).
  set (m := fold_left _ _ _).
  assert (Hcount : countsPixels m (pixelCount (length (data imgData)))).
  { subst m.
    replace (pixelCount (length (data imgData))) with (0 + length offsets)
      by (unfold offsets, pixelOffsets; now rewrite length_map, length_seq).
    apply getLocalPalette_loop. repeat split; constructor. }
  assert (Hhist : histogramOf call imgData offsets m).
  { subst m. apply (@histogramOf_loop call imgData offsets [] []).
    split; [constructor|]. split; [intros k r []|intros i []]. }
  destruct Hcount as (Hnd & Hkeys & Hsum). destruct Hhist as (_ & Hrecords & _).
  set (cmp := fun a b : ColorUsed => _).
  pose proof (sortBy_Permutation cmp (values m)) as Hperm.
  split; [|split].
  - apply (Permutation_NoDup (l := map key (values m)));
      [apply Permutation_map; now symmetry|].
    replace (map key (values m)) with (keys m); [assumption|].
    unfold keys, values. rewrite map_map. apply map_ext_Forall.
    eapply Forall_impl; [|exact Hkeys]. intros kv H. now rewrite H.
  - eapply Permutation_Forall; [symmetry; exact Hperm|].
    apply Forall_forall. intros r Hin.
    apply in_map_iff in Hin as ([k r'] & <- & Hin). cbn [snd].
    destruct (Hrecords k r' Hin)
      as (Hkey & Hn & before & i & after & Hsplit & Hcolor & Hi & _).
    split; [rewrite Hcolor, colorKey_pixelColor; congruence|].
    rewrite Hn, Hsplit, map_app, count_occ_app. cbn [map count_occ].
    destruct (string_dec (pixelKey imgData i) k); [lia|contradiction].
  - rewrite (list_sum_Permutation (Permutation_map pixelsUsing Hperm)). exact Hsum.
Qed.

(** What holds of [colorsUsedByKey] once [tiles] sample tiles are read
    and the keys [counted] of the tile being read are added. *)
Definition usageOf (tiles : nat) (counted : list string)
           (colorsUsedByKey : dict ColorUsage.t) : Prop :=
  NoDup (keys colorsUsedByKey)
  /\ forall k u,
       In (k, u) colorsUsedByKey ->
       ColorUsage.key u = k
       /\ colorKey (ColorUsage.color u) = k
       /\ 1 <= ColorUsage.tilesUsing u
       /\ (ColorUsage.tilesUsing u <= tiles
           \/ (In k counted /\ ColorUsage.tilesUsing u <= tiles + 1))
       /\ ColorUsage.tilesUsing u <= ColorUsage.pixelsUsing u
       /\ ColorUsage.ranking u = None.

Definition totalPixelsUsing (colorsUsedByKey : dict ColorUsage.t) : nat :=
  list_sum (map ColorUsage.pixelsUsing (values colorsUsedByKey)).

Lemma aggregateColors_usage (tiles : nat) (localPalette : list ColorUsed)
      (counted : list string) (m : dict ColorUsage.t) :
  NoDup (counted ++ map key localPalette) ->
  Forall (fun r => key r = colorKey (color r) /\ 1 <= pixelsUsing r) localPalette ->
  usageOf tiles counted m ->
  usageOf tiles (counted ++ map key localPalette) (aggregateColors localPalette m)
  /\ totalPixelsUsing (aggregateColors localPalette m)
     = totalPixelsUsing m + list_sum (map pixelsUsing localPalette).
Proof.
  unfold aggregateColors.
  revert counted m. induction localPalette as [|r rest IH];
    intros counted m Hnd Hrecords Husage; cbn [fold_left map list_sum fold_right].
  - rewrite app_nil_r. split; [assumption|lia].
  - inversion_clear Hrecords as [|? ? [Hkey Hpixels] Hrest].
    cbn [map] in Hnd.
    replace (counted ++ key r :: map key rest)
      with ((counted ++ [key r]) ++ map key rest) in * by (now rewrite <- app_assoc).
    set (colorUsed := match lookup (key r) m with Some used => used | None => _ end).
    set (m' := assign (key r) (countTile colorUsed (pixelsUsing r)) m).
    assert (Hfresh : ~ In (key r) counted).
    { intros Hin. apply NoDup_app_remove_r in Hnd.
      apply NoDup_remove_2 in Hnd. rewrite app_nil_r in Hnd. contradiction. }
    destruct Husage as (Hkeys & Hall).
    assert (Husage' : usageOf tiles (counted ++ [key r]) m').
    { split; [now apply assign_NoDup|].
      intros k u Hin. apply (In_assign _ _ _ _ Hkeys) in Hin.
      destruct Hin as [[= -> ->]|[Hin Hne]].
      - subst colorUsed.
        destruct (lookup (key r) m) as [used|] eqn:Hl;
          cbn [ColorUsage.key ColorUsage.color ColorUsage.tilesUsing
               ColorUsage.pixelsUsing ColorUsage.ranking countTile].
        + destruct (Hall _ _ (lookup_In _ _ Hl)) as (H1 & H2 & H3 & H4 & H5 & H6).
          repeat split; try assumption; try lia.
          right. split; [apply in_or_app; right; now left|].
          destruct H4 as [H4|[H4 _]]; [lia|contradiction].
        + repeat split; try reflexivity; try lia; try (now symmetry).
          right. split; [apply in_or_app; right; now left|lia].
      - destruct (Hall _ _ Hin) as (H1 & H2 & H3 & H4 & H5 & H6).
        repeat split; try assumption.
        destruct H4 as [H4|[H4 H4']]; [now left|].
        right. split; [apply in_or_app; now left|assumption]. }
    destruct (IH (counted ++ [key r]) m' Hnd Hrest Husage') as [Hfinal Hsum].
    split; [exact Hfinal|]. fold m'. rewrite Hsum. unfold totalPixelsUsing, m'.
    pose proof (sum_assign ColorUsage.pixelsUsing (key r)
                           (countTile colorUsed (pixelsUsing r)) m) as Hswap.
    subst colorUsed. destruct (lookup (key r) m) as [used|];
      cbn [ColorUsage.pixelsUsing countTile] in *; unfold list_sum in *; lia.
Qed.

Definition totalTilesUsing (subpalettesByKey : dict Subpalette.t) : nat :=
  list_sum (map Subpalette.tilesUsing (values subpalettesByKey)).

Lemma aggregateOptions_total (paletteOptions : list (list anyColor))
      (subpalettesByKey : dict Subpalette.t) :
  totalTilesUsing (aggregateOptions paletteOptions subpalettesByKey)
  = totalTilesUsing subpalettesByKey + length paletteOptions.
Proof.
  unfold aggregateOptions. revert subpalettesByKey.
  induction paletteOptions as [|option options IH]; intros s; cbn [fold_left length].
  - lia.
  - rewrite IH. unfold totalTilesUsing.
    set (found := match lookup (paletteKey option) s with Some f => f | None => _ end).
    pose proof (sum_assign Subpalette.tilesUsing (paletteKey option)
                           (addTiles found 1) s) as Hswap.
    subst found. destruct (lookup (paletteKey option) s) as [f|];
      cbn [Subpalette.tilesUsing addTiles] in *; lia.
Qed.

Lemma indexed_items {A} (l : list A) : map fst (indexed l) = l.
Proof.
  unfold indexed. generalize 0 as start.
  induction l as [|a l IH]; intros start; simpl; [reflexivity|].
  now rewrite IH.
Qed.

(** The options a sample tile contributes. *)
Definition tileOptions (call : nat) (ditheredImgData : ImageData)
  : list (list anyColor) :=
  enumeratePaletteOptions (map color (getLocalPalette call ditheredImgData))
                          COLORS_PER_SUBPALETTE.

Lemma processSampleTiles_loop (calls : list (ImageData * nat))
      (colors : dict ColorUsage.t) (subpalettes : dict Subpalette.t) (tiles : nat) :
  usageOf tiles [] colors ->
  let final :=
    fold_left
      (fun '(colorsUsedByKey, subpalettesByKey) '(ditheredImgData, call) =>
         let localPalette := getLocalPalette call ditheredImgData in
         let palette := map color localPalette in
         let paletteOptions :=
           enumeratePaletteOptions palette COLORS_PER_SUBPALETTE in
         (aggregateColors localPalette colorsUsedByKey,
          aggregateOptions paletteOptions subpalettesByKey))
      calls (colors, subpalettes) in
  usageOf (tiles + length calls) [] (fst final)
  /\ totalPixelsUsing (fst final)
     = totalPixelsUsing colors
       + list_sum (map (fun c => pixelCount (length (data (fst c)))) calls)
  /\ totalTilesUsing (snd final)
     = totalTilesUsing subpalettes
       + list_sum (map (fun '(tile, call) => length (tileOptions call tile)) calls).
Proof.
  revert colors subpalettes tiles.
  induction calls as [|[tile call] calls IH]; intros colors subpalettes tiles Husage;
    cbn [fold_left length map list_sum fold_right fst].
  - rewrite !Nat.add_0_r. split; [exact Husage|split; reflexivity].
  - cbv zeta.
    destruct (getLocalPalette_records call tile) as (Hnd & Hrecords & Hsum).
    destruct (@aggregateColors_usage tiles (getLocalPalette call tile) [] colors
                Hnd Hrecords Husage) as [Hstep Hpixels].
    assert (Hnext : usageOf (tiles + 1) []
                            (aggregateColors (getLocalPalette call tile) colors)).
    { destruct Hstep as (Hkeys & Hall). split; [assumption|].
      intros k u Hin. destruct (Hall k u Hin) as (H1 & H2 & H3 & H4 & H5 & H6).
      repeat split; try assumption. left. destruct H4 as [H4|[_ H4]]; lia. }
    destruct (IH (aggregateColors (getLocalPalette call tile) colors)
                 (aggregateOptions (tileOptions call tile) subpalettes)
                 (tiles + 1) Hnext) as (Hfinal & Hp & Ht).
    cbv zeta in Hp, Ht.
    split; [|split].
    + replace (tiles + S (length calls)) with (tiles + 1 + length calls) by lia.
      exact Hfinal.
    + unfold tileOptions in Hp. rewrite Hp, Hpixels, Hsum.
      unfold list_sum. lia.
    + unfold tileOptions in Ht |- *. rewrite Ht, aggregateOptions_total.
      unfold list_sum. lia.
Qed.

Lemma usageOf_nothing : usageOf 0 [] [].
Proof. split; [constructor|intros k u []]. Qed.

(** Every colour counted has a pixel, and the pixels counted are the
    pixels of the sample tiles. *)
Lemma processSampleTiles_pixels (sampleTiles : list ImageData) :
  (forall k u, In (k, u) (fst (processSampleTiles sampleTiles)) ->
               1 <= ColorUsage.pixelsUsing u)
  /\ list_sum (map ColorUsage.pixelsUsing (values (fst (processSampleTiles sampleTiles))))
     = list_sum (map (fun tile => pixelCount (length (data tile))) sampleTiles).
Proof.
  destruct (@processSampleTiles_loop (indexed sampleTiles) [] [] 0 usageOf_nothing)
    as ((Hkeys & Hall) & Hp & _).
  cbv zeta in *. split.
  - intros k u Hin. destruct (Hall k u Hin) as (_ & _ & H3 & _ & H5 & _). lia.
  - unfold totalPixelsUsing in Hp. etransitivity; [exact Hp|].
    cbn [values map list_sum fold_right].
    rewrite <- (map_map fst (fun t => pixelCount (length (data t)))).
    now rewrite indexed_items.
Qed.

(** X14: once the sample tiles are read, colorsUsedByKey holds one record
    for each colour key; a record is used by at least one tile and by no
    more tiles than were read, and by at least one pixel for each tile;
    the pixelsUsing of all records add up to the pixels of all sample
    tiles, and the tilesUsing of all candidate subpalettes to the number
    of options the tiles contributed. *)
Theorem processSampleTiles_totals (sampleTiles : list ImageData) :
  let colorsUsedByKey := fst (processSampleTiles sampleTiles) in
  let subpalettesByKey := snd (processSampleTiles sampleTiles) in
  NoDup (keys colorsUsedByKey)
  /\ (forall k u,
         In (k, u) colorsUsedByKey ->
         ColorUsage.key u = k
         /\ colorKey (ColorUsage.color u) = k
         /\ 1 <= ColorUsage.tilesUsing u <= length sampleTiles
         /\ ColorUsage.tilesUsing u <= ColorUsage.pixelsUsing u
         /\ ColorUsage.ranking u = None)
  /\ list_sum (map ColorUsage.pixelsUsing (values colorsUsedByKey))
     = list_sum (map (fun tile => pixelCount (length (data tile))) sampleTiles)
  /\ list_sum (map Subpalette.tilesUsing (values subpalettesByKey))
     = list_sum (map (fun '(tile, call) => length (tileOptions call tile))
                     (indexed sampleTiles)).
Proof.
  cbv zeta.
  destruct (@processSampleTiles_loop (indexed sampleTiles) [] [] 0 usageOf_nothing)
    as ((Hkeys & Hall) & _ & Ht).
  cbv zeta in *.
  assert (Hlen : length (indexed sampleTiles) = length sampleTiles).
  { unfold indexed. rewrite length_combine, length_seq. lia. }
  split; [exact Hkeys|]. split; [|split].
  - intros k u Hin. destruct (Hall k u Hin) as (H1 & H2 & H3 & H4 & H5 & H6).
    repeat split; try assumption.
    destruct H4 as [H4|[[] _]]. simpl in H4. lia.
  - apply processSampleTiles_pixels.
  - unfold totalTilesUsing in Ht. etransitivity; [exact Ht|]. reflexivity.
Qed.

(** ** nesify.js: the ranking of the colours *)

Lemma indexed_indices {A} (l : list A) : map snd (indexed l) = seq 0 (length l).
Proof.
  unfold indexed. generalize 0 as start.
  induction l as [|a l IH]; intros start; simpl; [reflexivity|].
  now rewrite IH.
Qed.

Lemma StronglySorted_map {A B} (g : A -> B) (R : B -> B -> Prop) (l : list A) :
  StronglySorted (fun a b => R (g a) (g b)) l -> StronglySorted R (map g l).
Proof.
  induction 1 as [|a l Hl IH Ha]; simpl; constructor; [assumption|].
  apply Forall_forall. intros b Hb. apply in_map_iff in Hb as (b' & <- & Hb).
  rewrite Forall_forall in Ha. now apply Ha.
Qed.

(** The use of a colour: its pixels, then its tiles. *)
Definition usage (colorUsed : ColorUsage.t) : nat * nat :=
  (ColorUsage.pixelsUsing colorUsed, ColorUsage.tilesUsing colorUsed).

(** [moreUsed a b]: [a] has more pixels than [b], or as many pixels and
    no fewer tiles. *)
Definition moreUsed (a b : nat * nat) : Prop :=
  fst b < fst a \/ (fst b = fst a /\ snd b <= snd a).

Lemma staysBefore_rank (a b : ColorUsage.t) :
  staysBefore
    (fun a b =>
       orElseCompare
         (comparatorDescending (ColorUsage.pixelsUsing a) (ColorUsage.pixelsUsing b))
         (comparatorDescending (ColorUsage.tilesUsing a) (ColorUsage.tilesUsing b)))
    a b
  <-> moreUsed (usage a) (usage b).
Proof.
  unfold staysBefore, moreUsed, usage. cbn [fst snd]. rewrite rank_comparator.
  rewrite orb_false_iff, andb_false_iff, !Nat.ltb_ge, Nat.eqb_neq. lia.
Qed.

(** X15: the ranked colours are the colours of colorsUsedByKey, each once
    and unchanged but for its ranking; they come from the most used to
    the least used, by pixels first and by tiles among colours with as
    many pixels; and the ranking of each is its place, from 0 on. *)
Theorem rankColors_ranking (colorsUsedByKey : dict ColorUsage.t) :
  let ranked := rankColors colorsUsedByKey in
  let unranked := fun u => (ColorUsage.key u, ColorUsage.color u,
                            ColorUsage.tilesUsing u, ColorUsage.pixelsUsing u) in
  Permutation (map unranked ranked) (map unranked (values colorsUsedByKey))
  /\ StronglySorted moreUsed (map usage ranked)
  /\ map ColorUsage.ranking ranked = map Some (seq 0 (length colorsUsedByKey)).
Proof.
  cbv zeta. unfold rankColors.
  set (cmp := fun a b : ColorUsage.t => orElseCompare _ _).
  set (sorted := sortBy cmp (values colorsUsedByKey)).
  set (rank := fun '(colorUsed, ranking) => _).
  assert (Hfields : forall (f : ColorUsage.t -> nat * nat) l,
             (forall u i, f (rank (u, i)) = f u) ->
             map f (map rank (indexed l)) = map f l).
  { intros f l Hf. rewrite map_map.
    rewrite <- (indexed_items l) at 2. rewrite map_map.
    apply map_ext. intros [u i]. apply Hf. }
  split; [|split].
  - rewrite map_map.
    assert (Hsame : map (fun x => (ColorUsage.key (rank x), ColorUsage.color (rank x),
                                   ColorUsage.tilesUsing (rank x),
                                   ColorUsage.pixelsUsing (rank x)))
                        (indexed sorted)
                    = map (fun u => (ColorUsage.key u, ColorUsage.color u,
                                     ColorUsage.tilesUsing u, ColorUsage.pixelsUsing u))
                          sorted).
    { rewrite <- (indexed_items sorted) at 2. rewrite map_map.
      apply map_ext. now intros [u i]. }
    rewrite Hsame. apply Permutation_map. apply sortBy_Permutation.
  - rewrite Hfields by reflexivity.
    apply StronglySorted_map.
    eapply StronglySorted_weaken; [|apply (@sortBy_sorted _ cmp)].
    + intros a b. apply staysBefore_rank.
    + intros a b Hab. apply staysBefore_rank. unfold cmp in Hab.
      rewrite rank_comparator, orb_true_iff, andb_true_iff, !Nat.ltb_lt, Nat.eqb_eq in Hab.
      unfold moreUsed, usage. cbn [fst snd]. lia.
    + intros a b c Hab Hbc. apply staysBefore_rank.
      apply staysBefore_rank in Hab, Hbc.
      unfold moreUsed, usage in *. cbn [fst snd] in *. lia.
  - rewrite map_map.
    transitivity (map (fun x : ColorUsage.t * nat => Some (snd x)) (indexed sorted)).
    { apply map_ext. now intros [u i]. }
    rewrite <- map_map, indexed_indices. unfold sorted.
    rewrite sortBy_length. unfold values. now rewrite length_map.
Qed.

(** ** nesify.js: getImageDataSubsection *)

(** Every byte of the subsection is the byte of the source at the same
    place counted from the start of the source row, or 0 past the end of
    the source data. *)
Lemma getImageDataSubsection_byte (imgData : ImageData) (sx sy sw sh j b : nat) :
  j < sh -> b < rgbaOffset sw ->
  nth (rgbaOffset (j * sw) + b) (data (getImageDataSubsection imgData sx sy sw sh)) 0%Z
  = nth (rgbaOffset (sx + (sy + j) * width imgData) + b) (data imgData) 0%Z.
Proof.
  intros Hj Hb. rewrite getImageDataSubsection_data.
  destruct (@rowsWritten_spec imgData sx sy sw sh sh (le_n sh)) as (Hlen & Hrows & Hrest).
  assert (Hslice : length (rowSlice imgData sx sy sw j)
                   = Nat.min (rgbaOffset sw)
                             (length (data imgData)
                              - rgbaOffset (sx + (sy + j) * width imgData))).
  { unfold rowSlice. rewrite slice_length. f_equal. lia. }
  destruct (Nat.lt_ge_cases b (length (rowSlice imgData sx sy sw j))) as [Hin|Hout].
  - specialize (Hrows j b Hj Hin). unfold rowSlice in Hrows.
    rewrite nth_error_slice in Hrows.
    replace (b <? _) with true in Hrows by (symmetry; apply Nat.ltb_lt; lia).
    assert (Hdata : rgbaOffset (sx + (sy + j) * width imgData) + b
                    < length (data imgData)) by lia.
    destruct (nth_error (data imgData) _) as [v|] eqn:Hv;
      [|apply nth_error_None in Hv; lia].
    rewrite (nth_error_nth _ _ _ Hrows). symmetry. now apply nth_error_nth.
  - rewrite (nth_overflow (data imgData)) by lia.
    assert (Hp : rgbaOffset (j * sw) + b < rgbaOffset (sw * sh)).
    { unfold rgbaOffset, RGBA_BYTES in *. nia. }
    apply nth_error_nth. rewrite Hrest.
    + rewrite nth_error_repeat by assumption. reflexivity.
    + intros j' Hj' [Hlow Hhigh].
      pose proof (rowSlice_length imgData sx sy sw j') as Hrow.
      destruct (Nat.eq_dec j' j) as [->|Hne]; [lia|].
      unfold rgbaOffset, RGBA_BYTES in *. nia.
Qed.

Lemma getImageDataSubsection_length (imgData : ImageData) (sx sy sw sh : nat) :
  length (data (getImageDataSubsection imgData sx sy sw sh)) = rgbaOffset (sw * sh).
Proof.
  rewrite getImageDataSubsection_data.
  now destruct (@rowsWritten_spec imgData sx sy sw sh sh (le_n sh)) as (Hlen & _).
Qed.

(** Two buffers of [sw] by [sh] pixels are equal when they agree row by
    row. *)
Lemma rows_ext (sw sh : nat) (l l' : list Z) :
  length l = rgbaOffset (sw * sh) -> length l' = rgbaOffset (sw * sh) ->
  (forall j b, j < sh -> b < rgbaOffset sw ->
               nth (rgbaOffset (j * sw) + b) l 0%Z = nth (rgbaOffset (j * sw) + b) l' 0%Z) ->
  l = l'.
Proof.
  intros Hl Hl' Hrows. apply (nth_ext l l' 0%Z 0%Z); [congruence|].
  intros p Hp. rewrite Hl in Hp.
  destruct sw as [|sw']; [unfold rgbaOffset in Hp; simpl in Hp; lia|].
  set (row := rgbaOffset (S sw')).
  assert (Hrow : row <> 0) by (unfold row, rgbaOffset, RGBA_BYTES; lia).
  pose proof (Nat.div_mod_eq p row) as Hdiv.
  pose proof (Nat.mod_upper_bound p row Hrow) as Hmod.
  replace p with (rgbaOffset ((p / row) * S sw') + p mod row)
    by (unfold row, rgbaOffset, RGBA_BYTES in *; lia).
  apply Hrows; [|exact Hmod].
  apply Nat.Div0.div_lt_upper_bound.
  unfold row, rgbaOffset, RGBA_BYTES in *. nia.
Qed.

(** X16: taking the whole of an image gives the image back, and a
    subsection of a subsection is the subsection of the image at the sum
    of the two positions, whenever the inner rectangle lies within the
    outer one. *)
Theorem getImageDataSubsection_composes (imgData : ImageData) :
  (length (data imgData) = rgbaOffset (width imgData * height imgData) ->
   getImageDataSubsection imgData 0 0 (width imgData) (height imgData) = imgData)
  /\ (forall sx sy sw sh sx' sy' sw' sh',
         sx' + sw' <= sw -> sy' + sh' <= sh ->
         getImageDataSubsection (getImageDataSubsection imgData sx sy sw sh)
                                sx' sy' sw' sh'
         = getImageDataSubsection imgData (sx + sx') (sy + sy') sw' sh').
Proof.
  assert (Hrecord : forall a b : ImageData,
             width a = width b -> height a = height b -> data a = data b -> a = b).
  { intros [wa ha da] [wb hb db]. simpl. now intros -> -> ->. }
  split.
  - intros Hwf. apply Hrecord; try reflexivity.
    apply (@rows_ext (width imgData) (height imgData));
      [apply getImageDataSubsection_length|assumption|].
    intros j b Hj Hb. rewrite getImageDataSubsection_byte by assumption.
    f_equal.
  - intros sx sy sw sh sx' sy' sw' sh' Hx Hy. apply Hrecord; try reflexivity.
    apply (@rows_ext sw' sh'); try apply getImageDataSubsection_length.
    intros j b Hj Hb. rewrite !getImageDataSubsection_byte by assumption.
    cbn [width getImageDataSubsection].
    replace (rgbaOffset (sx' + (sy' + j) * sw) + b)
      with (rgbaOffset ((sy' + j) * sw) + (rgbaOffset sx' + b))
      by (unfold rgbaOffset, RGBA_BYTES; lia).
    rewrite getImageDataSubsection_byte;
      [|lia|unfold rgbaOffset, RGBA_BYTES in *; lia].
    f_equal. unfold rgbaOffset, RGBA_BYTES. lia.
Qed.

Lemma getImageDataSubsection_composes_witness :
  getImageDataSubsection threeByTwo 0 0 3 2 = threeByTwo
  /\ getImageDataSubsection (getImageDataSubsection threeByTwo 1 0 2 2) 1 1 1 1
     = getImageDataSubsection threeByTwo 2 1 1 1.
Proof.
  destruct (getImageDataSubsection_composes threeByTwo) as [Hwhole Hpart].
  split.
  - apply Hwhole. reflexivity.
  - apply (Hpart 1 0 2 2 1 1 1 1); simpl; lia.
Defined.

(** ** nesify.js: imageDataDistance *)

Lemma fold_distance_ext (f g : nat -> float) (offsets : list nat) (acc : float) :
  (forall i, In i offsets -> f i = g i) ->
  fold_left (fun distance i => PrimFloat.add distance (f i)) offsets acc
  = fold_left (fun distance i => PrimFloat.add distance (g i)) offsets acc.
Proof.
  revert acc; induction offsets as [|i offsets IH]; intros acc Hfg; simpl;
    [reflexivity|].
  rewrite (Hfg i (or_introl eq_refl)). apply IH. intros j Hj. apply Hfg. now right.
Qed.

Lemma pixelOffsets_In (pixels i : nat) :
  In i (pixelOffsets (rgbaOffset pixels)) ->
  exists p, i = rgbaOffset p /\ p < pixels.
Proof.
  unfold pixelOffsets. rewrite pixelCount_exact. intros Hin.
  apply in_map_iff in Hin as (p & <- & Hp). apply in_seq in Hp.
  exists p. split; [reflexivity|lia].
Qed.

Lemma pixel_of_bytes (l : list Z) (pixels p : nat) :
  length l = rgbaOffset pixels -> p < pixels -> Forall byte l ->
  exists r g b,
    slice (rgbaOffset p) (rgbaOffset p + 3) l = [r; g; b]
    /\ byte r /\ byte g /\ byte b.
Proof.
  intros Hlen Hp Hbytes.
  destruct (@slice_three _ (rgbaOffset p) l) as (r & g & b & Hslice & Hr & Hg & Hb).
  { rewrite Hlen. unfold rgbaOffset, RGBA_BYTES. lia. }
  rewrite Forall_forall in Hbytes. exists r, g, b. auto.
Qed.

Lemma fold_distance_nonNeg (f : nat -> float) (offsets : list nat) (acc : float) :
  (forall i, In i offsets -> nonNeg (f i)) -> nonNeg acc ->
  nonNeg (fold_left (fun distance i => PrimFloat.add distance (f i)) offsets acc).
Proof.
  revert acc; induction offsets as [|i offsets IH]; intros acc Hf Hacc; simpl;
    [assumption|].
  apply IH; [intros j Hj; apply Hf; now right|].
  apply add_nonNeg; [assumption|apply Hf; now left].
Qed.

(** X17: for two images of the same number of pixels, with byte data,
    imageDataDistance is a number that is not negative, it is the same
    in both directions, and from an image to itself it is 0. *)
Theorem imageDataDistance_symmetric (imgDataA imgDataB : ImageData) (pixels : nat) :
  length (data imgDataA) = rgbaOffset pixels ->
  length (data imgDataB) = rgbaOffset pixels ->
  Forall byte (data imgDataA) -> Forall byte (data imgDataB) ->
  PrimFloat.leb PrimFloat.zero (imageDataDistance imgDataA imgDataB) = true
  /\ imageDataDistance imgDataA imgDataB = imageDataDistance imgDataB imgDataA
  /\ imageDataDistance imgDataA imgDataA = PrimFloat.zero.
Proof.
  intros HlenA HlenB HA HB. unfold imageDataDistance. rewrite HlenA, HlenB. split.
  { apply (@fold_distance_nonNeg
             (fun i => colorDistance
                         (ColorArray RFresh (slice i (i + 3) (data imgDataA)))
                         (ColorArray RFresh (slice i (i + 3) (data imgDataB)))));
      [|reflexivity].
    intros i Hi. apply pixelOffsets_In in Hi as (p & -> & Hp).
    destruct (@pixel_of_bytes (data imgDataA) pixels p HlenA Hp HA)
      as (a0 & a1 & a2 & -> & Ha0 & Ha1 & Ha2).
    destruct (@pixel_of_bytes (data imgDataB) pixels p HlenB Hp HB)
      as (b0 & b1 & b2 & -> & Hb0 & Hb1 & Hb2).
    now apply colorDistance_bytes. }
  split.
  - apply fold_distance_ext. intros i Hi.
    apply pixelOffsets_In in Hi as (p & -> & Hp).
    destruct (@pixel_of_bytes (data imgDataA) pixels p HlenA Hp HA) as (a0 & a1 & a2 & -> & Ha0 & Ha1 & Ha2).
    destruct (@pixel_of_bytes (data imgDataB) pixels p HlenB Hp HB) as (b0 & b1 & b2 & -> & Hb0 & Hb1 & Hb2).
    destruct (@colorDistance_of_bytes RFresh RFresh a0 a1 a2 b0 b1 b2) as [-> _];
      try assumption.
    destruct (@colorDistance_of_bytes RFresh RFresh b0 b1 b2 a0 a1 a2) as [-> _];
      try assumption.
    do 2 f_equal. lia.
  - rewrite (@fold_distance_ext _ (fun _ => PrimFloat.zero)).
    + generalize (pixelOffsets (rgbaOffset pixels)).
      induction l as [|i l IH]; simpl; [reflexivity|exact IH].
    + intros i Hi. apply pixelOffsets_In in Hi as (p & -> & Hp).
      destruct (@pixel_of_bytes (data imgDataA) pixels p HlenA Hp HA) as (a0 & a1 & a2 & -> & Ha0 & Ha1 & Ha2).
      now apply (@colorDistance_of_bytes RFresh RFresh a0 a1 a2 a0 a1 a2).
Qed.

Lemma imageDataDistance_symmetric_witness :
  PrimFloat.leb PrimFloat.zero
                (imageDataDistance threeByTwo (getImageDataSubsection threeByTwo 1 0 3 2))
  = true
  /\ imageDataDistance threeByTwo (getImageDataSubsection threeByTwo 1 0 3 2)
     = imageDataDistance (getImageDataSubsection threeByTwo 1 0 3 2) threeByTwo
  /\ imageDataDistance threeByTwo threeByTwo = PrimFloat.zero.
Proof.
  apply (@imageDataDistance_symmetric threeByTwo
           (getImageDataSubsection threeByTwo 1 0 3 2) 6);
    try reflexivity;
    vm_compute; repeat constructor; discriminate.
Defined.

(** *** What the distance does not read *)

Lemma nth_error_extensional {A} (l l' : list A) :
  (forall k, nth_error l k = nth_error l' k) -> l = l'.
Proof.
  revert l'; induction l as [|a l IH]; intros [|a' l'] H.
  - reflexivity.
  - discriminate (H 0).
  - discriminate (H 0).
  - pose proof (H 0) as H0. simpl in H0. injection H0 as ->.
    f_equal. apply IH. intros k. apply (H (S k)).
Qed.

Lemma slice_rgb_ext (l l' : list Z) (i : nat) :
  (forall k, k < 3 -> nth_error l (i + k) = nth_error l' (i + k)) ->
  slice i (i + 3) l = slice i (i + 3) l'.
Proof.
  intros H. apply nth_error_extensional. intros k. rewrite !nth_error_slice.
  replace (i + 3 - i) with 3 by lia.
  destruct (Nat.ltb_spec k 3); [now apply H|reflexivity].
Qed.

(** X18: imageDataDistance reads the red, green and blue bytes of the
    pixels of the first image and the bytes at the same places in the
    second: changing alpha bytes, the sizes recorded in either image, or
    what the second buffer holds past the length of the first, changes
    nothing. *)
Theorem imageDataDistance_reads_rgb
        (imgDataA imgDataB imgDataA' imgDataB' : ImageData) (pixels : nat) :
  length (data imgDataA) = rgbaOffset pixels ->
  length (data imgDataA') = rgbaOffset pixels ->
  (forall p c, p < pixels -> c < 3 ->
     nth_error (data imgDataA') (rgbaOffset p + c)
     = nth_error (data imgDataA) (rgbaOffset p + c)
     /\ nth_error (data imgDataB') (rgbaOffset p + c)
        = nth_error (data imgDataB) (rgbaOffset p + c)) ->
  imageDataDistance imgDataA' imgDataB' = imageDataDistance imgDataA imgDataB.
Proof.
  intros HlenA HlenA' Hrgb. unfold imageDataDistance. rewrite HlenA, HlenA'.
  apply fold_distance_ext. intros i Hi.
  apply pixelOffsets_In in Hi as (p & -> & Hp).
  rewrite (@slice_rgb_ext (data imgDataA') (data imgDataA))
    by (intros k Hk; now apply Hrgb).
  rewrite (@slice_rgb_ext (data imgDataB') (data imgDataB))
    by (intros k Hk; now apply Hrgb).
  reflexivity.
Qed.

Definition twoPixels (alpha : Z) (tail : list Z) : ImageData :=
  {| width := 2; height := 1;
     data := [10; 20; 30; alpha; 40; 50; 60; alpha]%Z ++ tail |}.

Lemma imageDataDistance_reads_rgb_witness :
  imageDataDistance (twoPixels 0 []) (twoPixels 7 [1; 2; 3]%Z)
  = imageDataDistance (twoPixels 255 []) (twoPixels 255 []).
Proof.
  apply (@imageDataDistance_reads_rgb
           (twoPixels 255 []) (twoPixels 255 []) (twoPixels 0 [])
           (twoPixels 7 [1; 2; 3]%Z) 2); try reflexivity.
  intros [|[|p]] [|[|[|c]]] Hp Hc; try lia; now split.
Defined.

(** *** A second image that is too short *)

Lemma add_nan_r (x : float) : PrimFloat.add x PrimFloat.nan = PrimFloat.nan.
Proof.
  apply Prim2SF_inj. rewrite add_spec, Prim2SF_nan.
  unfold SF64add, SFadd. now destruct (Prim2SF x) as [[]|[]| |[] ? ?].
Qed.

Lemma colorDistance_short (a : anyColor) (id : ref) (elements : list Z) :
  length elements < 3 ->
  colorDistance a (ColorArray id elements) = PrimFloat.nan.
Proof.
  intros Hlen. unfold colorDistance.
  change (channels (ColorArray id elements)) with elements.
  assert (Hb2 : operand elements 2 = PrimFloat.nan).
  { unfold operand. now rewrite (proj2 (nth_error_None elements 2)) by lia. }
  rewrite Hb2.
  change (square (PrimFloat.sub PrimFloat.nan PrimFloat.nan)) with PrimFloat.nan.
  now rewrite add_nan_r.
Qed.

(** X19: when the second image lacks a byte that the loop over the first
    image's pixels reads, that is when its data is at least two bytes
    shorter than the first's, imageDataDistance is NaN. *)
Theorem imageDataDistance_short_is_NaN (imgDataA imgDataB : ImageData) (pixels : nat) :
  length (data imgDataA) = rgbaOffset pixels ->
  length (data imgDataB) + 1 < length (data imgDataA) ->
  PrimFloat.is_nan (imageDataDistance imgDataA imgDataB) = true.
Proof.
  intros HlenA Hshort. unfold imageDataDistance, pixelOffsets.
  rewrite HlenA, pixelCount_exact.
  destruct pixels as [|last];
    [rewrite HlenA in Hshort; unfold rgbaOffset in Hshort; lia|].
  rewrite seq_S, map_app, fold_left_app. cbn [map fold_left Nat.add].
  rewrite colorDistance_short; [now rewrite add_nan_r|].
  rewrite slice_length. rewrite HlenA in Hshort.
  unfold rgbaOffset, RGBA_BYTES in *. lia.
Qed.

Lemma imageDataDistance_short_is_NaN_witness :
  PrimFloat.is_nan
    (imageDataDistance (twoPixels 255 [])
                       {| width := 2; height := 1; data := [10; 20; 30; 255; 40; 50]%Z |})
  = true.
Proof.
  apply (@imageDataDistance_short_is_NaN (twoPixels 255 []) _ 2);
    [reflexivity|simpl; lia].
Defined.

(** ** nesify.js: the custom palette *)

Lemma pairsOf_length (s : string) : length (pairsOf s) = String.length s / 2.
Proof.
  assert (H : forall n s, String.length s <= n ->
                          length (pairsOf s) = String.length s / 2).
  { induction n as [|n IH]; intros [|a [|b rest]] Hlen; try reflexivity;
      simpl in Hlen; try lia.
    cbn [pairsOf length String.length].
    rewrite IH by lia.
    change (S (S (String.length rest))) with (2 + String.length rest).
    replace (2 + String.length rest) with (String.length rest + 1 * 2) by lia.
    rewrite Nat.div_add by lia. lia. }
  apply (H (String.length s)). lia.
Qed.

Lemma chunkOffsets_In (total chunkSize i : nat) :
  0 < chunkSize -> In i (chunkOffsets total chunkSize) -> i < total.
Proof.
  intros Hchunk Hin. unfold chunkOffsets in Hin.
  apply in_map_iff in Hin as (n & <- & Hn). apply in_seq in Hn.
  unfold ceilDiv in Hn. destruct Hn as [_ Hn]. simpl in Hn.
  pose proof (Nat.div_mod_eq (total + (chunkSize - 1)) chunkSize) as Hdiv.
  pose proof (Nat.mod_upper_bound (total + (chunkSize - 1)) chunkSize ltac:(lia)) as Hmod.
  nia.
Qed.

Lemma fold_assign_Forall {X V} (P : string * V -> Prop) (keyOf : X -> string)
      (valueOf : X -> V) (items : list X) (o : dict V) :
  Forall P o ->
  (forall x, In x items -> P (keyOf x, valueOf x)) ->
  Forall P (fold_left (fun o x => assign (keyOf x) (valueOf x) o) items o).
Proof.
  revert o; induction items as [|x items IH]; intros o Ho Hitems; simpl;
    [assumption|].
  apply IH; [|intros y Hy; apply Hitems; now right].
  apply Forall_assign; [apply Hitems; now left|assumption].
Qed.

(** The colours in front of a chunk of the custom palette: the
    backgroundColor option when it is truthy. *)
Definition forcedBackground (options : Options) : list anyColor :=
  match backgroundColor options with
  | Some background => if truthy background then [background] else []
  | None => []
  end.

(** X20: the custom palette is read as pairs of the characters 0-9 and
    a-f it holds (others, upper-case digits too, are dropped, and so is an
    odd digit at the end).  With no pair there is a TypeError, and, the
    backgroundColor option having three channels, only then.  Otherwise
    the first colour is the table entry of the first pair, the colours
    used are table entries of pairs (undefined for an unknown index) with
    no tile and no pixel counted, and every subpalette is the n-th run of
    up to four consecutive colours, or of up to three behind the
    backgroundColor option when that is truthy, under the key of its
    palette. *)
Theorem processCustomPalette_pairs (options : Options) (paletteString : string) :
  (forall background,
      backgroundColor options = Some background -> threeChannels background) ->
  let pairs := pairsOf (filterString isHexDigit paletteString) in
  let chunkSize := if truthyOption (backgroundColor options) then 3 else 4 in
  length pairs = String.length (filterString isHexDigit paletteString) / 2
  /\ (processCustomPalette options paletteString = Throw "TypeError"
      <-> String.length (filterString isHexDigit paletteString) < 2)
  /\ (forall first colorsUsedByKey subpalettesByKey,
         processCustomPalette options paletteString
         = Ok (first, colorsUsedByKey, subpalettesByKey) ->
         first = nth 0 (map nesPaletteColor pairs) ColorUndefined
         /\ (forall k u,
                In (k, u) colorsUsedByKey ->
                k = colorKey (ColorUsage.color u)
                /\ In (ColorUsage.color u) (map nesPaletteColor pairs)
                /\ ColorUsage.tilesUsing u = 0 /\ ColorUsage.pixelsUsing u = 0)
         /\ (forall k subpalette,
                In (k, subpalette) subpalettesByKey ->
                k = paletteKey (Subpalette.palette subpalette)
                /\ Subpalette.key subpalette = k
                /\ Subpalette.tilesUsing subpalette = 0
                /\ exists n chunk,
                    n * chunkSize < length pairs
                    /\ chunk = firstn chunkSize
                                      (skipn (n * chunkSize) (map nesPaletteColor pairs))
                    /\ Subpalette.palette subpalette = forcedBackground options ++ chunk
                    /\ 1 <= length chunk <= chunkSize)).
Proof.
  intros _. cbv zeta. split; [apply pairsOf_length|].
  pose proof (pairsOf_length (filterString isHexDigit paletteString)) as Hpairs.
  unfold processCustomPalette.
  destruct (pairsOf (filterString isHexDigit paletteString)) as [|pair pairs] eqn:Hp.
  - split.
    + split; [intros _|reflexivity].
      cbn [length] in Hpairs. symmetry in Hpairs.
      apply Nat.div_small_iff in Hpairs; lia.
    + discriminate.
  - split.
    + split; [discriminate|]. intros Hlen.
      rewrite Nat.div_small in Hpairs by assumption. discriminate.
    + intros first colorsUsedByKey subpalettesByKey [= <- <- <-].
      set (customPaletteColors := map nesPaletteColor (pair :: pairs)).
      set (chunkSize := if truthyOption (backgroundColor options) then 3 else 4).
      assert (Hchunk : 0 < chunkSize)
        by (unfold chunkSize; destruct (truthyOption _); lia).
      split; [reflexivity|]. split.
      * intros k u Hin.
        pose proof (@fold_assign_Forall
                      anyColor ColorUsage.t
                      (fun kv => fst kv = colorKey (ColorUsage.color (snd kv))
                                 /\ In (ColorUsage.color (snd kv)) customPaletteColors
                                 /\ ColorUsage.tilesUsing (snd kv) = 0
                                 /\ ColorUsage.pixelsUsing (snd kv) = 0)
                      colorKey
                      (fun color =>
                         {| ColorUsage.key := colorKey color; ColorUsage.color := color;
                            ColorUsage.tilesUsing := 0; ColorUsage.pixelsUsing := 0;
                            ColorUsage.ranking := None |})
                      customPaletteColors [] (Forall_nil _)) as Hall.
        rewrite Forall_forall in Hall.
        apply (Hall (fun color Hcolor => conj eq_refl (conj Hcolor (conj eq_refl eq_refl)))
                    (k, u) Hin).
      * intros k subpalette Hin.
        set (paletteAt := fun i =>
               match backgroundColor options with
               | Some background =>
                 if truthy background
                 then background :: slice i (i + chunkSize) customPaletteColors
                 else slice i (i + chunkSize) customPaletteColors
               | None => slice i (i + chunkSize) customPaletteColors
               end).
        pose proof (@fold_assign_Forall
                      nat Subpalette.t
                      (fun kv =>
                         fst kv = paletteKey (Subpalette.palette (snd kv))
                         /\ Subpalette.key (snd kv) = fst kv
                         /\ Subpalette.tilesUsing (snd kv) = 0
                         /\ exists n chunk,
                             n * chunkSize < length (pair :: pairs)
                             /\ chunk = firstn chunkSize
                                               (skipn (n * chunkSize) customPaletteColors)
                             /\ Subpalette.palette (snd kv)
                                = forcedBackground options ++ chunk
                             /\ 1 <= length chunk <= chunkSize)
                      (fun i => paletteKey (paletteAt i))
                      (fun i => {| Subpalette.key := paletteKey (paletteAt i);
                                   Subpalette.palette := paletteAt i;
                                   Subpalette.tilesUsing := 0 |})
                      (chunkOffsets (length customPaletteColors) chunkSize) []
                      (Forall_nil _)) as Hall.
        rewrite Forall_forall in Hall.
        apply (fun H => Hall H (k, subpalette) Hin).
        intros i Hi. cbn [fst snd Subpalette.key Subpalette.palette Subpalette.tilesUsing].
        repeat split.
        pose proof (@chunkOffsets_In _ _ _ Hchunk Hi) as Hbound.
        unfold chunkOffsets in Hi. apply in_map_iff in Hi as (n & <- & _).
        unfold customPaletteColors in Hbound. rewrite length_map in Hbound.
        exists n, (slice (n * chunkSize) (n * chunkSize + chunkSize) customPaletteColors).
        split; [exact Hbound|]. split; [|split].
        -- unfold slice. f_equal. lia.
        -- unfold paletteAt, forcedBackground.
           destruct (backgroundColor options) as [background|]; [|reflexivity].
           now destruct (truthy background).
        -- rewrite slice_length. unfold customPaletteColors. rewrite length_map. lia.
Qed.

(** A palette of three pairs behind a red background; the upper-case F
    and the blanks are dropped, and the 0 left over has no partner. *)
Lemma processCustomPalette_pairs_witness :
  length (pairsOf (filterString isHexDigit "16 27 30 0F")) = 3
  /\ processCustomPalette {| backgroundColor := Some (ColorString "#ff0000");
                             customPalette := Some "16 27 30 0F" |}
                          "16 27 30 0F"
     <> Throw "TypeError".
Proof.
  destruct (@processCustomPalette_pairs
              {| backgroundColor := Some (ColorString "#ff0000");
                 customPalette := Some "16 27 30 0F" |}
              "16 27 30 0F")
    as (Hpairs & Hthrow & _).
  - intros background [= <-]. unfold threeChannels. simpl. lia.
  - split; [exact Hpairs|].
    intros Heq. apply Hthrow in Heq. simpl in Heq. lia.
Defined.

(** ** nesify.js: the pool while the tiles are assigned *)

(** Two candidates that differ by the order of their colours at most. *)
Definition sameColors (a b : Subpalette.t) : Prop :=
  Subpalette.key a = Subpalette.key b
  /\ Subpalette.tilesUsing a = Subpalette.tilesUsing b
  /\ Permutation (Subpalette.palette a) (Subpalette.palette b).

Lemma sameColors_refl (a : Subpalette.t) : sameColors a a.
Proof. repeat split. apply Permutation_refl. Qed.

Lemma sameColors_trans (a b c : Subpalette.t) :
  sameColors a b -> sameColors b c -> sameColors a c.
Proof.
  intros (Hk & Ht & Hp) (Hk' & Ht' & Hp'). repeat split; try congruence.
  now rewrite Hp.
Qed.

Lemma Forall2_sameColors_refl (l : list Subpalette.t) : Forall2 sameColors l l.
Proof. induction l; constructor; [apply sameColors_refl|assumption]. Qed.

Lemma Forall2_sameColors_trans (l1 l2 l3 : list Subpalette.t) :
  Forall2 sameColors l1 l2 -> Forall2 sameColors l2 l3 -> Forall2 sameColors l1 l3.
Proof.
  intros H12. revert l3. induction H12 as [|a b l1 l2 Hab H12 IH]; intros l3 H23;
    inversion H23; subst; constructor.
  - eapply sameColors_trans; eassumption.
  - now apply IH.
Qed.

Lemma Forall2_setNth (l : list Subpalette.t) (i : nat) (a b : Subpalette.t) :
  nth_error l i = Some a -> sameColors a b -> Forall2 sameColors l (setNth i b l).
Proof.
  revert i; induction l as [|c l IH]; intros [|i] Hi Hab; simpl in *; try discriminate.
  - injection Hi as ->. constructor; [assumption|apply Forall2_sameColors_refl].
  - constructor; [apply sameColors_refl|now apply IH].
Qed.

Lemma In_indexed_nth {A} (l : list A) (a : A) (i : nat) :
  In (a, i) (indexed l) -> nth_error l i = Some a.
Proof.
  intros Hin. destruct (In_nth_error _ _ Hin) as [j Hj].
  rewrite nth_error_indexed in Hj.
  destruct (nth_error l j) as [a'|] eqn:Ha; [|discriminate].
  simpl in Hj. now injection Hj as -> ->.
Qed.

Section PoolKept.

Variable ditherjs : ImageData -> list anyColor -> ImageData.
Variable sortPalette : anyColor -> list anyColor -> list anyColor.
Variables (sharedBackgroundColor : anyColor) (globalPalette : list anyColor).

Hypothesis sortPalette_permutes :
  forall color palette, Permutation (sortPalette color palette) palette.

Lemma assignTile_keeps (subpalettes subpalettes' : list Subpalette.t) (tile : Tile)
      (best : TileOption) :
  assignTile ditherjs sortPalette sharedBackgroundColor globalPalette subpalettes tile
  = Ok (best, subpalettes') ->
  nth_error subpalettes (index best) = Some (subpalette best)
  /\ Forall2 sameColors subpalettes subpalettes'.
Proof.
  unfold assignTile, tileImgDataOptions.
  set (cmp := fun a b : TileOption => comparatorAscending (distance a) (distance b)).
  set (render := fun '(subpalette, index) => _).
  destruct (sortBy cmp (map render (indexed subpalettes))) as [|first rest] eqn:Hsort;
    [discriminate|].
  intros [= <- <-].
  assert (Hin : In first (map render (indexed subpalettes))).
  { eapply Permutation_in; [apply (sortBy_Permutation cmp)|].
    rewrite Hsort. now left. }
  apply in_map_iff in Hin as ([candidate i] & <- & Hin).
  apply In_indexed_nth in Hin. cbn [index subpalette render].
  split; [assumption|].
  apply (Forall2_setNth _ _ Hin).
  repeat split. cbn [Subpalette.palette]. symmetry. apply sortPalette_permutes.
Qed.

Lemma assignTiles_keeps (tiles : list Tile) :
  forall subpalettes assigned,
    assignTiles ditherjs sortPalette sharedBackgroundColor globalPalette subpalettes tiles
    = Ok assigned ->
    forall tile candidates best,
      In (tile, candidates, best) assigned ->
      Forall2 sameColors subpalettes candidates
      /\ nth_error candidates (index best) = Some (subpalette best).
Proof.
  induction tiles as [|first tiles IH]; intros subpalettes assigned Hrun;
    cbn [assignTiles] in Hrun.
  - injection Hrun as <-. intros tile candidates best [].
  - destruct (assignTile ditherjs sortPalette sharedBackgroundColor globalPalette
                         subpalettes first) as [[chosen subpalettes']|message] eqn:Hstep;
      [|discriminate]. cbn [bind] in Hrun.
    destruct (assignTiles ditherjs sortPalette sharedBackgroundColor globalPalette
                          subpalettes' tiles) as [others|message] eqn:Hrest;
      [|discriminate]. cbn [bind] in Hrun. injection Hrun as <-.
    apply assignTile_keeps in Hstep as [Hchosen Hkept].
    intros tile candidates best [[= <- <- <-]|Hin].
    + split; [apply Forall2_sameColors_refl|assumption].
    + destruct (IH subpalettes' others Hrest tile candidates best Hin) as [Hsame Hbest].
      split; [|assumption]. eapply Forall2_sameColors_trans; eassumption.
Qed.

End PoolKept.

(** X21: the tile loop sorts the palette of every subpalette it chooses in
    place, so later tiles find it rearranged; as a sort only rearranges,
    each tile still finds the subpalettes of the pool, place by place,
    with their keys, their tile counts and their colours, and the one it
    is given is the one at its index. *)
Theorem assignTiles_keeps_pool
        (ditherjs : ImageData -> list anyColor -> ImageData)
        (sortPalette : anyColor -> list anyColor -> list anyColor)
        (sharedBackgroundColor : anyColor) (globalPalette : list anyColor)
        (subpalettes : list Subpalette.t) (tiles : list Tile)
        (assigned : list (Tile * list Subpalette.t * TileOption)) :
  (forall color palette, Permutation (sortPalette color palette) palette) ->
  assignTiles ditherjs sortPalette sharedBackgroundColor globalPalette subpalettes tiles
  = Ok assigned ->
  forall tile candidates best,
    In (tile, candidates, best) assigned ->
    Forall2 sameColors subpalettes candidates
    /\ nth_error candidates (index best) = Some (subpalette best)
    /\ Forall2 (fun a b => paletteKey (Subpalette.palette a)
                           = paletteKey (Subpalette.palette b))
               subpalettes candidates.
Proof.
  intros Hperm Hrun tile candidates best Hin.
  destruct (@assignTiles_keeps ditherjs sortPalette sharedBackgroundColor globalPalette
                               Hperm tiles subpalettes assigned Hrun
                               tile candidates best Hin) as [Hsame Hbest].
  split; [assumption|]. split; [assumption|].
  eapply Forall2_impl; [|exact Hsame].
  intros a b (_ & _ & Hpalette). unfold paletteKey. f_equal.
  apply sortBy_strings_unique. now apply Permutation_map.
Qed.

Lemma assignTiles_keeps_pool_witness :
  exists assigned,
    assignTiles paintFirstColor (fun _ palette => rev palette) red [red; blue]
                threeCandidates [redPixelTile; redPixelTile]
    = Ok assigned
    /\ forall tile candidates best,
         In (tile, candidates, best) assigned ->
         Forall2 sameColors threeCandidates candidates.
Proof.
  eexists. split; [vm_compute; reflexivity|].
  intros tile candidates best Hin.
  eapply (@assignTiles_keeps_pool
            paintFirstColor (fun _ palette => rev palette) red [red; blue]
            threeCandidates [redPixelTile; redPixelTile]).
  - intros color palette. symmetry. apply Permutation_rev.
  - vm_compute. reflexivity.
  - exact Hin.
Defined.

(** ** nesify.js: canvasImage *)





(** ** nesify.js: the background colour, at the edges *)

Lemma pixelCount_zero (dataLength : nat) : pixelCount dataLength = 0 <-> dataLength = 0.
Proof.
  unfold pixelCount, RGBA_BYTES. split.
  - intros H. apply Nat.div_small_iff in H; lia.
  - intros ->. reflexivity.
Qed.

Lemma list_sum_zero (l : list nat) : list_sum l = 0 <-> Forall (fun n => n = 0) l.
Proof.
  induction l as [|n l IH]; simpl.
  - split; [constructor|reflexivity].
  - split.
    + intros H. constructor; [lia|]. apply IH. lia.
    + intros H. inversion_clear H as [|? ? Hn Hl]. apply IH in Hl. lia.
Qed.

Lemma processSampleTiles_empty (sampleTiles : list ImageData) :
  fst (processSampleTiles sampleTiles) = []
  <-> Forall (fun tile => data tile = []) sampleTiles.
Proof.
  destruct (processSampleTiles_pixels sampleTiles) as [Hall Hsum].
  assert (Hpixels : list_sum (map (fun tile => pixelCount (length (data tile)))
                                  sampleTiles) = 0
                    <-> Forall (fun tile => data tile = []) sampleTiles).
  { rewrite list_sum_zero, Forall_map. split; apply Forall_impl; intros tile H.
    - apply length_zero_iff_nil. now apply pixelCount_zero.
    - rewrite H. reflexivity. }
  rewrite <- Hpixels, <- Hsum.
  destruct (fst (processSampleTiles sampleTiles)) as [|[k u] rest].
  - split; reflexivity.
  - split; [discriminate|]. intros Hzero. exfalso.
    pose proof (Hall k u (or_introl eq_refl)) as Hpixel.
    cbn [values map list_sum fold_right snd] in Hzero. lia.
Qed.

(** X23: with no backgroundColor and no custom palette, the background
    colour is taken from the colours counted; when the sample tiles hold
    no pixel at all there is none, and the run ends in a TypeError; with a
    pixel it goes on. *)
Theorem resolveBackground_needs_a_pixel (options : Options)
        (sampleTiles : list ImageData) :
  backgroundColor options = None ->
  truthyString (customPalette options) = false ->
  (resolveBackground options sampleTiles = Throw "TypeError"
   <-> Forall (fun tile => data tile = []) sampleTiles)
  /\ (~ Forall (fun tile => data tile = []) sampleTiles ->
      exists bg subpalettesByKey,
        resolveBackground options sampleTiles = Ok (bg, subpalettesByKey)).
Proof.
  intros Hbg Hcustom.
  assert (Hrun : resolveBackground options sampleTiles
                 = match rankColors (fst (processSampleTiles sampleTiles)) with
                   | mostUsed :: _ =>
                     Ok (ColorUsage.color mostUsed, snd (processSampleTiles sampleTiles))
                   | [] => Throw "TypeError"
                   end).
  { unfold resolveBackground, selectBackground. rewrite Hbg.
    destruct (customPalette options) as [paletteString|]; rewrite ?Hcustom;
      destruct (processSampleTiles sampleTiles) as [colors subpalettes];
      cbn [bind fst snd truthy negb];
      now destruct (rankColors colors). }
  assert (Hranked : rankColors (fst (processSampleTiles sampleTiles)) = []
                    <-> fst (processSampleTiles sampleTiles) = []).
  { unfold rankColors. split.
    - intros H. apply (f_equal (@length _)) in H.
      rewrite length_map in H. unfold indexed in H.
      rewrite length_combine, length_seq, Nat.min_id, sortBy_length in H.
      unfold values in H. rewrite length_map in H. now apply length_zero_iff_nil.
    - intros ->. reflexivity. }
  rewrite Hrun, <- processSampleTiles_empty, <- Hranked.
  destruct (rankColors (fst (processSampleTiles sampleTiles))) as [|mostUsed others].
  - split; [now split|]. intros H. now contradiction H.
  - split; [split; discriminate|]. intros _. eauto.
Qed.

Lemma resolveBackground_needs_a_pixel_witness :
  resolveBackground noOptions [newImageData 0 8] = Throw "TypeError"
  /\ exists bg subpalettesByKey,
       resolveBackground noOptions [newImageData 0 8; redTile] = Ok (bg, subpalettesByKey).
Proof.
  split.
  - apply (@resolveBackground_needs_a_pixel noOptions [newImageData 0 8]);
      try reflexivity. repeat constructor.
  - apply (@resolveBackground_needs_a_pixel noOptions [newImageData 0 8; redTile]);
      try reflexivity.
    intros H. inversion_clear H as [|? ? _ H']. inversion_clear H' as [|? ? Hred _].
    discriminate Hred.
Defined.

(** X24: a backgroundColor that is given but falsy (the number 0, the
    empty string) is the background colour of the run, which is then
    black; but the custom palette is cut into subpalettes as if no
    backgroundColor were given: in runs of four, none with that colour
    put in front. *)
Theorem falsy_backgroundColor (options : Options) (background : anyColor) :
  backgroundColor options = Some background ->
  truthy background = false ->
  (forall sampleTiles bg subpalettesByKey,
      resolveBackground options sampleTiles = Ok (bg, subpalettesByKey) ->
      bg = ColorArray RFresh [0; 0; 0]%Z)
  /\ (forall paletteString,
         processCustomPalette options paletteString
         = processCustomPalette {| backgroundColor := None;
                                   customPalette := customPalette options |}
                                paletteString).
Proof.
  intros Hbg Hfalsy.
  assert (Hblack : normalizeColor background = ColorArray RFresh [0; 0; 0]%Z).
  { destruct background as [id elements|id r red g green b blue|[|c s]|[|p|p]|];
      try discriminate Hfalsy; reflexivity. }
  split.
  - intros sampleTiles bg subpalettesByKey. unfold resolveBackground.
    destruct (match customPalette options with
              | Some paletteString => _
              | None => _
              end) as [[[first colors] subpalettes]|message]; [|discriminate].
    cbn [bind]. unfold selectBackground. rewrite Hbg. cbn [bind].
    intros [= <- _]. exact Hblack.
  - intros paletteString. unfold processCustomPalette, truthyOption.
    cbn [backgroundColor]. rewrite Hbg, Hfalsy. reflexivity.
Qed.

Lemma falsy_backgroundColor_witness :
  processCustomPalette {| backgroundColor := Some (ColorNumber 0);
                          customPalette := Some "0f16" |} "0f16"
  = processCustomPalette {| backgroundColor := None;
                            customPalette := Some "0f16" |} "0f16".
Proof.
  apply (@falsy_backgroundColor {| backgroundColor := Some (ColorNumber 0);
                                   customPalette := Some "0f16" |} (ColorNumber 0));
    reflexivity.
Defined.

(** ** nesify.js: colorKey *)

(** X25: two colours of byte channels have the same colorKey exactly when
    they have the same channels; which arrays hold them does not matter. *)
Theorem colorKey_injective (id id' : ref) (r g b r' g' b' : Z) :
  byte r -> byte g -> byte b -> byte r' -> byte g' -> byte b' ->
  (colorKey (ColorArray id [r; g; b]) = colorKey (ColorArray id' [r'; g'; b'])
   <-> r = r' /\ g = g' /\ b = b').
Proof.
  unfold byte. intros Hr Hg Hb Hr' Hg' Hb'. split.
  - intros Hkey. unfold colorKey, normalizeColorHex in Hkey.
    change (channels (ColorArray id [r; g; b])) with [r; g; b] in Hkey.
    change (channels (ColorArray id' [r'; g'; b'])) with [r'; g'; b'] in Hkey.
    cbn [nth] in Hkey.
    pose proof (@channels_of_hex r g b Hr Hg Hb) as Hc.
    rewrite Hkey, channels_of_hex in Hc by assumption.
    now injection Hc as -> -> ->.
  - now intros (-> & -> & ->).
Qed.

Lemma colorKey_injective_witness :
  colorKey (ColorArray RFresh [255; 0; 0]%Z) = colorKey (ColorArray (RPixel 1 0) [255; 0; 0]%Z).
Proof.
  apply (@colorKey_injective RFresh (RPixel 1 0) 255 0 0 255 0 0);
    unfold byte; lia.
Defined.

(** ** nesify.js: what the filter can remove *)



